(** * VersaTool Hub: text diff engine, password generator, crypto codec

    A shallow embedding of the algorithmic core of the repository:
    - [src/pages/text/TextDiff.tsx]: [getDiffKey], [tokenize], [computeDiff];
    - [src/hooks/usePasswordGenerator.ts]: [getSecureRandomInt], [generate];
    - [src/utils/clipboard.ts]: [deriveKeys], [calculateMAC], [encryptText],
      [decryptText].

    JavaScript strings are sequences of UTF-16 code units.  The diff engine
    looks inside them (character classes, code points), so there they are
    lists of code units; the password generator and the crypto codec only
    concatenate, index and compare ASCII text, so there they are [string]s. *)

From Stdlib Require Import ZArith String Ascii Lia Bool SpecFloat.
From stdpp Require Import base option list.

Local Open Scope Z_scope.

(** ** The diff engine of [TextDiff.tsx] *)
Module TextDiff.

(** A JavaScript string: its UTF-16 code units. *)
Abbreviation jsstring := (list Z).

Inductive DiffType := added | removed | unchanged.

#[global] Instance DiffType_eq_dec : EqDecision DiffType.
Proof. solve_decision. Defined.

(** [interface Token { render: string; diff: string }] *)
Record Token := mkToken { render : jsstring; diff : jsstring }.

(** *** [computeDiff]: LCS by dynamic programming, then backtrack *)
Section LCS.
(** [<T extends { diff: string }>]: an item exposes its comparison key. *)
Context {T : Type} (key : T -> jsstring).

(** [{ type: DiffType; oldItem?: T; newItem?: T }] *)
Record DiffOp := mkOp
  { type : DiffType; oldItem : option T; newItem : option T }.

(** An [Int32Array] cell holds its value modulo 2^32, read as signed. *)
Definition wrap32 (z : Z) : Z := (z + 2 ^ 31) mod 2 ^ 32 - 2 ^ 31.

Abbreviation table := (list (list Z)).

(** [Array.from({ length: n + 1 }, () => new Int32Array(m + 1))] *)
Definition new_table (n m : nat) : table :=
  replicate (n + 1) (replicate (m + 1) 0).

(** [dp[i][j]].  The loops read inside the table only: [dp[i][j - 1]] behind
    [j > 0], [dp[i - 1][j]] behind [i === 0 ||]. *)
Definition dp_get (dp : table) (i j : nat) : Z :=
  nth j (nth i dp []) 0.

(** [dp[i][j] = v] *)
Definition dp_set (dp : table) (i j : nat) (v : Z) : table :=
  <[i := <[j := wrap32 v]> (nth i dp [])]> dp.

(** [oldItems[i - 1].diff === newItems[j - 1].diff].  Reading [.diff] of an
    index outside the array is a TypeError: [None]. *)
Definition same_diff (oldItems newItems : list T) (i j : nat) : option bool :=
  a ← oldItems !! (i - 1)%nat;
  b ← newItems !! (j - 1)%nat;
  Some (bool_decide (key a = key b)).

(** [for (let k = 1; k <= n; k++) body], over a state [A] the body may
    fail to produce. *)
Fixpoint for_each {A} (ks : list nat) (body : A -> nat -> option A)
    (a : A) : option A :=
  match ks with
  | [] => Some a
  | k :: ks' => a' ← body a k; for_each ks' body a'
  end.

(** The body of the inner loop: one cell of the table. *)
Definition fill_cell (oldItems newItems : list T) (i : nat)
    (dp : table) (j : nat) : option table :=
  eq ← same_diff oldItems newItems i j;
  Some (if eq : bool
        then dp_set dp i j (dp_get dp (i - 1) (j - 1) + 1)
        else dp_set dp i j
               (Z.max (dp_get dp (i - 1) j) (dp_get dp i (j - 1)))).

Definition fill_row (oldItems newItems : list T) (m : nat)
    (dp : table) (i : nat) : option table :=
  for_each (seq 1 m) (fill_cell oldItems newItems i) dp.

Definition fill_table (oldItems newItems : list T) : option table :=
  let n := length oldItems in
  let m := length newItems in
  for_each (seq 1 n) (fill_row oldItems newItems m) (new_table n m).

(** The loop state of the backtrack: [i], [j] and [result]. *)
Abbreviation bt_state := (nat * nat * list DiffOp)%type.

(** One iteration of [while (i > 0 || j > 0)]; [result.unshift(op)] puts
    [op] in front. *)
Definition backtrack_step (oldItems newItems : list T) (dp : table)
    (st : bt_state) : option bt_state :=
  let '(i, j, result) := st in
  hit ← (if (0 <? i)%nat && (0 <? j)%nat
         then same_diff oldItems newItems i j else Some false);
  if hit : bool then
    Some ((i - 1)%nat, (j - 1)%nat,
          mkOp unchanged (oldItems !! (i - 1)%nat) (newItems !! (j - 1)%nat)
            :: result)
  else if (0 <? j)%nat
          && ((i =? 0)%nat || (dp_get dp i (j - 1) >=? dp_get dp (i - 1) j))
  then
    Some (i, (j - 1)%nat, mkOp added None (newItems !! (j - 1)%nat) :: result)
  else
    Some ((i - 1)%nat, j, mkOp removed (oldItems !! (i - 1)%nat) None :: result).

(** The [while] loop, run for at most [fuel] iterations; [None] when an
    iteration raised or the iterations ran out before the loop ended. *)
Fixpoint backtrack (fuel : nat) (oldItems newItems : list T) (dp : table)
    (st : bt_state) : option (list DiffOp) :=
  let '(i, j, result) := st in
  if (0 <? i)%nat || (0 <? j)%nat then
    match fuel with
    | O => None
    | S fuel' =>
        st' ← backtrack_step oldItems newItems dp st;
        backtrack fuel' oldItems newItems dp st'
    end
  else Some result.

(** [computeDiff(oldItems, newItems)].  Each iteration of the backtrack
    lowers [i + j], so [n + m] iterations are all it can make. *)
Definition computeDiff (oldItems newItems : list T) : option (list DiffOp) :=
  let n := length oldItems in
  let m := length newItems in
  dp ← fill_table oldItems newItems;
  backtrack (n + m) oldItems newItems dp (n, m, []).

(** The old-side items of the [unchanged] and [removed] ops, in order. *)
Definition old_side (ops : list DiffOp) : list T :=
  ops ≫= (λ op, match type op with
                 | added => []
                 | _ => option_list (oldItem op)
                 end).

(** The new-side items of the [unchanged] and [added] ops, in order. *)
Definition new_side (ops : list DiffOp) : list T :=
  ops ≫= (λ op, match type op with
                 | removed => []
                 | _ => option_list (newItem op)
                 end).
End LCS.

(** *** Character classes of the regular expressions *)

(** [[\u4e00-\u9fa5]] *)
Definition is_cjk (c : Z) : bool := (0x4e00 <=? c) && (c <=? 0x9fa5).

(** [\w]: [[A-Za-z0-9_]] (the patterns carry no [i] flag). *)
Definition is_word (c : Z) : bool :=
  ((0x30 <=? c) && (c <=? 0x39)) || ((0x41 <=? c) && (c <=? 0x5a))
  || (c =? 0x5f) || ((0x61 <=? c) && (c <=? 0x7a)).

(** [[\w']] *)
Definition is_word_or_apostrophe (c : Z) : bool := is_word c || (c =? 0x27).

(** [\s], which is also what [trim()] removes: WhiteSpace and
    LineTerminator of ECMAScript. *)
Definition is_space (c : Z) : bool :=
  ((0x09 <=? c) && (c <=? 0x0d)) || (c =? 0x20) || (c =? 0xa0)
  || (c =? 0x1680) || ((0x2000 <=? c) && (c <=? 0x200a))
  || (c =? 0x2028) || (c =? 0x2029) || (c =? 0x202f) || (c =? 0x205f)
  || (c =? 0x3000) || (c =? 0xfeff).

(** [[^\s\w\u4e00-\u9fa5]] *)
Definition is_other (c : Z) : bool := negb (is_space c || is_word c || is_cjk c).

Definition is_high_surrogate (c : Z) : bool := (0xd800 <=? c) && (c <=? 0xdbff).
Definition is_low_surrogate (c : Z) : bool := (0xdc00 <=? c) && (c <=? 0xdfff).

Definition surrogate_pair (hi lo : Z) : Z :=
  (hi - 0xd800) * 0x400 + (lo - 0xdc00) + 0x10000.

(** What a [u]-flagged pattern reads at the head of a string: a code point,
    the code units that spell it, and the rest. *)
Definition next_code_point (s : jsstring) : option (Z * jsstring * jsstring) :=
  match s with
  | [] => None
  | c :: rest =>
      match rest with
      | d :: rest' =>
          if is_high_surrogate c && is_low_surrogate d
          then Some (surrogate_pair c d, [c; d], rest')
          else Some (c, [c], rest)
      | [] => Some (c, [c], [])
      end
  end.

(** The code points of a string, as a [u]-flagged pattern sees them. *)
Fixpoint code_points (s : jsstring) : list Z :=
  match s with
  | [] => []
  | c :: rest =>
      match rest with
      | d :: rest' =>
          if is_high_surrogate c && is_low_surrogate d
          then surrogate_pair c d :: code_points rest'
          else c :: code_points rest
      | [] => [c]
      end
  end.

(** The longest prefix whose units satisfy [p], and what follows it: a
    greedy [[class]+]. *)
Fixpoint span (p : Z -> bool) (s : jsstring) : jsstring * jsstring :=
  match s with
  | [] => ([], [])
  | c :: rest =>
      if p c then let '(run, rest') := span p rest in (c :: run, rest')
      else ([], s)
  end.

(** What one match of the pattern looks like: one unit of the CJK range or
    of the third class, a surrogate pair, a run of word characters and
    apostrophes, or a run of whitespace. *)
Inductive raw_token : jsstring -> Prop :=
  | raw_single c :
      is_cjk c = true \/ is_other c = true /\ is_word_or_apostrophe c = false ->
      raw_token [c]
  | raw_pair hi lo :
      is_high_surrogate hi = true -> is_low_surrogate lo = true ->
      raw_token [hi; lo]
  | raw_word c run :
      forallb is_word_or_apostrophe (c :: run) = true -> raw_token (c :: run)
  | raw_space c run :
      forallb is_space (c :: run) = true -> raw_token (c :: run).

(** The parts of the Unicode database the code consults through the
    platform: [String.prototype.toLowerCase] and the property escapes
    [\p{P}] and [\p{S}] (on code points). *)
Class Unicode := mkUnicode
  { toLowerCase : jsstring -> jsstring;
    isPunctOrSymbol : Z -> bool }.

(** [useState({ ignoreCase, ignorePunctuation, ignoreWhitespace })] *)
Record Settings := mkSettings
  { ignoreCase : bool; ignorePunctuation : bool; ignoreWhitespace : bool }.

Section Tokenizer.
Context {U : Unicode} (settings : Settings).

(** [ch => String.fromCharCode(ch.charCodeAt(0) - 0xfee0)] on
    [[\uff01-\uff5e]] *)
Definition fold_fullwidth (c : Z) : Z :=
  if (0xff01 <=? c) && (c <=? 0xff5e) then c - 0xfee0 else c.

(** [key.replace(/\u3000/g, " ")] on one unit *)
Definition fold_ideographic_space (c : Z) : Z :=
  if c =? 0x3000 then 0x20 else c.

(** [key.replace(/[\p{P}\p{S}]/gu, "")]: every code point of these
    categories goes, with both units when it is a surrogate pair. *)
Fixpoint strip_punctuation (s : jsstring) : jsstring :=
  match s with
  | [] => []
  | c :: rest =>
      match rest with
      | d :: rest' =>
          if is_high_surrogate c && is_low_surrogate d
          then if isPunctOrSymbol (surrogate_pair c d)
               then strip_punctuation rest'
               else c :: d :: strip_punctuation rest'
          else if isPunctOrSymbol c then strip_punctuation rest
               else c :: strip_punctuation rest
      | [] => if isPunctOrSymbol c then [] else [c]
      end
  end.

(** [key.replace(/\s+/g, "")] *)
Definition strip_whitespace (s : jsstring) : jsstring :=
  filter (λ c, is_space c = false) s.

Definition trim_start (s : jsstring) : jsstring := snd (span is_space s).

(** [key.trim()] *)
Definition trim (s : jsstring) : jsstring :=
  reverse (trim_start (reverse (trim_start s))).

(** [getDiffKey(str)] *)
Definition getDiffKey (str : jsstring) : jsstring :=
  let key := str in
  let key := fold_fullwidth <$> key in
  let key := fold_ideographic_space <$> key in
  let key := if ignoreCase settings then toLowerCase key else key in
  let key := if ignorePunctuation settings then strip_punctuation key else key in
  let key := if ignoreWhitespace settings then strip_whitespace key else key in
  if ignoreWhitespace settings then key else trim key.

(** [text.match(/([\u4e00-\u9fa5]|[\w']+|[^\s\w\u4e00-\u9fa5]|\s+)/gu)]:
    the successive matches from the left, the alternatives tried in the
    order written.  Every match takes at least one unit, so [fuel] beyond
    the length of [text] is never used. *)
Fixpoint match_all (fuel : nat) (text : jsstring) : list jsstring :=
  match fuel with
  | O => []
  | S fuel' =>
      match next_code_point text with
      | None => []
      | Some (cp, units, rest) =>
          if is_cjk cp then units :: match_all fuel' rest
          else if is_word_or_apostrophe cp then
            let '(run, rest') := span is_word_or_apostrophe text in
            run :: match_all fuel' rest'
          else if is_other cp then units :: match_all fuel' rest
          else if is_space cp then
            let '(run, rest') := span is_space text in
            run :: match_all fuel' rest'
          else match_all fuel' rest
      end
  end.

(** [/^[\p{P}\p{S}]+$/u.test(s)] *)
Definition all_punctuation (s : jsstring) : bool :=
  match code_points s with
  | [] => false
  | cps => forallb isPunctOrSymbol cps
  end.

(** [/^\s+$/.test(s)] *)
Definition all_whitespace (s : jsstring) : bool :=
  match s with
  | [] => false
  | _ => forallb is_space s
  end.

(** The predicate of [.filter(t => ...)] in [tokenize]. *)
Definition keep_token (t : Token) : bool :=
  if ignorePunctuation settings && all_punctuation (render t) then false
  else if ignoreWhitespace settings && all_whitespace (render t) then false
  else true.

(** [tokenize(text)] *)
Definition tokenize (text : jsstring) : list Token :=
  match text with
  | [] => []
  | _ =>
      let rawTokens := match_all (length text) text in
      filter (λ t, keep_token t = true)
        ((λ raw, mkToken raw (getDiffKey raw)) <$> rawTokens)
  end.
End Tokenizer.

(** The length of a longest common subsequence, by the textbook
    recurrence on the heads of the two sequences. *)
Fixpoint lcs_length (xs ys : list jsstring) : nat :=
  match xs with
  | [] => 0%nat
  | x :: xs' =>
      (fix inner (ys : list jsstring) : nat :=
         match ys with
         | [] => 0%nat
         | y :: ys' =>
             if bool_decide (x = y) then S (lcs_length xs' ys')
             else Nat.max (lcs_length xs' ys) (inner ys')
         end) ys
  end.

(** *** What a script is made of *)
Section Scripts.
Context {T : Type} (key : T -> jsstring).

(** An op as [computeDiff] builds it: [unchanged] carries both items, and
    their keys are equal; [added] carries the new item only, [removed] the
    old item only. *)
Definition well_formed_op (op : @DiffOp T) : Prop :=
  match type op with
  | unchanged =>
      exists a b, oldItem op = Some a /\ newItem op = Some b /\ key a = key b
  | added => oldItem op = None /\ exists b, newItem op = Some b
  | removed => (exists a, oldItem op = Some a) /\ newItem op = None
  end.

Definition is_unchanged (op : @DiffOp T) : bool :=
  bool_decide (type op = unchanged).

(** The number of [unchanged] ops of a script. *)
Definition count_unchanged (ops : list (@DiffOp T)) : nat :=
  length (List.filter is_unchanged ops).

(** The script that pairs two sequences item by item, all [unchanged]. *)
Definition paired (oldItems newItems : list T) : list (@DiffOp T) :=
  zip_with (λ a b, mkOp unchanged (Some a) (Some b)) oldItems newItems.

(** The keys of the items the [unchanged] ops of a script pair, in order. *)
Definition unchanged_keys (ops : list (@DiffOp T)) : list jsstring :=
  key <$> old_side (List.filter is_unchanged ops).

(** The length of a longest common subsequence of the keys of the first
    [i] old items and of the first [j] new items: what [dp[i][j]] is to be. *)
Definition lcs_cell (oldItems newItems : list T) (i j : nat) : nat :=
  lcs_length (reverse (take i (key <$> oldItems)))
    (reverse (take j (key <$> newItems))).

(** A table of the right dimensions whose first row, first column and
    [filled] cells hold the LCS lengths. *)
Definition table_ok (oldItems newItems : list T) (dp : list (list Z))
    (filled : nat -> nat -> Prop) : Prop :=
  length dp = S (length oldItems)
  /\ Forall (λ row, length row = S (length newItems)) dp
  /\ forall i j, (i <= length oldItems)%nat -> (j <= length newItems)%nat ->
       (i = 0%nat \/ j = 0%nat \/ filled i j) ->
       dp_get dp i j = Z.of_nat (lcs_cell oldItems newItems i j).
End Scripts.

(** *** The diff of two texts: [diffResult] *)

(** [interface DiffPart { type: DiffType; value: string }] *)
Record DiffPart := mkPart { part_type : DiffType; part_value : jsstring }.

(** [interface ProcessedDiff extends DiffPart { wordDiff?: ... }] *)
Record ProcessedDiff := mkLine
  { line_type : DiffType; line_value : jsstring;
    wordDiff : option (list DiffPart) }.

(** [text.split(/\r?\n/)]: a line ends at a line feed, or at a carriage
    return that a line feed follows; the empty text is one empty line. *)
Fixpoint split_lines (text : jsstring) : list jsstring :=
  match text with
  | [] => [[]]
  | c :: rest =>
      if c =? 0x0a then [] :: split_lines rest
      else
        match rest with
        | d :: rest' =>
            if (c =? 0x0d) && (d =? 0x0a) then [] :: split_lines rest'
            else match split_lines rest with
                 | line :: lines => (c :: line) :: lines
                 | [] => [[c]]
                 end
        | [] => [[c]]
        end
  end.

(** Lines put together again with a line feed between them. *)
Fixpoint join_lines (lines : list jsstring) : jsstring :=
  match lines with
  | [] => []
  | line :: rest =>
      match rest with
      | [] => line
      | _ => line ++ 0x0a :: join_lines rest
      end
  end.

(** The longest run of ops of one type at the head of a script, and what
    follows it: [while (k < lineDiffs.length && lineDiffs[k].type === t)]. *)
Fixpoint take_run {T} (t : DiffType) (ops : list (@DiffOp T))
    : list (@DiffOp T) * list (@DiffOp T) :=
  match ops with
  | [] => ([], [])
  | op :: ops' =>
      if bool_decide (type op = t)
      then let '(run, rest) := take_run t ops' in (op :: run, rest)
      else ([], ops)
  end.

Section Orchestrator.
Context {U : Unicode} (settings : Settings).

(** [l => ({ render: l, diff: getDiffKey(l) })] *)
Definition line_token (l : jsstring) : Token :=
  mkToken l (getDiffKey settings l).

(** [wordDiffs.filter(d => d.type !== 'added')
      .map(d => ({ type: d.type, value: d.oldItem!.render }))];
    [.render] of an item that is not there is a TypeError. *)
Definition old_spans (wordDiffs : list (@DiffOp Token))
    : option (list DiffPart) :=
  mapM (λ d, item ← oldItem d; Some (mkPart (type d) (render item)))
    (filter (λ d, type d ≠ added) wordDiffs).

(** [wordDiffs.filter(d => d.type !== 'removed')
      .map(d => ({ type: d.type, value: d.newItem!.render }))] *)
Definition new_spans (wordDiffs : list (@DiffOp Token))
    : option (list DiffPart) :=
  mapM (λ d, item ← newItem d; Some (mkPart (type d) (render item)))
    (filter (λ d, type d ≠ removed) wordDiffs).

(** The body of [for (let p = 0; p < maxInBlock; p++)], given
    [removals[p]] and [additions[p]]: the lines it pushes. *)
Definition pair_lines (rem add : option Token) : option (list ProcessedDiff) :=
  match rem, add with
  | Some rem, Some add =>
      let oldTokens := tokenize settings (render rem) in
      let newTokens := tokenize settings (render add) in
      wordDiffs ← computeDiff diff oldTokens newTokens;
      olds ← old_spans wordDiffs;
      news ← new_spans wordDiffs;
      Some [ mkLine removed (render rem) (Some olds);
             mkLine added (render add) (Some news) ]
  | Some rem, None => Some [mkLine removed (render rem) None]
  | None, Some add => Some [mkLine added (render add) None]
  | None, None => Some []
  end.

(** A block of removals followed by additions, paired by position.  An
    index beyond an array reads [undefined], as does an op without its
    item. *)
Definition process_block (removals additions : list (option Token))
    : option (list ProcessedDiff) :=
  let maxInBlock := Nat.max (length removals) (length additions) in
  pushed ← mapM (λ p, pair_lines (default None (removals !! p))
                        (default None (additions !! p)))
              (seq 0 maxInBlock);
  Some (concat pushed).

(** [while (k < lineDiffs.length)], on what is left of [lineDiffs] from
    [k] on; every iteration moves [k], so [fuel] beyond the length is never
    used. *)
Fixpoint process (fuel : nat) (lineDiffs : list (@DiffOp Token))
    : option (list ProcessedDiff) :=
  match lineDiffs with
  | [] => Some []
  | current :: rest =>
      match fuel with
      | O => None
      | S fuel' =>
          if bool_decide (type current = unchanged) then
            item ← newItem current;
            processed ← process fuel' rest;
            Some (mkLine unchanged (render item) None :: processed)
          else
            let '(removed_run, after) := take_run removed lineDiffs in
            let '(added_run, after') := take_run added after in
            block ← process_block (oldItem <$> removed_run)
                       (newItem <$> added_run);
            processed ← process fuel' after';
            Some (block ++ processed)
      end
  end.

(** [diffResult], for the current [oldText], [newText] and [settings]. *)
Definition diffResult (oldText newText : jsstring)
    : option (list ProcessedDiff) :=
  match oldText, newText with
  | [], [] => Some []
  | _, _ =>
      let oldLines := line_token <$> split_lines oldText in
      let newLines := line_token <$> split_lines newText in
      lineDiffs ← computeDiff diff oldLines newLines;
      process (length lineDiffs) lineDiffs
  end.

(** The lines of a result that are not of type [t], as text. *)
Definition lines_but (t : DiffType) (processed : list ProcessedDiff)
    : list jsstring :=
  line_value <$> filter (λ l, line_type l ≠ t) processed.

(** An unchanged line with its text. *)
Definition unchanged_line (l : jsstring) : ProcessedDiff :=
  mkLine unchanged l None.

(** The spans of a line, when it has any, never carry the opposite type,
    and an unchanged line has none. *)
Definition spans_fit (l : ProcessedDiff) : Prop :=
  match wordDiff l with
  | None => True
  | Some spans =>
      match line_type l with
      | removed => Forall (λ part, part_type part ≠ added) spans
      | added => Forall (λ part, part_type part ≠ removed) spans
      | unchanged => False
      end
  end.

(** The spans of a line, when it has any, spell the line. *)
Definition spans_cover (l : ProcessedDiff) : Prop :=
  match wordDiff l with
  | None => True
  | Some spans => mjoin (part_value <$> spans) = line_value l
  end.
End Orchestrator.

(** The Basic Latin part of the Unicode tables, enough to run the code on
    ASCII text: [A-Z] lowercases to [a-z]; the ASCII characters of
    categories P and S are the printable ones that are neither letters,
    digits nor the space. *)
Definition ascii_lower (c : Z) : Z :=
  if (0x41 <=? c) && (c <=? 0x5a) then c + 0x20 else c.

Definition ascii_punct_or_symbol (c : Z) : bool :=
  ((0x21 <=? c) && (c <=? 0x2f)) || ((0x3a <=? c) && (c <=? 0x40))
  || ((0x5b <=? c) && (c <=? 0x60)) || ((0x7b <=? c) && (c <=? 0x7e)).

Definition basic_latin : Unicode :=
  mkUnicode (fmap ascii_lower) ascii_punct_or_symbol.

Definition exact_settings : Settings := mkSettings false false false.

End TextDiff.

(** ** The password generator of [usePasswordGenerator.ts] *)
Module PasswordGenerator.
Local Open Scope string_scope.
Local Open Scope Z_scope.

(** [CHARSETS] *)
Definition CHARSETS_uppercase : string := "ABCDEFGHIJKLMNOPQRSTUVWXYZ".
Definition CHARSETS_lowercase : string := "abcdefghijklmnopqrstuvwxyz".
Definition CHARSETS_numbers : string := "0123456789".
Definition CHARSETS_symbols : string := "!@#$%^&*()_+~`|}{[]:;?><,./-=".
Definition CHARSETS_ambiguous : string := "Il1O0".

Record PasswordOptions := mkOptions
  { uppercase : bool; lowercase : bool; numbers : bool; symbols : bool;
    excludeAmbiguous : bool }.

(** The secure random source: the successive values
    [window.crypto.getRandomValues] will write into [array[0]].  A
    computation reads from the front; [None] means the values were all read
    while a loop was still asking for more. *)
Definition Rand (A : Type) : Type := list Z -> option (A * list Z).

#[global] Instance rand_ret : MRet Rand := λ A a tape, Some (a, tape).

#[global] Instance rand_bind : MBind Rand := λ A B k m tape,
  match m tape with
  | Some (a, tape') => k a tape'
  | None => None
  end.

(** [do { getRandomValues(array); value = array[0] } while (value >= limit)]:
    an element of a [Uint32Array] is its value modulo 2^32. *)
Fixpoint draw_below (limit : Z) (tape : list Z) : option (Z * list Z) :=
  match tape with
  | [] => None
  | raw :: tape' =>
      let value := raw mod 2 ^ 32 in
      if value >=? limit then draw_below limit tape' else Some (value, tape')
  end.

(** [getSecureRandomInt(max)].  With [max = 0] the limit is NaN, no value
    is [>=] it, and the result [value % 0] is NaN, which [charAt], the only
    caller that could pass an empty pool, reads as position 0. *)
Definition getSecureRandomInt (max : Z) : Rand Z :=
  if max =? 0 then
    λ tape, match tape with [] => None | _ :: tape' => Some (0, tape') end
  else
    let limit := 0xffffffff / max * max in
    value ← draw_below limit;
    mret (value mod max).

(** [options.uppercase || options.lowercase || options.numbers ||
    options.symbols] *)
Definition isValid (options : PasswordOptions) : bool :=
  uppercase options || lowercase options || numbers options || symbols options.

(** [result.split(char).join('')]: [result] without its occurrences of
    [char]. *)
Fixpoint remove_char (char : ascii) (result : string) : string :=
  match result with
  | EmptyString => EmptyString
  | String c rest =>
      if Ascii.eqb c char then remove_char char rest
      else String c (remove_char char rest)
  end.

Definition sanitize (options : PasswordOptions) (set : string) : string :=
  if negb (excludeAmbiguous options) then set
  else fold_left (λ result char, remove_char char result)
         (list_ascii_of_string CHARSETS_ambiguous) set.

(** [pool.charAt(k)]: a string of one character, empty out of range. *)
Definition charAt (pool : string) (k : Z) : string :=
  if k <? 0 then ""
  else match String.get (Z.to_nat k) pool with
       | Some c => String c ""
       | None => ""
       end.

Definition strlen (s : string) : Z := Z.of_nat (String.length s).

(** [pools.push(...)], four times, each behind its option. *)
Definition pools_of (options : PasswordOptions) : list string :=
  (if uppercase options then [sanitize options CHARSETS_uppercase] else [])
  ++ (if lowercase options then [sanitize options CHARSETS_lowercase] else [])
  ++ (if numbers options then [sanitize options CHARSETS_numbers] else [])
  ++ (if symbols options then [sanitize options CHARSETS_symbols] else []).

(** [pools.map(pool => pool.charAt(getSecureRandomInt(pool.length)))] *)
Fixpoint pick_each (pools : list string) : Rand (list string) :=
  match pools with
  | [] => mret []
  | pool :: pools' =>
      k ← getSecureRandomInt (strlen pool);
      rest ← pick_each pools';
      mret (charAt pool k :: rest)
  end.

(** [for (let i = passwordChars.length; i < targetLength; i++)
      passwordChars.push(fullCharset.charAt(...))], [count] iterations. *)
Fixpoint fill_remaining (count : nat) (fullCharset : string)
    (passwordChars : list string) : Rand (list string) :=
  match count with
  | O => mret passwordChars
  | S count' =>
      k ← getSecureRandomInt (strlen fullCharset);
      fill_remaining count' fullCharset (passwordChars ++ [charAt fullCharset k])
  end.

(** [[a[i], a[j]] = [a[j], a[i]]]: both elements are read, then [a[i]] and
    [a[j]] are written in that order.  An index beyond the array reads
    [undefined], which the final [join] prints as the empty string; in the
    shuffle both indices are below the length ([i] by the loop bounds,
    [j < i + 1] by [getSecureRandomInt]). *)
Definition swap (a : list string) (i j : nat) : list string :=
  let ai := default "" (a !! i) in
  let aj := default "" (a !! j) in
  <[j := ai]> (<[i := aj]> a).

(** [for (let i = passwordChars.length - 1; i > 0; i--)], given the values
    [i] takes, in order. *)
Fixpoint shuffle (indices : list nat) (passwordChars : list string)
    : Rand (list string) :=
  match indices with
  | [] => mret passwordChars
  | i :: indices' =>
      j ← getSecureRandomInt (Z.of_nat i + 1);
      shuffle indices' (swap passwordChars i (Z.to_nat j))
  end.

(** [passwordChars.join('')] *)
Definition join (parts : list string) : string := String.concat "" parts.

(** [generate()], for the current [length] and [options]: the value given to
    [setPassword].  [length] is an integer, as the range input of the page
    gives it.  The array [passwordChars] is [picked] after the picks,
    [filled] after the filler and [shuffled] after the shuffle. *)
Definition generate (length : Z) (options : PasswordOptions) : Rand string :=
  if negb (isValid options) then mret ""
  else
    let pools := pools_of options in
    let fullCharset := join pools in
    if strlen fullCharset =? 0 then mret ""
    else
      picked ← pick_each pools;
      (let targetLength := Z.max length (Z.of_nat (List.length picked)) in
       filled ← fill_remaining
                  (Z.to_nat (targetLength - Z.of_nat (List.length picked)))
                  fullCharset picked;
       (shuffled ← shuffle (rev (seq 1 (List.length filled - 1))) filled;
        mret (join shuffled))).

(** The characters of a string. *)
Definition chars (s : string) : list ascii := list_ascii_of_string s.

(** A part of [passwordChars]: one character, and which. *)
Definition single (c : ascii) (part : string) : Prop := part = String c "".

Definition is_single (part : string) : Prop := exists c, single c part.

(** A draw the rejection loop accepts whatever it is asked for, up to
    [max = 2^31]; [supply] counts them. *)
Definition accepted (raw : Z) : bool := raw mod 2 ^ 32 <? 2 ^ 31.

Definition supply (tape : list Z) : Z :=
  Z.of_nat (List.length (List.filter accepted tape)).

(** The number of active pools. *)
Definition active_pools (options : PasswordOptions) : Z :=
  Z.of_nat (List.length (pools_of options)).

(** The password has a character of every active pool. *)
Definition covers (options : PasswordOptions) (password : string) : Prop :=
  forall pool, pool ∈ pools_of options ->
    exists c, c ∈ chars pool /\ c ∈ chars password.

(** All four classes, ambiguous characters excluded. *)
Definition all_classes : PasswordOptions := mkOptions true true true true true.

(** [CHARSETS.ambiguous.includes(char)] *)
Definition includes (set : string) (char : ascii) : bool :=
  existsb (Ascii.eqb char) (list_ascii_of_string set).

(** [sanitizeSize(set)]: without the exclusion the length of the set, with
    it the count of [for (const char of set)
    if (!CHARSETS.ambiguous.includes(char)) count++]. *)
Definition sanitizeSize (options : PasswordOptions) (set : string) : Z :=
  if negb (excludeAmbiguous options) then strlen set
  else fold_left
         (λ count char,
            if negb (includes CHARSETS_ambiguous char) then count + 1
            else count)
         (list_ascii_of_string set) 0.

(** [let charsetSize = 0; if (options.uppercase) charsetSize += ...], four
    times. *)
Definition charsetSize (options : PasswordOptions) : Z :=
  let size := 0 in
  let size := if uppercase options
              then size + sanitizeSize options CHARSETS_uppercase else size in
  let size := if lowercase options
              then size + sanitizeSize options CHARSETS_lowercase else size in
  let size := if numbers options
              then size + sanitizeSize options CHARSETS_numbers else size in
  let size := if symbols options
              then size + sanitizeSize options CHARSETS_symbols else size in
  size.

Section Entropy.
(** [Math.round(length * Math.log2(charsetSize))], the one floating-point
    expression of the hook, as a function of [length] and [charsetSize]. *)
Variable bits : Z -> Z -> Z.

(** [entropy], for the current [length] and [options]. *)
Definition entropy (length : Z) (options : PasswordOptions) : Z :=
  if negb (isValid options) then 0
  else
    let size := charsetSize options in
    if size =? 0 then 0 else bits length size.
End Entropy.

(** A part of [passwordChars] that is one character of [pool]. *)
Definition drawn_from (pool part : string) : Prop :=
  exists c, single c part /\ c ∈ chars pool.

End PasswordGenerator.

(** ** The crypto codec of [clipboard.ts] *)
Module Clipboard.
Local Open Scope string_scope.
Local Open Scope Z_scope.

(** [type CryptoAlgo = 'AES' | 'DES' | 'TripleDES'] *)
Inductive CryptoAlgo := AES | DES | TripleDES.

Definition algo_name (algo : CryptoAlgo) : string :=
  match algo with AES => "AES" | DES => "DES" | TripleDES => "TripleDES" end.

(** [enum CryptoErrorCode] *)
Inductive CryptoErrorCode :=
  | INVALID_PAYLOAD | UNSUPPORTED_VERSION | INTEGRITY_FAILED
  | DECRYPTION_FAILED | MALFORMED_INPUT.

(** What a [throw] carries: a [CryptoError] with its code, or anything else
    (a SyntaxError of [JSON.parse], a TypeError, the bare [new Error()]). *)
Inductive thrown := CryptoError (code : CryptoErrorCode) | NativeError.

(** A JavaScript value as [JSON.parse] builds it, and [undefined], which
    reading a property that is not there gives.  Numbers are IEEE doubles.
    In [JObj props] the first binding of a name is the property. *)
#[local] Unset Elimination Schemes.
Inductive JSValue :=
  | JUndefined
  | JNull
  | JBool (b : bool)
  | JNum (x : spec_float)
  | JStr (s : string)
  | JArr (items : list JSValue)
  | JObj (props : list (string * JSValue)).
#[local] Set Elimination Schemes.

(** The number 1. *)
Definition one : spec_float := S754_finite false 4503599627370496 (-52).

(** [SECURITY_CONFIG.VERSION] *)
Definition VERSION : spec_float := one.

(** The calls into [JSON] and [CryptoJS] whose order the codec decides. *)
Inductive Call :=
  | JSON_parse_call | Hex_parse_call | Base64_parse_call
  | PBKDF2_call | HmacSHA256_call
  | encrypt_call (algo : CryptoAlgo) | decrypt_call (algo : CryptoAlgo)
  | Utf8_stringify_call.

(** The platform under the codec: [JSON], the string conversions of the
    language, and [CryptoJS].  A function that can raise returns [None]
    when it does.  [Hex_parse] and [Base64_parse] take whatever value the
    payload holds at the field. *)
Class Platform := mkPlatform
  { WordArray : Type;
    JSON_parse : string -> option JSValue;
    JSON_stringify : JSValue -> string;
    (** [Number.prototype.toString] *)
    Number_toString : spec_float -> string;
    (** the string of an array or an object (ToPrimitive, hint string) *)
    Object_toString : JSValue -> option string;
    (** [CryptoJS.lib.WordArray.create(words)] *)
    WordArray_create : list Z -> WordArray;
    (** [CryptoJS.enc.Hex.parse] and [wordArray.toString()] *)
    Hex_parse : JSValue -> option WordArray;
    Hex_stringify : WordArray -> string;
    (** [CryptoJS.enc.Base64.parse] and [wordArray.toString(Base64)] *)
    Base64_parse : JSValue -> option WordArray;
    Base64_stringify : WordArray -> string;
    (** [CryptoJS.PBKDF2(passphrase, salt, { keySize: 16, iterations:
        100000, hasher: SHA256 }).words] *)
    PBKDF2 : string -> WordArray -> option (list Z);
    (** [CryptoJS.HmacSHA256(data, key).toString()] *)
    HmacSHA256 : string -> WordArray -> option string;
    (** [cipher.encrypt(text, key, { iv, mode: CBC, padding: Pkcs7 })
        .ciphertext] *)
    cipher_encrypt : CryptoAlgo -> string -> WordArray -> WordArray
                     -> option WordArray;
    (** [cipher.decrypt({ ciphertext }, key, { iv, mode: CBC, padding:
        Pkcs7 })] *)
    cipher_decrypt : CryptoAlgo -> WordArray -> WordArray -> WordArray
                     -> option WordArray;
    (** [wordArray.toString(CryptoJS.enc.Utf8)] *)
    Utf8_stringify : WordArray -> option string }.

(** A run of the codec: the library calls it made, in order, and how it
    ended. *)
Record Run (A : Type) := mkRun { calls : list Call; outcome : A + thrown }.
Arguments mkRun {A} _ _.
Arguments calls {A} _.
Arguments outcome {A} _.

#[global] Instance run_ret : MRet Run := λ A a, mkRun [] (inl a).

#[global] Instance run_bind : MBind Run := λ A B k m,
  match outcome m with
  | inl a => mkRun (calls m ++ calls (k a)) (outcome (k a))
  | inr e => mkRun (calls m) (inr e)
  end.

Definition throw {A} (e : thrown) : Run A := mkRun [] (inr e).

(** A library call, entered in the record. *)
Definition lib {A} (c : Call) (r : option A) : Run A :=
  mkRun [c] (match r with Some a => inl a | None => inr NativeError end).

(** A conversion of the language itself. *)
Definition native {A} (r : option A) : Run A :=
  match r with Some a => mret a | None => throw NativeError end.

(** [try { body } catch { handler }] *)
Definition try_catch {A} (body : Run A) (handler : Run A) : Run A :=
  match outcome body with
  | inl _ => body
  | inr _ => mkRun (calls body ++ calls handler) (outcome handler)
  end.

Fixpoint assoc (k : string) (props : list (string * JSValue)) : JSValue :=
  match props with
  | [] => JUndefined
  | (k', v) :: props' => if String.eqb k k' then v else assoc k props'
  end.

(** [payload.k] for the names the codec reads ([v], [a], [s], [iv], [ct],
    [mac]), which no prototype defines; on [null] the read itself raises,
    see [readable]. *)
Definition prop (payload : JSValue) (k : string) : JSValue :=
  match payload with
  | JObj props => assoc k props
  | _ => JUndefined
  end.

(** Reading a property of [null] is a TypeError. *)
Definition readable (payload : JSValue) : bool :=
  match payload with JNull | JUndefined => false | _ => true end.

(** ToBoolean *)
Definition truthy (v : JSValue) : bool :=
  match v with
  | JUndefined | JNull => false
  | JBool b => b
  | JNum (S754_zero _) | JNum S754_nan => false
  | JNum _ => true
  | JStr s => negb (String.eqb s "")
  | JArr _ | JObj _ => true
  end.

(** [Object.prototype], which [ALGO_MAP], an object literal, inherits. *)
Definition Object_prototype : list string :=
  [ "constructor"; "hasOwnProperty"; "isPrototypeOf"; "propertyIsEnumerable";
    "toLocaleString"; "toString"; "valueOf"; "__proto__";
    "__defineGetter__"; "__defineSetter__"; "__lookupGetter__";
    "__lookupSetter__" ].

(** What [ALGO_MAP[k]] is: one of the three ciphers, a member of
    [Object.prototype] (a function or an object, so truthy, with no
    [decrypt] of its own), or [undefined]. *)
Inductive slot := Cipher (algo : CryptoAlgo) | Inherited | Missing.

(** [const ALGO_MAP = { AES: ..., DES: ..., TripleDES: ... }], read at [k]. *)
Definition ALGO_MAP (k : string) : slot :=
  if String.eqb k "AES" then Cipher AES
  else if String.eqb k "DES" then Cipher DES
  else if String.eqb k "TripleDES" then Cipher TripleDES
  else if existsb (String.eqb k) Object_prototype then Inherited
  else Missing.

Section Codec.
Context {P : Platform}.

(** ToString *)
Definition ToString (v : JSValue) : Run string :=
  match v with
  | JUndefined => mret "undefined"
  | JNull => mret "null"
  | JBool b => mret (if b then "true" else "false")
  | JNum x => mret (Number_toString x)
  | JStr s => mret s
  | JArr _ | JObj _ => native (Object_toString v)
  end.

(** [parts.join(sep)]: [undefined] and [null] elements print as the
    empty string. *)
Fixpoint join (sep : string) (parts : list JSValue) : Run string :=
  match parts with
  | [] => mret ""
  | part :: rest =>
      head ← (match part with
              | JUndefined | JNull => mret ""
              | _ => ToString part
              end);
      match rest with
      | [] => mret head
      | _ => tail ← join sep rest; mret (head ++ sep ++ tail)
      end
  end.

(** [deriveKeys(passphrase, salt)]: one derivation of 16 words, split by
    position. *)
Definition deriveKeys (passphrase : string) (salt : WordArray)
    : Run (WordArray * WordArray) :=
  derived ← lib PBKDF2_call (PBKDF2 passphrase salt);
  let encKey := WordArray_create (take 8 derived) in
  let macKey := WordArray_create (take 8 (drop 8 derived)) in
  mret (encKey, macKey).

(** [calculateMAC(payloadParts, macKey)] *)
Definition calculateMAC (payloadParts : list JSValue) (macKey : WordArray)
    : Run string :=
  dataToAuth ← join "|" payloadParts;
  lib HmacSHA256_call (HmacSHA256 dataToAuth macKey).

(** An object with the six fields of a payload, the version being the
    current one. *)
Definition envelope (a : JSValue) (s iv ct mac : string) : JSValue :=
  JObj [ ("v", JNum VERSION); ("a", a); ("s", JStr s); ("iv", JStr iv);
         ("ct", JStr ct); ("mac", JStr mac) ].

(** The object literal [{ v, a, s, iv, ct, mac }] of [encryptText]. *)
Definition payload_object (algo : CryptoAlgo) (s iv ct mac : string)
    : JSValue :=
  envelope (JStr (algo_name algo)) s iv ct mac.

(** [encryptText(text, passphrase, algo)], given the two values
    [WordArray.random] returns in it. *)
Definition encryptText (text passphrase : string) (algo : CryptoAlgo)
    (salt iv : WordArray) : Run string :=
  '(encKey, macKey) ← deriveKeys passphrase salt;
  encrypted ← lib (encrypt_call algo) (cipher_encrypt algo text encKey iv);
  let ciphertextBase64 := Base64_stringify encrypted in
  mac ← calculateMAC
          [ JStr (Number_toString VERSION); JStr (algo_name algo);
            JStr (Hex_stringify salt); JStr (Hex_stringify iv);
            JStr ciphertextBase64 ] macKey;
  mret (JSON_stringify
          (payload_object algo (Hex_stringify salt) (Hex_stringify iv)
             ciphertextBase64 mac)).

(** The first [try] of [decryptText]: parse, then require [v], [ct], [s],
    [iv] and [mac] to be truthy; whatever is raised becomes
    [INVALID_PAYLOAD]. *)
Definition parse_payload (packed : string) : Run JSValue :=
  try_catch
    (payload ← lib JSON_parse_call (JSON_parse packed);
     if negb (readable payload) then throw NativeError
     else if negb (truthy (prop payload "v"))
             || negb (truthy (prop payload "ct"))
             || negb (truthy (prop payload "s"))
             || negb (truthy (prop payload "iv"))
             || negb (truthy (prop payload "mac"))
     then throw NativeError
     else mret payload)
    (throw (CryptoError INVALID_PAYLOAD)).

(** [payload.v !== SECURITY_CONFIG.VERSION] passed: the number [v]. *)
Definition check_version (payload : JSValue) : Run spec_float :=
  match prop payload "v" with
  | JNum x => if SFeqb x VERSION then mret x
              else throw (CryptoError UNSUPPORTED_VERSION)
  | _ => throw (CryptoError UNSUPPORTED_VERSION)
  end.

(** [expectedMac !== payload.mac] *)
Definition differs (expectedMac : string) (mac : JSValue) : bool :=
  match mac with
  | JStr s => negb (String.eqb expectedMac s)
  | _ => true
  end.

(** [ALGO_MAP[payload.a] || ALGO_MAP.AES], given the property key
    [payload.a] converts to. *)
Definition select_cipher (k : string) : slot :=
  match ALGO_MAP k with
  | Missing => Cipher AES
  | found => found
  end.

(** The last [try] of [decryptText].  The argument of [cipher.decrypt] is
    evaluated before the call; a [cipher] that has no [decrypt] method
    then makes the call a TypeError. *)
Definition decrypt_payload (cipher : slot) (ct : JSValue)
    (encKey iv : WordArray) : Run string :=
  try_catch
    (ciphertext ← lib Base64_parse_call (Base64_parse ct);
     decrypted ← (match cipher with
                  | Cipher algo =>
                      lib (decrypt_call algo)
                        (cipher_decrypt algo ciphertext encKey iv)
                  | Inherited | Missing => throw NativeError
                  end);
     plainText ← lib Utf8_stringify_call (Utf8_stringify decrypted);
     if String.eqb plainText "" then throw NativeError else mret plainText)
    (throw (CryptoError DECRYPTION_FAILED)).

(** [decryptText(packed, passphrase)] *)
Definition decryptText (packed passphrase : string) : Run string :=
  payload ← parse_payload packed;
  v ← check_version payload;
  salt ← lib Hex_parse_call (Hex_parse (prop payload "s"));
  iv ← lib Hex_parse_call (Hex_parse (prop payload "iv"));
  '(encKey, macKey) ← deriveKeys passphrase salt;
  expectedMac ← calculateMAC
                  [ JStr (Number_toString v); prop payload "a";
                    prop payload "s"; prop payload "iv"; prop payload "ct" ]
                  macKey;
  if differs expectedMac (prop payload "mac")
  then throw (CryptoError INTEGRITY_FAILED)
  else
    k ← ToString (prop payload "a");
    decrypt_payload (select_cipher k) (prop payload "ct") encKey iv.

(** The fields the first [try] of [decryptText] looks at. *)
Definition checked_fields : list string := ["v"; "ct"; "s"; "iv"; "mac"].

(** The string the MAC of a payload with string fields is taken over:
    [v|a|s|iv|ct]. *)
Definition data_to_auth (a s iv ct : string) : string :=
  Number_toString VERSION ++ "|" ++ a ++ "|" ++ s ++ "|" ++ iv ++ "|" ++ ct.

Definition encKey_of (derived : list Z) : WordArray :=
  WordArray_create (take 8 derived).

Definition macKey_of (derived : list Z) : WordArray :=
  WordArray_create (take 8 (drop 8 derived)).

(** The library calls of [decryptText] up to and including the MAC. *)
Definition calls_to_mac : list Call :=
  [JSON_parse_call; Hex_parse_call; Hex_parse_call; PBKDF2_call;
   HmacSHA256_call].

(** What one encryption asks of the platform for its result to be
    decryptable: the derivation, the cipher and the MAC return; nothing
    written into the payload is empty; the parsers invert the printers on
    what was written; and the cipher decrypts what it encrypted. *)
Record sound_run (text passphrase : string) (salt iv : WordArray)
    (derived : list Z) (encrypted : WordArray) (mac : string) : Prop :=
  { run_derives : PBKDF2 passphrase salt = Some derived;
    run_encrypts :
      cipher_encrypt AES text (encKey_of derived) iv = Some encrypted;
    run_signs :
      HmacSHA256
        (data_to_auth "AES" (Hex_stringify salt) (Hex_stringify iv)
           (Base64_stringify encrypted))
        (macKey_of derived) = Some mac;
    run_salt : Hex_stringify salt <> "";
    run_iv : Hex_stringify iv <> "";
    run_ct : Base64_stringify encrypted <> "";
    run_mac : mac <> "";
    run_json :
      JSON_parse
        (JSON_stringify
           (payload_object AES (Hex_stringify salt) (Hex_stringify iv)
              (Base64_stringify encrypted) mac))
      = Some (payload_object AES (Hex_stringify salt) (Hex_stringify iv)
                (Base64_stringify encrypted) mac);
    run_salt_hex : Hex_parse (JStr (Hex_stringify salt)) = Some salt;
    run_iv_hex : Hex_parse (JStr (Hex_stringify iv)) = Some iv;
    run_ct_base64 :
      Base64_parse (JStr (Base64_stringify encrypted)) = Some encrypted;
    run_decrypts :
      exists decrypted,
        cipher_decrypt AES encrypted (encKey_of derived) iv = Some decrypted
        /\ Utf8_stringify decrypted = Some text }.

(** The library calls of a decryption that goes all the way. *)
Definition calls_to_end (algo : CryptoAlgo) : list Call :=
  calls_to_mac ++ [Base64_parse_call; decrypt_call algo; Utf8_stringify_call].
(** How far a run of [decryptText] has gone when it ends in an error of
    the codec, told by the calls it has made: nothing but [JSON.parse];
    everything up to the MAC and no more; or past the MAC into the last
    [try], which starts with the Base64 decoding. *)
Definition stage_of (code : CryptoErrorCode) (made : list Call) : Prop :=
  match code with
  | INVALID_PAYLOAD | UNSUPPORTED_VERSION => made = [JSON_parse_call]
  | INTEGRITY_FAILED => made = calls_to_mac
  | DECRYPTION_FAILED =>
      exists more, made = (calls_to_mac ++ Base64_parse_call :: more)%list
  | MALFORMED_INPUT => False
  end.

(** [sound_run] for a cipher of the caller's choice. *)
Definition sound_run_with (algo : CryptoAlgo) (text passphrase : string)
    (salt iv : WordArray) (derived : list Z) (encrypted : WordArray)
    (mac : string) : Prop :=
  let s := Hex_stringify salt in
  let i := Hex_stringify iv in
  let ct := Base64_stringify encrypted in
  PBKDF2 passphrase salt = Some derived
  /\ cipher_encrypt algo text (encKey_of derived) iv = Some encrypted
  /\ HmacSHA256 (data_to_auth (algo_name algo) s i ct) (macKey_of derived)
     = Some mac
  /\ s <> "" /\ i <> "" /\ ct <> "" /\ mac <> ""
  /\ JSON_parse (JSON_stringify (payload_object algo s i ct mac))
     = Some (payload_object algo s i ct mac)
  /\ Hex_parse (JStr s) = Some salt
  /\ Hex_parse (JStr i) = Some iv
  /\ Base64_parse (JStr ct) = Some encrypted
  /\ exists decrypted,
       cipher_decrypt algo encrypted (encKey_of derived) iv = Some decrypted
       /\ Utf8_stringify decrypted = Some text.
End Codec.

(** *** A platform to run the codec on

    It has the shape of the real one and none of its strength: a word array
    is a string and encodes as itself, the derived words are the character
    codes of passphrase and salt, the MAC is the key followed by the data,
    and a ciphertext is the cipher's name and the key followed by the
    text.  [JSON.parse] knows the documents listed in [documents]. *)
Module Example.
Definition quote : string := String (ascii_of_nat 34) "".

Definition number_text (x : spec_float) : string :=
  if SFeqb x one then "1" else "0".

Fixpoint stringify (v : JSValue) : string :=
  match v with
  | JUndefined => "undefined"
  | JNull => "null"
  | JBool b => if b then "true" else "false"
  | JNum x => number_text x
  | JStr s => quote ++ s ++ quote
  | JArr items => "[" ++ String.concat "," (map stringify items) ++ "]"
  | JObj props =>
      "{" ++ String.concat ","
               (map (λ kv, quote ++ fst kv ++ quote ++ ":" ++ stringify (snd kv))
                  props) ++ "}"
  end.

Definition codes (s : string) : list Z :=
  map (λ c, Z.of_nat (nat_of_ascii c)) (list_ascii_of_string s).

Definition text_of (words : list Z) : string :=
  string_of_list_ascii (map (λ w, ascii_of_nat (Z.to_nat w)) words).

Definition derive (passphrase salt : string) : list Z :=
  take 16 (codes (passphrase ++ salt) ++ replicate 16 0).

Fixpoint strip_prefix (prefix s : string) : option string :=
  match prefix, s with
  | EmptyString, _ => Some s
  | String p prefix', String c s' =>
      if Ascii.eqb p c then strip_prefix prefix' s' else None
  | String _ _, EmptyString => None
  end.

Definition text_value (v : JSValue) : option string :=
  match v with JStr s => Some s | _ => None end.

Definition platform (documents : list JSValue) : Platform :=
  {| WordArray := string;
     JSON_parse := λ packed,
       find (λ d, String.eqb (stringify d) packed) documents;
     JSON_stringify := stringify;
     Number_toString := number_text;
     Object_toString := λ _, None;
     WordArray_create := text_of;
     Hex_parse := text_value;
     Hex_stringify := λ w, w;
     Base64_parse := text_value;
     Base64_stringify := λ w, w;
     PBKDF2 := λ passphrase salt, Some (derive passphrase salt);
     HmacSHA256 := λ data key, Some (key ++ data);
     cipher_encrypt := λ algo text key iv,
       Some (algo_name algo ++ ":" ++ key ++ text);
     cipher_decrypt := λ algo ciphertext key iv,
       strip_prefix (algo_name algo ++ ":" ++ key) ciphertext;
     Utf8_stringify := λ w, Some w |}.

Definition passphrase : string := "correct horse battery".
Definition other_passphrase : string := "correct horse staple".
Definition salt : string := "5a17c0de".
Definition iv : string := "00112233".

(** What [encryptText] makes of a text under [passphrase], as an object. *)
Definition sealed (a : JSValue) (text : string) : JSValue :=
  let encKey := text_of (take 8 (derive passphrase salt)) in
  let macKey := text_of (take 8 (drop 8 (derive passphrase salt))) in
  let ct := "AES:" ++ encKey ++ text in
  let a_text := match a with JStr s => s | _ => "" end in
  let mac := macKey ++ "1|" ++ a_text ++ "|" ++ salt ++ "|" ++ iv ++ "|" ++ ct in
  JObj ((("v", JNum VERSION)
         :: match a with JUndefined => [] | _ => [("a", a)] end)
        ++ [ ("s", JStr salt); ("iv", JStr iv); ("ct", JStr ct);
             ("mac", JStr mac) ]).

(** An object without one of its properties. *)
Definition without (k : string) (v : JSValue) : JSValue :=
  match v with
  | JObj props => JObj (List.filter (λ kv, negb (String.eqb (fst kv) k)) props)
  | _ => v
  end.

Definition documents : list JSValue :=
  [ sealed (JStr "AES") "attack at dawn";
    sealed (JStr "AES") "";
    sealed JUndefined "attack at dawn";
    sealed (JStr "constructor") "attack at dawn";
    sealed (JStr "Blowfish") "attack at dawn";
    without "a" (sealed (JStr "AES") "attack at dawn");
    without "mac" (sealed (JStr "AES") "attack at dawn") ].

Definition example_platform : Platform := platform documents.
End Example.

(** *** More documents for the same platform *)
Module Variants.
Import Example.

(** What [encryptText] makes of a text under [passphrase] with a cipher of
    the caller's choice, as an object. *)
Definition sealed_with (algo : CryptoAlgo) (text : string) : JSValue :=
  let encKey := text_of (take 8 (derive passphrase salt)) in
  let macKey := text_of (take 8 (drop 8 (derive passphrase salt))) in
  let ct := algo_name algo ++ ":" ++ encKey ++ text in
  let mac := macKey ++ "1|" ++ algo_name algo ++ "|" ++ salt ++ "|" ++ iv
             ++ "|" ++ ct in
  payload_object algo salt iv ct mac.

(** An object with another value for its [v]. *)
Definition with_version (v : JSValue) (payload : JSValue) : JSValue :=
  match payload with
  | JObj props =>
      JObj (map (λ kv, if String.eqb (fst kv) "v" then ("v", v) else kv) props)
  | _ => payload
  end.

Definition variant_documents : list JSValue :=
  [ sealed_with AES "attack at dawn";
    sealed_with DES "attack at dawn";
    sealed_with TripleDES "attack at dawn";
    with_version (JStr "1") (sealed_with AES "attack at dawn");
    with_version (JBool true) (sealed_with AES "attack at dawn") ].

Definition variant_platform : Platform := platform variant_documents.
End Variants.

End Clipboard.

(** ** The key helpers of [clipboard.ts] *)
Module KeyStrength.
Local Open Scope string_scope.
Local Open Scope Z_scope.

(** A string, as its UTF-16 code units; the patterns below have no [u]
    flag and test code units. *)
Abbreviation jsstring := (list Z).

(** The code units of a string literal of the source, all ASCII. *)
Definition units (literal : string) : jsstring :=
  map (λ c, Z.of_nat (nat_of_ascii c)) (list_ascii_of_string literal).

(** ['weak' | 'medium' | 'strong'] *)
Inductive Strength := weak | medium | strong.

(** [/[a-z]/], [/[A-Z]/] and [/\d/] on one code unit. *)
Definition is_lower (c : Z) : bool := (0x61 <=? c) && (c <=? 0x7a).
Definition is_upper (c : Z) : bool := (0x41 <=? c) && (c <=? 0x5a).
Definition is_digit (c : Z) : bool := (0x30 <=? c) && (c <=? 0x39).

(** The class of [hasSpec]: the characters between the brackets of the
    pattern, the double quote among them. *)
Definition special : jsstring :=
  units "!@#$%^&*(),.?" ++ [0x22] ++ units ":{}|<>".

Definition is_special (c : Z) : bool := existsb (Z.eqb c) special.

(** [pattern.test(key)] for a pattern that is one character class. *)
Definition test (class : Z -> bool) (key : jsstring) : bool :=
  existsb class key.

(** [checkKeyStrength(key)] *)
Definition checkKeyStrength (key : jsstring) : Strength :=
  if Z.of_nat (length key) <? 8 then weak
  else
    let hasMixed := test is_lower key && test is_upper key in
    let hasNum := test is_digit key in
    let hasSpec := test is_special key in
    let score :=
      Z.of_nat (length (List.filter id
                          [ hasMixed; hasNum; hasSpec;
                            12 <=? Z.of_nat (length key) ])) in
    if 3 <=? score then strong
    else if 1 <=? score then medium
    else weak.

(** [chars] of [generateRandomKey] *)
Definition key_chars : jsstring :=
  units "ABCDEFGHIJKLMNOPQRSTUVWXYZabcdefghijklmnopqrstuvwxyz0123456789!@#$%^&*()-_=+".

(** [generateRandomKey(length)], given [array] as [getRandomValues] has
    filled it, [length] values; an element of a [Uint32Array] is its value
    modulo 2^32.  [getRandomValues] raises (QuotaExceededError) on an array
    of more than 65536 bytes.  [chars[k]] beyond the string would be
    [undefined], which [join] prints as the empty string. *)
Definition generateRandomKey (array : list Z) : option jsstring :=
  if 65536 <? 4 * Z.of_nat (length array) then None
  else
    Some (mjoin ((λ x, option_list
                         (key_chars !! Z.to_nat ((x mod 2 ^ 32)
                                         mod Z.of_nat (length key_chars))))
                 <$> array)).

(** The order of the three ratings. *)
Definition rank (s : Strength) : nat :=
  match s with weak => 0 | medium => 1 | strong => 2 end.

End KeyStrength.


(** * Properties of the diff engine *)
Module TextDiffTheory.
Import TextDiff.

Section LCS.
Context {T : Type} (key : T -> jsstring).
Implicit Types (oldItems newItems : list T) (ops result : list (@DiffOp T)).

Lemma old_side_cons op ops :
  old_side (op :: ops) = old_side [op] ++ old_side ops.
Proof. unfold old_side. simpl. by rewrite app_nil_r. Qed.

Lemma new_side_cons op ops :
  new_side (op :: ops) = new_side [op] ++ new_side ops.
Proof. unfold new_side. simpl. by rewrite app_nil_r. Qed.

Lemma old_side_app ops1 ops2 :
  old_side (ops1 ++ ops2) = old_side ops1 ++ old_side ops2.
Proof. unfold old_side. apply bind_app. Qed.

Lemma new_side_app ops1 ops2 :
  new_side (ops1 ++ ops2) = new_side ops1 ++ new_side ops2.
Proof. unfold new_side. apply bind_app. Qed.

(** Inside the arrays the comparison of keys raises nothing. *)
Lemma same_diff_in_range oldItems newItems i j a b :
  oldItems !! (i - 1)%nat = Some a -> newItems !! (j - 1)%nat = Some b ->
  same_diff key oldItems newItems i j = Some (bool_decide (key a = key b)).
Proof. intros Ha Hb. unfold same_diff. rewrite Ha, Hb. reflexivity. Qed.

Lemma lookup_pred {A} (l : list A) (i : nat) :
  (0 < i <= length l)%nat -> is_Some (l !! (i - 1)%nat).
Proof. intros H. apply lookup_lt_is_Some. lia. Qed.

Lemma for_each_is_Some {A} (inv : A -> Prop) ks (body : A -> nat -> option A) a :
  inv a ->
  (forall a k, inv a -> k ∈ ks -> exists a', body a k = Some a' /\ inv a') ->
  exists a', for_each ks body a = Some a' /\ inv a'.
Proof.
  revert a. induction ks as [|k ks IH]; intros a Ha Hbody; simpl.
  - eauto.
  - destruct (Hbody a k Ha) as (a' & -> & Ha'); [left|]. simpl.
    apply IH; [done|]. intros a0 k0 H0 Hk0. apply Hbody; [done|by right].
Qed.

(** The table is always filled: the loops stay inside both arrays. *)
Lemma fill_table_is_Some oldItems newItems :
  is_Some (fill_table key oldItems newItems).
Proof.
  unfold fill_table.
  destruct (for_each_is_Some (λ _, True) (seq 1 (length oldItems))
              (fill_row key oldItems newItems (length newItems))
              (new_table (length oldItems) (length newItems)))
    as (dp & -> & _); [done| |done].
  intros dp i _ Hi. apply elem_of_seq in Hi. unfold fill_row.
  apply for_each_is_Some; [done|].
  intros dp' j _ Hj. apply elem_of_seq in Hj. unfold fill_cell.
  destruct (lookup_pred oldItems i) as [a Ha]; [lia|].
  destruct (lookup_pred newItems j) as [b Hb]; [lia|].
  rewrite (same_diff_in_range _ _ _ _ _ _ Ha Hb). simpl. eauto.
Qed.

Lemma take_pred {A} (l : list A) (i : nat) x :
  (0 < i)%nat -> l !! (i - 1)%nat = Some x ->
  take i l = take (i - 1) l ++ [x].
Proof.
  intros Hi Hx. replace i with (S (i - 1)) at 1 by lia.
  by apply take_S_r.
Qed.

(** One iteration inside the arrays: it puts one op in front, lowers
    [i + j], and the op accounts for exactly the items given up. *)
Lemma backtrack_step_spec oldItems newItems dp i j result :
  (i <= length oldItems)%nat -> (j <= length newItems)%nat ->
  (0 < i + j)%nat ->
  exists i' j' op,
    backtrack_step key oldItems newItems dp (i, j, result)
      = Some (i', j', op :: result)
    /\ (i' + j' < i + j)%nat
    /\ (i' <= length oldItems)%nat /\ (j' <= length newItems)%nat
    /\ take i oldItems = take i' oldItems ++ old_side [op]
    /\ take j newItems = take j' newItems ++ new_side [op].
Proof.
  intros Hi Hj Hpos. unfold backtrack_step.
  destruct (Nat.ltb_spec 0 i) as [Hi0|Hi0], (Nat.ltb_spec 0 j) as [Hj0|Hj0];
    simpl; try lia.
  - destruct (lookup_pred oldItems i) as [a Ha]; [lia|].
    destruct (lookup_pred newItems j) as [b Hb]; [lia|].
    rewrite (same_diff_in_range _ _ _ _ _ _ Ha Hb). simpl.
    destruct (bool_decide (key a = key b)); [|destruct ((i =? 0)%nat || _)];
      (eexists _, _, _; split; [reflexivity|]); rewrite ?Ha, ?Hb; cbn;
      rewrite ?app_nil_r; repeat split;
      first [lia | done | by apply take_pred].
  - destruct (lookup_pred oldItems i) as [a Ha]; [lia|].
    eexists _, _, _. split; [reflexivity|]. rewrite Ha. cbn.
    rewrite ?app_nil_r. repeat split; first [lia | done | by apply take_pred].
  - destruct (lookup_pred newItems j) as [b Hb]; [lia|].
    assert (i = 0)%nat as -> by lia. simpl.
    eexists _, _, _. split; [reflexivity|]. rewrite Hb. cbn.
    rewrite ?app_nil_r. repeat split; first [lia | done | by apply take_pred].
Qed.

(** The loop, started inside the arrays with an iteration for every item
    left, ends, and what it has put in front of [result] spells the first
    [i] old items and the first [j] new items. *)
Lemma backtrack_complete oldItems newItems dp fuel : forall i j result,
  (i <= length oldItems)%nat -> (j <= length newItems)%nat ->
  (i + j <= fuel)%nat ->
  exists front,
    backtrack key fuel oldItems newItems dp (i, j, result)
      = Some (front ++ result)
    /\ old_side front = take i oldItems
    /\ new_side front = take j newItems.
Proof.
  induction fuel as [|fuel IH]; intros i j result Hi Hj Hfuel.
  - assert (i = 0 /\ j = 0)%nat as [-> ->] by lia. by exists [].
  - destruct (decide (i + j = 0)%nat) as [Hz|Hnz].
    { assert (i = 0 /\ j = 0)%nat as [-> ->] by lia. by exists []. }
    destruct (backtrack_step_spec oldItems newItems dp i j result)
      as (i' & j' & op & Hstep & Hlt & Hi' & Hj' & Hold & Hnew); [lia..|].
    destruct (IH i' j' (op :: result)) as (front & Hrun & Hfo & Hfn); [lia..|].
    exists (front ++ [op]).
    rewrite <- app_assoc, old_side_app, new_side_app, Hfo, Hfn, Hold, Hnew.
    split; [|done].
    cbn [backtrack]. rewrite Hstep. simpl.
    destruct (Nat.ltb_spec 0 i), (Nat.ltb_spec 0 j); simpl; first [done|lia].
Qed.

(** C3.  For every pair of sequences [computeDiff] returns an edit script,
    and the script is complete: the old-side items of its [unchanged] and
    [removed] ops, in order, are the old sequence, and the new-side items
    of its [unchanged] and [added] ops, in order, are the new sequence. *)
Theorem computeDiff_complete oldItems newItems :
  exists ops,
    computeDiff key oldItems newItems = Some ops
    /\ old_side ops = oldItems
    /\ new_side ops = newItems.
Proof.
  unfold computeDiff.
  destruct (fill_table_is_Some oldItems newItems) as [dp ->]. simpl.
  destruct (backtrack_complete oldItems newItems dp
              (length oldItems + length newItems)
              (length oldItems) (length newItems) [])
    as (front & -> & Hold & Hnew); [lia..|].
  exists (front ++ []). rewrite app_nil_r, Hold, Hnew, !firstn_all. done.
Qed.
End LCS.


Section Tokenizer.
Context {U : Unicode} (settings : Settings).

Lemma span_app p s : fst (span p s) ++ snd (span p s) = s.
Proof.
  induction s as [|c s IH]; [done|]. simpl.
  destruct (p c); [|done]. destruct (span p s). simpl in *. by rewrite IH.
Qed.

Lemma span_run p s : forallb p (fst (span p s)) = true.
Proof.
  induction s as [|c s IH]; [done|]. simpl.
  destruct (p c) eqn:Hc; [|done]. destruct (span p s). simpl in *.
  by rewrite Hc, IH.
Qed.

(** A greedy run that starts on a unit of the class takes that unit. *)
Lemma span_head p c s :
  p c = true ->
  exists run, fst (span p (c :: s)) = c :: run
              /\ (length (snd (span p (c :: s))) <= length s)%nat.
Proof.
  intros Hc. simpl. rewrite Hc. destruct (span p s) as [run rest] eqn:Hs.
  exists run. split; [done|]. simpl.
  pose proof (span_app p s) as Happ. rewrite Hs in Happ. simpl in Happ.
  rewrite <- Happ, length_app. lia.
Qed.

Lemma surrogate_pair_astral hi lo :
  is_high_surrogate hi = true -> is_low_surrogate lo = true ->
  0x10000 <= surrogate_pair hi lo.
Proof. unfold is_high_surrogate, is_low_surrogate, surrogate_pair. lia. Qed.

(** Beyond the Basic Multilingual Plane there are no word characters, no
    whitespace and none of the CJK range: only the third alternative
    matches. *)
Lemma astral_classes cp :
  0x10000 <= cp ->
  is_cjk cp = false /\ is_word_or_apostrophe cp = false
  /\ is_space cp = false /\ is_other cp = true.
Proof.
  intros H. unfold is_other, is_word_or_apostrophe, is_cjk, is_word, is_space.
  repeat split; lia.
Qed.

Lemma surrogate_classes c :
  is_high_surrogate c || is_low_surrogate c = true ->
  is_cjk c = false /\ is_word_or_apostrophe c = false /\ is_space c = false.
Proof.
  unfold is_high_surrogate, is_low_surrogate, is_word_or_apostrophe, is_cjk,
    is_word, is_space.
  intros H. repeat split; lia.
Qed.

(** The matches cover the text, in order, and each has one of the four
    shapes. *)
Lemma match_all_spec fuel : forall text,
  (length text <= fuel)%nat ->
  mjoin (match_all fuel text) = text /\ Forall raw_token (match_all fuel text).
Proof.
  induction fuel as [|fuel IH]; intros text Hlen.
  { destruct text; [done|simpl in Hlen; lia]. }
  destruct text as [|c rest]; [done|].
  assert (Hrun : forall p, p c = true ->
            mjoin (fst (span p (c :: rest))
                   :: match_all fuel (snd (span p (c :: rest)))) = c :: rest
            /\ Forall raw_token (match_all fuel (snd (span p (c :: rest))))
            /\ exists run, fst (span p (c :: rest)) = c :: run
                           /\ forallb p (c :: run) = true).
  { intros p Hp. destruct (span_head p c rest Hp) as (run & Hfst & Hsnd).
    destruct (IH (snd (span p (c :: rest)))) as [Hcat Hall];
      [simpl in Hlen; lia|].
    split; [|split; [done|]].
    - cbn [mjoin list_join]. etrans; [|apply (span_app p)]. f_equal. exact Hcat.
    - exists run. split; [done|]. rewrite <- Hfst. apply span_run. }
  assert (Hone : forall units rest', c :: rest = units ++ rest' ->
            (0 < length units)%nat ->
            mjoin (units :: match_all fuel rest') = c :: rest
            /\ Forall raw_token (match_all fuel rest')).
  { intros units rest' Heq Hpos.
    destruct (IH rest') as [Hcat Hall].
    - apply (f_equal length) in Heq. rewrite length_app in Heq.
      simpl in Heq, Hlen. lia.
    - split; [|done]. cbn [mjoin list_join]. rewrite Heq. f_equal. exact Hcat. }
  cbn [match_all next_code_point].
  destruct rest as [|d rest'].
  - (* the last unit *)
    destruct (is_cjk c) eqn:Hcjk.
    { destruct (Hone [c] [] eq_refl) as [? ?]; [simpl; lia|].
      split; [done|]. constructor; [|done]. constructor. by left. }
    destruct (is_word_or_apostrophe c) eqn:Hword.
    { destruct (Hrun _ Hword) as (Hcat & Hall & run & Hfst & Hp).
      destruct (span is_word_or_apostrophe [c]) as [r r'] eqn:Hs.
      simpl in *. subst r. split; [done|]. constructor; [|done].
      by apply raw_word. }
    destruct (is_other c) eqn:Hother.
    { destruct (Hone [c] [] eq_refl) as [? ?]; [simpl; lia|].
      split; [done|]. constructor; [|done]. constructor. by right. }
    destruct (is_space c) eqn:Hspace.
    { destruct (Hrun _ Hspace) as (Hcat & Hall & run & Hfst & Hp).
      destruct (span is_space [c]) as [r r'] eqn:Hs.
      simpl in *. subst r. split; [done|]. constructor; [|done].
      by apply raw_space. }
    exfalso. unfold is_other, is_word_or_apostrophe in *.
    rewrite Hspace, Hcjk in Hother. simpl in Hother.
    destruct (is_word c); simpl in *; congruence.
  - destruct (is_high_surrogate c && is_low_surrogate d) eqn:Hpair.
    + (* a surrogate pair: one code point beyond the BMP *)
      apply andb_true_iff in Hpair as [Hhi Hlo].
      destruct (astral_classes _ (surrogate_pair_astral c d Hhi Hlo))
        as (-> & -> & _ & ->).
      destruct (Hone [c; d] rest' eq_refl) as [? ?]; [simpl; lia|].
      split; [done|]. constructor; [|done]. by apply raw_pair.
    + destruct (is_cjk c) eqn:Hcjk.
      { destruct (Hone [c] (d :: rest') eq_refl) as [? ?]; [simpl; lia|].
        split; [done|]. constructor; [|done]. constructor. by left. }
      destruct (is_word_or_apostrophe c) eqn:Hword.
      { destruct (Hrun _ Hword) as (Hcat & Hall & run & Hfst & Hp).
        destruct (span is_word_or_apostrophe (c :: d :: rest')) as [r r'] eqn:Hs.
        simpl in Hcat, Hall, Hfst. subst r. split; [done|].
        constructor; [|done]. by apply raw_word. }
      destruct (is_other c) eqn:Hother.
      { destruct (Hone [c] (d :: rest') eq_refl) as [? ?]; [simpl; lia|].
        split; [done|]. constructor; [|done]. constructor. by right. }
      destruct (is_space c) eqn:Hspace.
      { destruct (Hrun _ Hspace) as (Hcat & Hall & run & Hfst & Hp).
        destruct (span is_space (c :: d :: rest')) as [r r'] eqn:Hs.
        simpl in Hcat, Hall, Hfst. subst r. split; [done|].
        constructor; [|done]. by apply raw_space. }
      exfalso. unfold is_other, is_word_or_apostrophe in *.
      rewrite Hspace, Hcjk in Hother. simpl in Hother.
      destruct (is_word c); simpl in *; congruence.
Qed.
(** With neither filter active every token is kept. *)
Lemma keep_token_exact t :
  ignorePunctuation settings = false -> ignoreWhitespace settings = false ->
  keep_token settings t = true.
Proof. intros Hp Hw. unfold keep_token. by rewrite Hp, Hw. Qed.

Lemma filter_all {A} (p : A -> bool) (l : list A) :
  (forall x, p x = true) -> filter (λ x, p x = true) l = l.
Proof.
  intros Hp. induction l as [|x l IH]; [done|].
  rewrite filter_cons_True by apply Hp. by rewrite IH.
Qed.

Lemma render_tokens (raws : list jsstring) :
  render <$> ((λ raw, mkToken raw (getDiffKey settings raw)) <$> raws) = raws.
Proof. rewrite <- list_fmap_compose. induction raws; by f_equal/=. Qed.

(** C4.  With ignore-punctuation and ignore-whitespace both off, the
    [render] fields of the tokens of a string, concatenated in order, are
    the string. *)
Theorem tokenize_roundtrip text :
  ignorePunctuation settings = false -> ignoreWhitespace settings = false ->
  mjoin (render <$> tokenize settings text) = text.
Proof.
  intros Hp Hw. unfold tokenize. destruct text as [|c text]; [done|].
  rewrite filter_all by (intros t; by apply keep_token_exact).
  rewrite render_tokens. by apply match_all_spec.
Qed.

(** Units that are no high surrogates are their own code points. *)
Lemma code_points_bmp s :
  forallb (λ c, negb (is_high_surrogate c)) s = true -> code_points s = s.
Proof.
  induction s as [|c s IH]; [done|]. intros H. simpl in H.
  apply andb_true_iff in H as [Hc Hs]. specialize (IH Hs).
  simpl. destruct s as [|d s]; [done|].
  apply negb_true_iff in Hc. rewrite Hc. simpl. f_equal. exact IH.
Qed.

Lemma forallb_impl {A} (p q : A -> bool) (l : list A) :
  (forall x, p x = true -> q x = true) ->
  forallb p l = true -> forallb q l = true.
Proof.
  intros Hpq. induction l as [|x l IH]; [done|]. simpl.
  rewrite !andb_true_iff. intros [? ?]. split; [by apply Hpq|by apply IH].
Qed.

Lemma forallb_elem {A} (p : A -> bool) (l : list A) x :
  forallb p l = true -> x ∈ l -> p x = true.
Proof.
  intros H Hx. rewrite forallb_forall in H. apply H.
  by apply list_elem_of_In.
Qed.

Lemma not_surrogate c :
  is_word_or_apostrophe c = true \/ is_space c = true ->
  negb (is_high_surrogate c) = true.
Proof.
  unfold is_word_or_apostrophe, is_word, is_space, is_high_surrogate. lia.
Qed.

(** In a match, a code point of the third class is the whole match. *)
Lemma raw_token_other t cp :
  raw_token t -> cp ∈ code_points t ->
  is_other cp = true -> is_word_or_apostrophe cp = false ->
  code_points t = [cp].
Proof.
  intros Ht Hcp Hother Hword. destruct Ht as [c _|hi lo Hhi Hlo|c run Hrun|c run Hrun].
  - simpl in *. by apply list_elem_of_singleton in Hcp as ->.
  - simpl in *. rewrite Hhi, Hlo in *. simpl in *.
    by apply list_elem_of_singleton in Hcp as ->.
  - exfalso. rewrite code_points_bmp in Hcp.
    + apply (forallb_elem _ _ _ Hrun) in Hcp. congruence.
    + revert Hrun. apply forallb_impl. intros x Hx. apply not_surrogate. by left.
  - exfalso. rewrite code_points_bmp in Hcp.
    + apply (forallb_elem _ _ _ Hrun) in Hcp. unfold is_other in Hother.
      rewrite Hcp in Hother. discriminate.
    + revert Hrun. apply forallb_impl. intros x Hx. apply not_surrogate. by right.
Qed.

Lemma code_points_app_bmp s r :
  forallb (λ c, negb (is_high_surrogate c)) s = true ->
  code_points (s ++ r) = s ++ code_points r.
Proof.
  induction s as [|c s IH]; [done|]. intros H. simpl in H.
  apply andb_true_iff in H as [Hc Hs]. specialize (IH Hs).
  apply negb_true_iff in Hc. cbn [app code_points].
  destruct (s ++ r) as [|d l] eqn:Hsr.
  - apply app_eq_nil in Hsr as [-> ->]. done.
  - rewrite Hc. cbn [andb]. f_equal. exact IH.
Qed.

Lemma match_all_nil fuel : match_all fuel [] = [].
Proof. by destruct fuel. Qed.

(** A run of word characters or of whitespace is made of whole code
    points. *)
Lemma span_code_points p c rest :
  p c = true ->
  (forall x, p x = true -> negb (is_high_surrogate x) = true) ->
  (0 < length (fst (span p (c :: rest))))%nat
  /\ code_points (c :: rest)
     = code_points (fst (span p (c :: rest)))
       ++ code_points (snd (span p (c :: rest))).
Proof.
  intros Hc Hp. destruct (span_head p c rest Hc) as (run & Hfst & _).
  split; [rewrite Hfst; simpl; lia|].
  pose proof (span_run p (c :: rest)) as Hrun.
  apply (forallb_impl _ _ _ Hp) in Hrun.
  rewrite (code_points_bmp _ Hrun), <- (code_points_app_bmp _ _ Hrun).
  by rewrite span_app.
Qed.

(** One match: it takes at least one unit, and the units it takes are
    whole code points of the text. *)
Lemma match_all_step fuel c rest :
  exists units rest',
    match_all (S fuel) (c :: rest) = units :: match_all fuel rest'
    /\ c :: rest = units ++ rest'
    /\ (0 < length units)%nat
    /\ code_points (c :: rest) = code_points units ++ code_points rest'.
Proof.
  assert (Hrun : forall p, p c = true ->
            (forall x, p x = true -> negb (is_high_surrogate x) = true) ->
            exists units rest',
              (let '(run, rest') := span p (c :: rest) in
               run :: match_all fuel rest') = units :: match_all fuel rest'
              /\ c :: rest = units ++ rest'
              /\ (0 < length units)%nat
              /\ code_points (c :: rest)
                 = code_points units ++ code_points rest').
  { intros p Hc Hp. destruct (span_code_points p c rest Hc Hp) as [Hpos Hcp].
    pose proof (span_app p (c :: rest)) as Happ.
    destruct (span p (c :: rest)) as [run rest']. by exists run, rest'. }
  assert (Hword : forall x, is_word_or_apostrophe x = true ->
                    negb (is_high_surrogate x) = true)
    by (intros x Hx; apply not_surrogate; by left).
  assert (Hspace : forall x, is_space x = true ->
                     negb (is_high_surrogate x) = true)
    by (intros x Hx; apply not_surrogate; by right).
  cbn [match_all next_code_point].
  destruct rest as [|d rest'].
  - destruct (is_cjk c) eqn:Hcjk; [exists [c], []; split; [done|]; split; [done|]; split; [simpl; lia|done]|].
    destruct (is_word_or_apostrophe c) eqn:Hw; [by apply Hrun|].
    destruct (is_other c) eqn:Hother; [exists [c], []; split; [done|]; split; [done|]; split; [simpl; lia|done]|].
    destruct (is_space c) eqn:Hs; [by apply Hrun|].
    exfalso. unfold is_other, is_word_or_apostrophe in *.
    rewrite Hs, Hcjk in Hother. simpl in Hother.
    destruct (is_word c); simpl in *; congruence.
  - destruct (is_high_surrogate c && is_low_surrogate d) eqn:Hpair.
    + apply andb_true_iff in Hpair as [Hhi Hlo].
      destruct (astral_classes _ (surrogate_pair_astral c d Hhi Hlo))
        as (-> & -> & _ & ->).
      exists [c; d], rest'. split; [done|]. split; [done|]. split; [simpl; lia|].
      cbn [code_points app]. by rewrite Hhi, Hlo.
    + assert (code_points (c :: d :: rest')
              = code_points [c] ++ code_points (d :: rest')) as Hcut
        by (cbn [code_points app]; by rewrite Hpair).
      destruct (is_cjk c) eqn:Hcjk;
        [exists [c], (d :: rest'); split; [done|]; split; [done|]; split; [simpl; lia|done]|].
      destruct (is_word_or_apostrophe c) eqn:Hw; [by apply Hrun|].
      destruct (is_other c) eqn:Hother;
        [exists [c], (d :: rest'); split; [done|]; split; [done|]; split; [simpl; lia|done]|].
      destruct (is_space c) eqn:Hs; [by apply Hrun|].
      exfalso. unfold is_other, is_word_or_apostrophe in *.
      rewrite Hs, Hcjk in Hother. simpl in Hother.
      destruct (is_word c); simpl in *; congruence.
Qed.

(** The matches cover the text code point by code point: no match ends
    inside a surrogate pair. *)
Lemma match_all_code_points fuel : forall text,
  (length text <= fuel)%nat ->
  code_points text = match_all fuel text ≫= code_points.
Proof.
  induction fuel as [|fuel IH]; intros text Hlen.
  { destruct text; [done|simpl in Hlen; lia]. }
  destruct text as [|c rest]; [done|].
  destruct (match_all_step fuel c rest)
    as (units & rest' & -> & Heq & Hpos & ->).
  cbn [mbind list_bind]. f_equal. apply IH.
  apply (f_equal length) in Heq. rewrite length_app in Heq.
  simpl in Heq, Hlen. lia.
Qed.

(** What the two filters of [tokenize] see in a match that is one code
    point of the third class. *)
Lemma raw_token_other_filters raw cp :
  raw_token raw -> code_points raw = [cp] ->
  is_other cp = true -> is_word_or_apostrophe cp = false ->
  all_whitespace raw = false /\ all_punctuation raw = isPunctOrSymbol cp.
Proof.
  intros Hraw Hcp Hother Hword. split.
  - assert (is_space cp = false) as Hspace
      by (unfold is_other in Hother; by destruct (is_space cp)).
    destruct Hraw as [c _|hi lo Hhi Hlo|c run Hrun|c run Hrun].
    + injection Hcp as ->. simpl. by rewrite Hspace.
    + simpl. destruct (surrogate_classes hi) as (_ & _ & ->); [|done].
      by rewrite Hhi.
    + exfalso. rewrite code_points_bmp in Hcp.
      * injection Hcp as -> ->. simpl in Hrun. rewrite Hword in Hrun. done.
      * revert Hrun. apply forallb_impl. intros x Hx. apply not_surrogate.
        by left.
    + exfalso. rewrite code_points_bmp in Hcp.
      * injection Hcp as -> ->. simpl in Hrun. rewrite Hspace in Hrun. done.
      * revert Hrun. apply forallb_impl. intros x Hx. apply not_surrogate.
        by right.
  - unfold all_punctuation. rewrite Hcp. simpl. apply andb_true_r.
Qed.

(** C8, as the code has it.  The matches of the pattern cover the input,
    unit by unit and code point by code point, so no character is skipped,
    and the tokens are the matches the two filters keep, in their order.
    A code point that is neither whitespace, nor a word character or an
    apostrophe, nor in the CJK range is a match by itself: punctuation is
    matched one character per token, not one run per token.  That token is
    emitted unless ignore-punctuation is on and the code point is of
    category P or S, when the filter drops it. *)
Theorem tokenize_punctuation_single text :
  let raws := match_all (length text) text in
  mjoin raws = text
  /\ code_points text = raws ≫= code_points
  /\ tokenize settings text
     = filter (λ t, keep_token settings t = true)
         ((λ raw, mkToken raw (getDiffKey settings raw)) <$> raws)
  /\ forall raw cp,
       raw ∈ raws -> cp ∈ code_points raw ->
       is_other cp = true -> is_word_or_apostrophe cp = false ->
       code_points raw = [cp]
       /\ (mkToken raw (getDiffKey settings raw) ∈ tokenize settings text
           <-> ignorePunctuation settings && isPunctOrSymbol cp = false).
Proof.
  intros raws.
  destruct (match_all_spec (length text) text) as [Hcat Hall]; [done|].
  assert (tokenize settings text
          = filter (λ t, keep_token settings t = true)
              ((λ raw, mkToken raw (getDiffKey settings raw)) <$> raws))
    as Htokens by (by destruct text).
  split; [exact Hcat|]. split; [by apply match_all_code_points|].
  split; [exact Htokens|].
  intros raw cp Hraw Hcp Hother Hword.
  rewrite Forall_forall in Hall. specialize (Hall raw Hraw).
  pose proof (raw_token_other raw cp Hall Hcp Hother Hword) as Hsingle.
  destruct (raw_token_other_filters raw cp Hall Hsingle Hother Hword)
    as [Hspace Hpunct].
  split; [exact Hsingle|].
  rewrite Htokens, list_elem_of_filter. unfold keep_token. cbn [render].
  rewrite Hspace, Hpunct, andb_false_r. split.
  - intros [Hkeep _].
    by destruct (ignorePunctuation settings && isPunctOrSymbol cp).
  - intros ->. split; [done|].
    apply list_elem_of_fmap. by exists raw.
Qed.
End Tokenizer.

(** The string [don't !!] under the exact settings. *)
Lemma tokenize_roundtrip_witness :
  mjoin (render <$> tokenize (U := basic_latin) exact_settings
                      [100; 111; 110; 39; 116; 32; 33; 33])
  = [100; 111; 110; 39; 116; 32; 33; 33].
Proof.
  apply (tokenize_roundtrip (U := basic_latin) exact_settings); reflexivity.
Defined.

(** A line with words, punctuation, CJK characters, an emoji (one code point,
    two units) and a run of two exclamation marks. *)
Example tokenize_mixed :
  render <$> tokenize (U := basic_latin) exact_settings
               [84; 104; 101; 32; 113; 117; 105; 99; 107; 44; 32; 0x4e2d;
                0x6587; 0xd83d; 0xde00; 33; 33]
  = [[84; 104; 101]; [32]; [113; 117; 105; 99; 107]; [44]; [32]; [0x4e2d];
     [0x6587]; [0xd83d; 0xde00]; [33]; [33]].
Proof. reflexivity. Qed.

(** C8 as stated fails: [!!] is one maximal run of punctuation, and it is
    emitted as two tokens. *)
Lemma tokenize_punctuation_run_counterexample :
  forallb is_other [33; 33] = true
  /\ render <$> tokenize (U := basic_latin) exact_settings [33; 33]
     = [[33]; [33]].
Proof. split; reflexivity. Qed.

(** The text [a!!]: with the filters off each exclamation mark is a token,
    with ignore-punctuation on it is dropped. *)
Lemma tokenize_punctuation_single_witness :
  mkToken [33] [33] ∈ tokenize (U := basic_latin) exact_settings [97; 33; 33]
  /\ ~ mkToken [33] []
        ∈ tokenize (U := basic_latin) (mkSettings false true false)
            [97; 33; 33].
Proof.
  split.
  - pose proof (tokenize_punctuation_single (U := basic_latin) exact_settings
                  [97; 33; 33]) as H.
    cbv zeta in H. destruct H as (_ & _ & _ & H).
    destruct (H [33] 33) as [_ Hemit];
      [vm_compute; right; left|left|reflexivity|reflexivity|].
    exact (proj2 Hemit eq_refl).
  - pose proof (tokenize_punctuation_single (U := basic_latin)
                  (mkSettings false true false) [97; 33; 33]) as H.
    cbv zeta in H. destruct H as (_ & _ & _ & H).
    destruct (H [33] 33) as [_ Hemit];
      [vm_compute; right; left|left|reflexivity|reflexivity|].
    intros Hin. discriminate (proj1 Hemit Hin).
Defined.

Section DiffKey.
Context {U : Unicode} (settings : Settings).

Lemma span_all p s : forallb p s = true -> span p s = (s, []).
Proof.
  induction s as [|c s IH]; [done|]. simpl. intros H.
  apply andb_true_iff in H as [-> Hs]. by rewrite (IH Hs).
Qed.

(** What is left after the leading whitespace starts on something else. *)
Lemma trim_start_head s c :
  head (trim_start s) = Some c -> is_space c = false.
Proof.
  unfold trim_start. induction s as [|x s IH]; [done|]. simpl.
  destruct (is_space x) eqn:Hx.
  - destruct (span is_space s). exact IH.
  - simpl. by intros [= <-].
Qed.

Lemma trim_start_suffix s : exists run, s = run ++ trim_start s.
Proof.
  exists (fst (span is_space s)). symmetry. apply span_app.
Qed.

Lemma trim_head s c : head (trim s) = Some c -> is_space c = false.
Proof.
  unfold trim. rewrite head_reverse.
  destruct (trim_start_suffix (reverse (trim_start s))) as [run Hrun].
  intros Hlast. apply (trim_start_head s).
  rewrite <- last_reverse, Hrun, last_app, Hlast. done.
Qed.

Lemma trim_last s c : last (trim s) = Some c -> is_space c = false.
Proof. unfold trim. rewrite last_reverse. apply trim_start_head. Qed.

Lemma trim_whitespace s : forallb is_space s = true -> trim s = [].
Proof.
  intros H. unfold trim, trim_start. by rewrite (span_all _ _ H).
Qed.

(** Width folding keeps whitespace whitespace. *)
Lemma fold_space c :
  is_space c = true ->
  is_space (fold_ideographic_space (fold_fullwidth c)) = true.
Proof.
  intros Hc. unfold fold_fullwidth.
  destruct ((0xff01 <=? c) && (c <=? 0xff5e)) eqn:Hfull.
  - exfalso. unfold is_space in Hc. lia.
  - unfold fold_ideographic_space. by destruct (c =? 0x3000).
Qed.

Lemma fold_whitespace s :
  forallb is_space s = true ->
  forallb is_space (fold_ideographic_space <$> (fold_fullwidth <$> s)) = true.
Proof.
  induction s as [|c s IH]; [done|]. simpl. rewrite !andb_true_iff.
  intros [Hc Hs]. split; [by apply fold_space|by apply IH].
Qed.

(** Stripping punctuation only removes units. *)
Lemma strip_punctuation_forallb p n : forall s,
  (length s <= n)%nat ->
  forallb p s = true -> forallb p (strip_punctuation s) = true.
Proof.
  induction n as [|n IH]; intros s Hlen Hs.
  { destruct s; [done|simpl in Hlen; lia]. }
  destruct s as [|c [|d s]]; [done| |].
  - simpl in *. by destruct (isPunctOrSymbol c).
  - cbn [forallb] in Hs. apply andb_true_iff in Hs as [Hc Hds].
    pose proof Hds as Hds'. cbn [forallb] in Hds'.
    apply andb_true_iff in Hds' as [Hd Hs].
    assert (forallb p (strip_punctuation s) = true) as IHs
      by (apply IH; [simpl in Hlen; lia|done]).
    assert (forallb p (strip_punctuation (d :: s)) = true) as IHds
      by (apply IH; [simpl in *; lia|exact Hds]).
    change (strip_punctuation (c :: d :: s))
      with (if is_high_surrogate c && is_low_surrogate d
            then if isPunctOrSymbol (surrogate_pair c d)
                 then strip_punctuation s
                 else c :: d :: strip_punctuation s
            else if isPunctOrSymbol c then strip_punctuation (d :: s)
                 else c :: strip_punctuation (d :: s)).
    destruct (is_high_surrogate c && is_low_surrogate d).
    + destruct (isPunctOrSymbol _); [done|]. cbn [forallb].
      by rewrite Hc, Hd, IHs.
    + destruct (isPunctOrSymbol c); [done|]. cbn [forallb].
      by rewrite Hc, IHds.
Qed.

(** C7, as the code has it.  With ignore-whitespace off the key is
    trimmed at both ends.  For a whitespace-run token that is all of it:
    its key is empty, whatever the length of the run, so a token of two
    spaces and a token of one space have the same key.  No key starts or
    ends with whitespace. *)
Theorem whitespace_token_key str :
  ignoreWhitespace settings = false ->
  forallb is_space str = true ->
  (ignoreCase settings = true ->
   forallb is_space
     (toLowerCase (fold_ideographic_space <$> (fold_fullwidth <$> str))) = true) ->
  getDiffKey settings str = []
  /\ forall other c,
       (head (getDiffKey settings other) = Some c -> is_space c = false)
       /\ (last (getDiffKey settings other) = Some c -> is_space c = false).
Proof.
  intros Hws Hrun Hlower. split.
  - unfold getDiffKey. rewrite Hws. apply trim_whitespace.
    assert (forallb is_space
              (if ignoreCase settings
               then toLowerCase (fold_ideographic_space <$> (fold_fullwidth <$> str))
               else fold_ideographic_space <$> (fold_fullwidth <$> str)) = true)
      as Hcased.
    { destruct (ignoreCase settings); [by apply Hlower|by apply fold_whitespace]. }
    destruct (ignorePunctuation settings); [|done].
    by eapply strip_punctuation_forallb.
  - intros other c. unfold getDiffKey. rewrite Hws.
    split; [apply trim_head|apply trim_last].
Qed.
End DiffKey.

(** A run of two spaces, with case and punctuation ignored. *)
Lemma whitespace_token_key_witness :
  getDiffKey (U := basic_latin) (mkSettings true true false) [32; 32] = [].
Proof.
  apply (whitespace_token_key (U := basic_latin) (mkSettings true true false)
           [32; 32]);
    [reflexivity | reflexivity | intros _; reflexivity].
Defined.

(** C7 as stated fails: whatever the other two settings, a token of two
    spaces and a token of one space have the same key, the empty string. *)
Lemma whitespace_key_counterexample :
  Forall (λ settings,
            ignoreWhitespace settings = false
            /\ getDiffKey (U := basic_latin) settings [32; 32] = []
            /\ getDiffKey (U := basic_latin) settings [32] = [])
    [ mkSettings false false false; mkSettings true false false;
      mkSettings false true false; mkSettings true true false ].
Proof. repeat constructor. Qed.

(** Whitespace between two other characters is part of the key: the lines
    [a  b] and [a b] differ, and the surrounding whitespace of [ a b ] is
    gone. *)
Example interior_whitespace_kept :
  getDiffKey (U := basic_latin) exact_settings [97; 32; 32; 98] = [97; 32; 32; 98]
  /\ getDiffKey (U := basic_latin) exact_settings [32; 97; 32; 98; 32] = [97; 32; 98].
Proof. split; reflexivity. Qed.

(** ** More on [computeDiff] *)
(** ** The tokenizer and the key under every setting *)
Section Normalization.
Context {U : Unicode} (settings : Settings).

Lemma raw_token_nonempty raw : raw_token raw -> raw <> [].
Proof. by destruct 1. Qed.

Lemma kept_sublist (raws : list jsstring) :
  mjoin (render <$> filter (λ t, keep_token settings t = true)
                      ((λ raw, mkToken raw (getDiffKey settings raw)) <$> raws))
  `sublist_of` mjoin raws.
Proof.
  induction raws as [|raw raws IH]; [done|].
  cbn [fmap list_fmap]. rewrite filter_cons.
  destruct (decide _); cbn [fmap list_fmap mjoin list_join render].
  - by apply sublist_app.
  - by apply sublist_inserts_l.
Qed.

(** X1.  Whatever the settings, the tokens are pieces of the text in their
    order (dropping tokens is all the flags do to the renders), no token
    is empty, every token carries the key of its own text, and with
    ignore-whitespace or ignore-punctuation on no token is left that is
    all whitespace or all punctuation. *)
Theorem tokenize_pieces text :
  mjoin (render <$> tokenize settings text) `sublist_of` text
  /\ Forall (λ t,
               render t <> []
               /\ diff t = getDiffKey settings (render t)
               /\ (ignoreWhitespace settings = true ->
                   all_whitespace (render t) = false)
               /\ (ignorePunctuation settings = true ->
                   all_punctuation (render t) = false))
       (tokenize settings text).
Proof.
  destruct text as [|c text]; [split; [done|constructor]|].
  unfold tokenize.
  destruct (match_all_spec (length (c :: text)) (c :: text)) as [Hcat Hraw];
    [done|].
  split.
  - pose proof (kept_sublist (match_all (length (c :: text)) (c :: text)))
      as Hsub.
    by rewrite Hcat in Hsub.
  - apply Forall_forall. intros t Ht.
    apply list_elem_of_filter in Ht as [Hkeep Ht].
    apply list_elem_of_fmap in Ht as (raw & -> & Hin).
    rewrite Forall_forall in Hraw. cbn [render diff].
    split; [by apply raw_token_nonempty, Hraw|]. split; [done|].
    unfold keep_token in Hkeep. cbn [render] in Hkeep.
    split; intros Hflag; rewrite Hflag in Hkeep.
    + destruct (ignorePunctuation settings && all_punctuation raw); [done|].
      by destruct (all_whitespace raw).
    + by destruct (all_punctuation raw).
Qed.

Lemma fold_fullwidth_idempotent c :
  fold_fullwidth (fold_fullwidth c) = fold_fullwidth c.
Proof.
  unfold fold_fullwidth.
  destruct ((0xff01 <=? c) && (c <=? 0xff5e)) eqn:Hc; [|by rewrite Hc].
  assert ((0xff01 <=? c - 0xfee0) && (c - 0xfee0 <=? 0xff5e) = false) as ->
    by lia.
  done.
Qed.

Lemma fold_halfwidth c :
  fold_ideographic_space
    (fold_fullwidth (fold_ideographic_space (fold_fullwidth c)))
  = fold_ideographic_space (fold_fullwidth c).
Proof.
  destruct (Z.eqb_spec (fold_fullwidth c) 0x3000) as [Heq|Hne].
  - rewrite Heq. reflexivity.
  - unfold fold_ideographic_space at 2.
    destruct (Z.eqb_spec (fold_fullwidth c) 0x3000) as [|_]; [done|].
    by rewrite fold_fullwidth_idempotent.
Qed.

(** X2.  The key does not tell a full-width character from its half-width
    form, nor an ideographic space from a space: under every setting, a
    text and its half-width form have the same key. *)
Theorem getDiffKey_halfwidth str :
  getDiffKey settings (fold_ideographic_space <$> (fold_fullwidth <$> str))
  = getDiffKey settings str.
Proof.
  unfold getDiffKey.
  assert (fold_ideographic_space <$>
            (fold_fullwidth <$>
               (fold_ideographic_space <$> (fold_fullwidth <$> str)))
          = fold_ideographic_space <$> (fold_fullwidth <$> str)) as ->; [|done].
  induction str as [|c str IH]; [done|].
  cbn [fmap list_fmap]. f_equal; [apply fold_halfwidth|exact IH].
Qed.
End Normalization.

(** ** The lines of a text *)
Section Lines.

Lemma join_lines_cons line next lines :
  join_lines (line :: next :: lines)
  = line ++ 0x0a :: join_lines (next :: lines).
Proof. done. Qed.

Lemma split_lines_nil :
  split_lines [] <> []
  /\ Forall (λ line, 0x0a ∉ line) (split_lines [])
  /\ length (split_lines []) = S (length (filter (λ c, c = 0x0a) []))
  /\ (0x0d ∉ [] -> join_lines (split_lines []) = []).
Proof.
  split; [done|]. split; [|done].
  constructor; [apply not_elem_of_nil|constructor].
Qed.

Lemma split_lines_spec n : forall text,
  (length text <= n)%nat ->
  split_lines text <> []
  /\ Forall (λ line, 0x0a ∉ line) (split_lines text)
  /\ length (split_lines text) = S (length (filter (λ c, c = 0x0a) text))
  /\ (0x0d ∉ text -> join_lines (split_lines text) = text).
Proof.
  induction n as [|n IH]; intros text Hn.
  { destruct text; [apply split_lines_nil|simpl in Hn; lia]. }
  destruct text as [|c rest]; [apply split_lines_nil|].
  cbn [split_lines]. rewrite filter_cons.
  destruct (Z.eqb_spec c 0x0a) as [->|Hc].
  - destruct (IH rest) as (Hne & Hall & Hlen & Hjoin); [simpl in Hn; lia|].
    rewrite decide_True by done.
    split; [done|]. split; [constructor; [apply not_elem_of_nil|done]|].
    split; [simpl; by rewrite Hlen|].
    intros Hcr. destruct (split_lines rest) as [|line lines] eqn:Hrest; [done|].
    rewrite join_lines_cons, Hjoin; [done|].
    intros Hin. apply Hcr. by right.
  - rewrite decide_False by done.
    destruct rest as [|d rest'].
    { split; [done|]. split; [|done].
      constructor; [|constructor].
      by intros [?|?%elem_of_nil]%elem_of_cons. }
    destruct (Z.eqb_spec c 0x0d) as [->|Hcr]; cbn [andb].
    + destruct (Z.eqb_spec d 0x0a) as [->|Hd].
      * destruct (IH rest') as (Hne & Hall & Hlen & _); [simpl in Hn; lia|].
        rewrite filter_cons, decide_True by done.
        split; [done|]. split; [constructor; [apply not_elem_of_nil|done]|].
        split; [simpl; by rewrite Hlen|].
        intros Hno. destruct Hno. left.
      * destruct (IH (d :: rest')) as (Hne & Hall & Hlen & _);
          [simpl in Hn |- *; lia|].
        destruct (split_lines (d :: rest')) as [|line lines]; [done|].
        apply Forall_cons in Hall as [Hline Hall].
        split; [done|]. split.
        { constructor; [|done]. by intros [?|?]%elem_of_cons. }
        split; [exact Hlen|]. intros Hno. destruct Hno. left.
    + destruct (IH (d :: rest')) as (Hne & Hall & Hlen & Hjoin);
        [simpl in Hn |- *; lia|].
      destruct (split_lines (d :: rest')) as [|line lines]; [done|].
      apply Forall_cons in Hall as [Hline Hall].
      split; [done|]. split.
      { constructor; [|done]. by intros [?|?]%elem_of_cons. }
      split; [exact Hlen|]. intros Hno.
      rewrite <- Hjoin by (intros Hin; apply Hno; by right).
      by destruct lines.
Qed.

(** X3.  [split(/\r?\n/)]: no line holds a line feed, there is one line more
    than there are line feeds in the text, and for a text without carriage
    returns the lines, joined by line feeds, are the text. *)
Theorem split_lines_lines text :
  Forall (λ line, 0x0a ∉ line) (split_lines text)
  /\ length (split_lines text) = S (length (filter (λ c, c = 0x0a) text))
  /\ (0x0d ∉ text -> join_lines (split_lines text) = text).
Proof.
  destruct (split_lines_spec (length text) text) as (_ & H); [done|exact H].
Qed.
End Lines.

Section Scripts.
Context {T : Type} (key : T -> jsstring).
Implicit Types (oldItems newItems : list T) (ops result : list (@DiffOp T)).

(** The op an iteration inside the arrays emits is well formed. *)
Lemma backtrack_step_shape oldItems newItems dp i j result st' :
  (i <= length oldItems)%nat -> (j <= length newItems)%nat ->
  backtrack_step key oldItems newItems dp (i, j, result) = Some st' ->
  (0 < i + j)%nat ->
  exists i' j' op,
    st' = (i', j', op :: result) /\ well_formed_op key op
    /\ (i' <= i)%nat /\ (j' <= j)%nat /\ (i' + j' < i + j)%nat.
Proof.
  intros Hi Hj Hstep Hpos. unfold backtrack_step in Hstep.
  destruct (Nat.ltb_spec 0 i) as [Hi0|Hi0], (Nat.ltb_spec 0 j) as [Hj0|Hj0];
    simpl in Hstep; try lia.
  - destruct (lookup_pred oldItems i) as [a Ha]; [lia|].
    destruct (lookup_pred newItems j) as [b Hb]; [lia|].
    rewrite (same_diff_in_range _ _ _ _ _ _ _ Ha Hb), Ha, Hb in Hstep.
    simpl in Hstep.
    destruct (bool_decide_reflect (key a = key b)) as [Hkey|Hkey];
      [|destruct ((i =? 0)%nat || _)]; injection Hstep as <-;
      eexists _, _, _; (split; [reflexivity|]); (split; [|lia]);
      unfold well_formed_op; cbn; eauto 6.
  - destruct (lookup_pred oldItems i) as [a Ha]; [lia|].
    rewrite Ha in Hstep. injection Hstep as <-.
    eexists _, _, _. split; [reflexivity|]. split; [|lia].
    unfold well_formed_op; cbn; eauto.
  - destruct (lookup_pred newItems j) as [b Hb]; [lia|].
    assert (i = 0)%nat as -> by lia. simpl in Hstep.
    rewrite Hb in Hstep. injection Hstep as <-.
    eexists _, _, _. split; [reflexivity|]. split; [|lia].
    unfold well_formed_op; cbn; eauto.
Qed.

Lemma backtrack_shape oldItems newItems dp fuel : forall i j result ops,
  (i <= length oldItems)%nat -> (j <= length newItems)%nat ->
  Forall (well_formed_op key) result ->
  backtrack key fuel oldItems newItems dp (i, j, result) = Some ops ->
  Forall (well_formed_op key) ops.
Proof.
  induction fuel as [|fuel IH]; intros i j result ops Hi Hj Hres Hrun;
    cbn [backtrack] in Hrun.
  - destruct ((0 <? i)%nat || (0 <? j)%nat); [done|]. by injection Hrun as <-.
  - destruct ((0 <? i)%nat || (0 <? j)%nat) eqn:Hloop;
      [|by injection Hrun as <-].
    destruct (backtrack_step key oldItems newItems dp (i, j, result))
      as [st'|] eqn:Hstep; [|done]. simpl in Hrun.
    destruct (backtrack_step_shape _ _ _ _ _ _ _ Hi Hj Hstep)
      as (i' & j' & op & -> & Hop & Hi' & Hj' & _).
    { apply orb_true_iff in Hloop as [H|H]; apply Nat.ltb_lt in H; lia. }
    eapply IH; [| |by constructor|done]; lia.
Qed.

Lemma computeDiff_shape oldItems newItems ops :
  computeDiff key oldItems newItems = Some ops ->
  Forall (well_formed_op key) ops.
Proof.
  unfold computeDiff. intros H.
  destruct (fill_table key oldItems newItems) as [dp|]; [|done]. simpl in H.
  by eapply backtrack_shape in H.
Qed.

Lemma computeDiff_returns oldItems newItems :
  is_Some (computeDiff key oldItems newItems).
Proof.
  unfold computeDiff.
  destruct (fill_table_is_Some key oldItems newItems) as [dp ->]. simpl.
  destruct (backtrack_complete key oldItems newItems dp
              (length oldItems + length newItems)
              (length oldItems) (length newItems) [])
    as (front & -> & _); [lia..|]. done.
Qed.

(** X4.  Every op of the script of [computeDiff] is well formed: the callers'
    [oldItem!] and [newItem!] never meet [undefined], and what an
    [unchanged] op pairs has equal keys. *)
Theorem computeDiff_well_formed oldItems newItems :
  exists ops,
    computeDiff key oldItems newItems = Some ops
    /\ Forall (well_formed_op key) ops.
Proof.
  destruct (computeDiff_returns oldItems newItems) as [ops Hops].
  exists ops. split; [done|]. by eapply computeDiff_shape.
Qed.

Lemma side_lengths ops :
  Forall (well_formed_op key) ops ->
  (length (old_side ops) + length (new_side ops)
   = length ops + count_unchanged ops)%nat
  /\ (length (old_side ops) <= length ops)%nat
  /\ (length (new_side ops) <= length ops)%nat.
Proof.
  induction 1 as [|op ops Hop _ IH]; [done|].
  rewrite old_side_cons, new_side_cons, !length_app.
  unfold count_unchanged in *. cbn [List.filter].
  unfold well_formed_op in Hop. unfold is_unchanged at 1.
  unfold old_side at 1 3, new_side at 1 3.
  destruct op as [[] o n]; cbn in *.
  - destruct Hop as [-> (b & ->)]. cbn.
    rewrite bool_decide_eq_false_2 by done. cbn. lia.
  - destruct Hop as [(a & ->) ->]. cbn.
    rewrite bool_decide_eq_false_2 by done. cbn. lia.
  - destruct Hop as (a & b & -> & -> & _). cbn.
    rewrite bool_decide_eq_true_2 by done. cbn. lia.
Qed.

(** The sides of whatever script [computeDiff] returns. *)
Lemma computeDiff_sides oldItems newItems ops :
  computeDiff key oldItems newItems = Some ops ->
  old_side ops = oldItems /\ new_side ops = newItems.
Proof.
  unfold computeDiff. intros H.
  destruct (fill_table key oldItems newItems) as [dp|]; [|done]. simpl in H.
  destruct (backtrack_complete key oldItems newItems dp
              (length oldItems + length newItems)
              (length oldItems) (length newItems) [])
    as (front & Hrun & Hold & Hnew); [lia..|].
  rewrite Hrun in H. injection H as <-.
  by rewrite app_nil_r, Hold, Hnew, !firstn_all.
Qed.

(** X5.  The script is at least as long as the longer sequence and at most as
    long as both together; what it saves on the latter is one op per
    [unchanged] pair. *)
Theorem computeDiff_length oldItems newItems :
  exists ops,
    computeDiff key oldItems newItems = Some ops
    /\ (length ops + count_unchanged ops
        = length oldItems + length newItems)%nat
    /\ (Nat.max (length oldItems) (length newItems) <= length ops)%nat
    /\ (length ops <= length oldItems + length newItems)%nat.
Proof.
  destruct (computeDiff_returns oldItems newItems) as [ops Hops].
  exists ops. split; [done|].
  pose proof (computeDiff_shape _ _ _ Hops) as Hwf.
  destruct (computeDiff_sides _ _ _ Hops) as [Hold Hnew].
  destruct (side_lengths ops Hwf) as (Hsum & Ho & Hn).
  rewrite Hold, Hnew in *. lia.
Qed.

Lemma backtrack_equal_keys oldItems newItems dp fuel :
  key <$> oldItems = key <$> newItems ->
  forall i result,
  (i <= length oldItems)%nat -> (i <= fuel)%nat ->
  backtrack key fuel oldItems newItems dp (i, i, result)
  = Some (paired (take i oldItems) (take i newItems) ++ result).
Proof.
  intros Hkeys.
  assert (length newItems = length oldItems) as Hlen.
  { by rewrite <- (length_fmap key newItems), <- Hkeys, length_fmap. }
  induction fuel as [|fuel IH]; intros i result Hi Hfuel.
  - assert (i = 0)%nat as -> by lia. done.
  - destruct i as [|i]; [done|]. cbn [backtrack]. cbn [Nat.ltb Nat.leb orb].
    destruct (lookup_pred oldItems (S i)) as [a Ha]; [lia|].
    destruct (lookup_pred newItems (S i)) as [b Hb]; [lia|].
    assert (key a = key b) as Hab.
    { assert ((key <$> oldItems) !! (S i - 1)%nat = Some (key a)) as H
        by (by rewrite list_lookup_fmap, Ha).
      rewrite Hkeys, list_lookup_fmap, Hb in H. by injection H. }
    unfold backtrack_step. cbn [Nat.ltb Nat.leb andb].
    rewrite (same_diff_in_range _ _ _ _ _ _ _ Ha Hb), Ha, Hb. simpl.
    rewrite bool_decide_eq_true_2 by done.
    rewrite Nat.sub_0_r. cbn [mbind option_bind]. rewrite IH by lia.
    simpl in Ha, Hb. rewrite Nat.sub_0_r in Ha, Hb.
    rewrite (take_S_r _ _ _ Ha), (take_S_r _ _ _ Hb). unfold paired.
    rewrite zip_with_app by (rewrite !length_take; lia).
    by rewrite <- app_assoc.
Qed.

Lemma computeDiff_paired oldItems newItems :
  key <$> oldItems = key <$> newItems ->
  computeDiff key oldItems newItems = Some (paired oldItems newItems).
Proof.
  intros Hkeys.
  assert (length newItems = length oldItems) as Hlen.
  { by rewrite <- (length_fmap key newItems), <- Hkeys, length_fmap. }
  unfold computeDiff.
  destruct (fill_table_is_Some key oldItems newItems) as [dp ->]. simpl.
  rewrite Hlen, backtrack_equal_keys by (done || lia).
  by rewrite <- Hlen at 2; rewrite !firstn_all, app_nil_r.
Qed.

(** X6.  Two sequences with the same keys, item by item (a sequence and itself,
    for one): every item is [unchanged], the old item paired with the new
    item at its position, and the script holds nothing else. *)
Theorem computeDiff_equal_keys oldItems newItems :
  key <$> oldItems = key <$> newItems ->
  computeDiff key oldItems newItems = Some (paired oldItems newItems).
Proof. apply computeDiff_paired. Qed.
End Scripts.

(** ** The script of [computeDiff] is a longest common subsequence *)
Section Optimal.
Context {T : Type} (key : T -> jsstring) (oldItems newItems : list T).
Implicit Types (ops result : list (@DiffOp T)) (dp : list (list Z)).
Local Abbreviation L := (lcs_cell key oldItems newItems).
Local Abbreviation n := (length oldItems).
Local Abbreviation m := (length newItems).

Lemma lcs_length_nil_r xs : lcs_length xs [] = 0%nat.
Proof. by destruct xs. Qed.

Lemma lcs_length_le xs : forall ys, (lcs_length xs ys <= length xs)%nat.
Proof.
  induction xs as [|x xs IHx]; intros ys; [simpl; lia|].
  induction ys as [|y ys IHy]; [simpl; lia|].
  change (lcs_length (x :: xs) (y :: ys))
    with (if bool_decide (x = y) then S (lcs_length xs ys)
          else Nat.max (lcs_length xs (y :: ys)) (lcs_length (x :: xs) ys)).
  destruct (bool_decide (x = y)).
  - specialize (IHx ys). simpl. lia.
  - specialize (IHx (y :: ys)). simpl in *. lia.
Qed.

(** No common subsequence is longer than [lcs_length] says. *)
Lemma lcs_length_bound xs : forall ys c,
  c `sublist_of` xs -> c `sublist_of` ys ->
  (length c <= lcs_length xs ys)%nat.
Proof.
  induction xs as [|x xs IHx]; intros ys c Hx Hy.
  { apply sublist_nil_r in Hx as ->. simpl. lia. }
  induction ys as [|y ys IHy] in c, Hx, Hy |- *.
  { apply sublist_nil_r in Hy as ->. simpl. lia. }
  change (lcs_length (x :: xs) (y :: ys))
    with (if bool_decide (x = y) then S (lcs_length xs ys)
          else Nat.max (lcs_length xs (y :: ys)) (lcs_length (x :: xs) ys)).
  destruct c as [|c0 c]; [simpl; lia|].
  apply sublist_cons_r in Hx as [Hx|(c' & [= -> ->] & Hx)];
    apply sublist_cons_r in Hy as Hy'.
  - destruct (bool_decide_reflect (x = y)) as [->|Hne].
    + assert (c `sublist_of` xs) as Hcx
        by (etrans; [apply sublist_cons, reflexivity|exact Hx]).
      assert (c `sublist_of` ys) as Hcy.
      { destruct Hy' as [Hy'|(c' & [= -> ->] & Hy')]; [|done].
        etrans; [apply sublist_cons, reflexivity|exact Hy']. }
      specialize (IHx ys c Hcx Hcy). simpl. lia.
    + specialize (IHx (y :: ys) (c0 :: c) Hx Hy). lia.
  - destruct (bool_decide_reflect (x = y)) as [->|Hne].
    + assert (c' `sublist_of` ys) as Hcy.
      { destruct Hy' as [Hy'|(c'' & [= ->] & Hy')]; [|done].
        etrans; [apply sublist_cons, reflexivity|exact Hy']. }
      specialize (IHx ys c' Hx Hcy). simpl. lia.
    + destruct Hy' as [Hy'|(c'' & [= <- ->] & Hy')]; [|done].
      assert (x :: c' `sublist_of` x :: xs) as Hxx by by apply sublist_skip.
      specialize (IHy (x :: c') Hxx Hy'). lia.
Qed.

Lemma sublist_reverse_2 {A} (l k : list A) :
  l `sublist_of` k -> reverse l `sublist_of` reverse k.
Proof.
  induction 1 as [|x l k _ IH|x l k _ IH]; [done|..]; rewrite ?reverse_cons.
  - by apply sublist_app.
  - by apply sublist_inserts_r.
Qed.

Lemma L_zero_l j : L 0 j = 0%nat.
Proof. done. Qed.

Lemma L_zero_r i : L i 0 = 0%nat.
Proof. unfold lcs_cell. cbn [take]. apply lcs_length_nil_r. Qed.

Lemma L_le i j : (L i j <= i)%nat.
Proof.
  unfold lcs_cell. etrans; [apply lcs_length_le|].
  rewrite length_reverse, length_take. lia.
Qed.

Lemma keys_prefix (items : list T) i a :
  (0 < i)%nat -> items !! (i - 1)%nat = Some a ->
  reverse (take i (key <$> items))
  = key a :: reverse (take (i - 1) (key <$> items)).
Proof.
  intros Hi Ha. rewrite (take_pred (key <$> items) i (key a) Hi).
  - by rewrite reverse_snoc.
  - by rewrite list_lookup_fmap, Ha.
Qed.

(** The recurrence the inner loop computes, on the LCS lengths. *)
Lemma L_step i j a b :
  (0 < i)%nat -> (0 < j)%nat ->
  oldItems !! (i - 1)%nat = Some a -> newItems !! (j - 1)%nat = Some b ->
  L i j = if bool_decide (key a = key b) then S (L (i - 1) (j - 1))
          else Nat.max (L (i - 1) j) (L i (j - 1)).
Proof.
  intros Hi Hj Ha Hb. unfold lcs_cell.
  rewrite (keys_prefix oldItems i a Hi Ha), (keys_prefix newItems j b Hj Hb).
  reflexivity.
Qed.

Lemma wrap32_small v : 0 <= v < 2 ^ 31 -> wrap32 v = v.
Proof.
  intros Hv. unfold wrap32. rewrite Z.mod_small; lia.
Qed.

Lemma dp_get_set_eq dp i j v :
  (i < length dp)%nat -> (j < length (nth i dp []))%nat ->
  dp_get (dp_set dp i j v) i j = wrap32 v.
Proof.
  intros Hi Hj. unfold dp_get, dp_set.
  rewrite (nth_lookup_Some _ i [] (<[j:=wrap32 v]> (nth i dp [])))
    by by apply list_lookup_insert_eq.
  apply nth_lookup_Some. by apply list_lookup_insert_eq.
Qed.

Lemma dp_get_set_ne dp i j v i' j' :
  (i', j') <> (i, j) ->
  dp_get (dp_set dp i j v) i' j' = dp_get dp i' j'.
Proof.
  intros Hne. unfold dp_get, dp_set.
  destruct (decide (i' = i)) as [->|Hi].
  - destruct (decide (i < length dp)%nat) as [Hlt|Hge].
    + rewrite (nth_lookup_Some _ i [] (<[j:=wrap32 v]> (nth i dp [])))
        by by apply list_lookup_insert_eq.
      rewrite !nth_lookup, list_lookup_insert_ne; [done|congruence].
    + rewrite list_insert_ge by lia. done.
  - rewrite !(nth_lookup _ i'), list_lookup_insert_ne by done. done.
Qed.

Lemma dp_get_new_table n0 m0 i j : dp_get (new_table n0 m0) i j = 0.
Proof.
  unfold dp_get, new_table. rewrite !nth_lookup.
  destruct (replicate (n0 + 1) (replicate (m0 + 1) 0) !! i) as [row|] eqn:Hrow;
    simpl.
  - apply lookup_replicate in Hrow as [-> _].
    destruct (replicate (m0 + 1) 0 !! j) as [v|] eqn:Hv; [|done].
    by apply lookup_replicate in Hv as [-> _].
  - by destruct j.
Qed.

Lemma new_table_ok :
  table_ok key oldItems newItems (new_table n m) (λ _ _, False).
Proof.
  unfold table_ok, new_table. rewrite length_replicate. split; [lia|]. split.
  - apply Forall_replicate. rewrite length_replicate. lia.
  - intros i j _ _ [->|[->|[]]].
    + by rewrite L_zero_l, (dp_get_new_table n m).
    + by rewrite L_zero_r, (dp_get_new_table n m).
Qed.

(** The cells the loops have filled when they reach [(i, j)]. *)
Local Abbreviation before i j := (λ i' j' : nat, (i' < i \/ i' = i /\ j' < j)%nat).

(** One cell: filled from the three cells behind it. *)
Lemma fill_cell_ok dp i j :
  Z.of_nat n < 2 ^ 31 ->
  (1 <= i <= n)%nat -> (1 <= j <= m)%nat ->
  table_ok key oldItems newItems dp (before i j) ->
  exists dp',
    fill_cell key oldItems newItems i dp j = Some dp'
    /\ table_ok key oldItems newItems dp' (before i (S j)).
Proof.
  intros Hn Hi Hj (Hlen & Hrows & Hcells). unfold fill_cell.
  destruct (lookup_pred oldItems i) as [a Ha]; [lia|].
  destruct (lookup_pred newItems j) as [b Hb]; [lia|].
  rewrite (same_diff_in_range _ _ _ _ _ _ _ Ha Hb). cbn [mbind option_bind].
  pose proof (L_step i j a b ltac:(lia) ltac:(lia) Ha Hb) as Hstep.
  assert (dp_get dp (i - 1) (j - 1) = Z.of_nat (L (i - 1) (j - 1))) as Hdiag
    by (apply Hcells; lia).
  assert (dp_get dp (i - 1) j = Z.of_nat (L (i - 1) j)) as Hup
    by (apply Hcells; lia).
  assert (dp_get dp i (j - 1) = Z.of_nat (L i (j - 1))) as Hleft
    by (apply Hcells; lia).
  assert (i < length dp)%nat as Hi' by lia.
  destruct (lookup_lt_is_Some_2 dp i Hi') as [row Hrow].
  assert (nth i dp [] = row) as Hnth by by apply nth_lookup_Some.
  assert (length row = S m) as Hrowlen
    by (by eapply (proj1 (Forall_lookup _ _) Hrows)).
  pose proof (L_le (i - 1) (j - 1)). pose proof (L_le (i - 1) j).
  pose proof (L_le i (j - 1)). pose proof (L_le i j).
  eexists. split; [reflexivity|].
  assert (forall v, v = Z.of_nat (L i j) ->
            table_ok key oldItems newItems (dp_set dp i j v) (before i (S j)))
    as Hset.
  { intros v ->. split; [|split].
    - unfold dp_set. by rewrite length_insert.
    - unfold dp_set. apply Forall_insert; [done|].
      by rewrite length_insert, Hnth.
    - intros i' j' Hi'' Hj'' Hfilled.
      destruct (decide ((i', j') = (i, j))) as [[= -> ->]|Hne].
      + rewrite dp_get_set_eq by (rewrite ?Hnth; lia).
        apply wrap32_small. lia.
      + rewrite dp_get_set_ne by done. apply Hcells; [done..|].
        destruct Hfilled as [?|[?|[?|[-> ?]]]]; [lia..|].
        right; right; right. split; [done|].
        destruct (decide (j' = j)) as [->|?]; [done|lia]. }
  destruct (bool_decide (key a = key b)); apply Hset; lia.
Qed.

Lemma table_ok_weaken dp (filled filled' : nat -> nat -> Prop) :
  (forall i j, (i <= n)%nat -> (j <= m)%nat -> filled' i j ->
     i = 0%nat \/ j = 0%nat \/ filled i j) ->
  table_ok key oldItems newItems dp filled ->
  table_ok key oldItems newItems dp filled'.
Proof.
  intros Himpl (Hlen & Hrows & Hcells). split; [done|]. split; [done|].
  intros i j Hi Hj [?|[?|Hf]]; apply Hcells; auto.
Qed.

(** A counted loop with an invariant that depends on the counter. *)
Lemma for_each_seq {A} (Inv : nat -> A -> Prop) (body : A -> nat -> option A)
    len : forall start a,
  Inv start a ->
  (forall k a, (start <= k < start + len)%nat -> Inv k a ->
     exists a', body a k = Some a' /\ Inv (S k) a') ->
  exists a', for_each (seq start len) body a = Some a' /\ Inv (start + len)%nat a'.
Proof.
  induction len as [|len IH]; intros start a Ha Hbody.
  - exists a. by rewrite Nat.add_0_r.
  - destruct (Hbody start a) as (a1 & Hrun & Ha1); [lia|done|].
    destruct (IH (S start) a1 Ha1) as (a' & Hrest & Ha').
    { intros k a0 Hk. apply Hbody. lia. }
    exists a'. cbn [seq for_each]. rewrite Hrun. cbn [mbind option_bind].
    split; [done|]. by replace (start + S len)%nat with (S start + len)%nat by lia.
Qed.

Lemma fill_row_ok dp i :
  Z.of_nat n < 2 ^ 31 -> (1 <= i <= n)%nat ->
  table_ok key oldItems newItems dp (λ i' _, (i' < i)%nat) ->
  exists dp',
    fill_row key oldItems newItems m dp i = Some dp'
    /\ table_ok key oldItems newItems dp' (λ i' _, (i' < S i)%nat).
Proof.
  intros Hn Hi Hdp. unfold fill_row.
  destruct (for_each_seq
              (λ j dp, table_ok key oldItems newItems dp (before i j))
              (fill_cell key oldItems newItems i) m 1 dp)
    as (dp' & Hrun & Hdp').
  - eapply table_ok_weaken; [|exact Hdp]. intros i' j' _ _ [?|[_ ?]]; lia.
  - intros j dp0 Hj Hdp0. apply fill_cell_ok; [done|done|lia|done].
  - exists dp'. split; [done|].
    eapply table_ok_weaken; [|exact Hdp']. intros i' j' _ Hj' Hlt.
    right; right. destruct (decide (i' = i)); [right|left]; lia.
Qed.

(** The table [computeDiff] fills holds the LCS length of every pair of
    prefixes. *)
Lemma fill_table_ok :
  Z.of_nat n < 2 ^ 31 ->
  exists dp,
    fill_table key oldItems newItems = Some dp
    /\ table_ok key oldItems newItems dp (λ _ _, True).
Proof.
  intros Hn. unfold fill_table.
  destruct (for_each_seq
              (λ i dp, table_ok key oldItems newItems dp (λ i' _, (i' < i)%nat))
              (fill_row key oldItems newItems m) n 1 (new_table n m))
    as (dp & Hrun & Hdp).
  - eapply table_ok_weaken; [|exact new_table_ok]. intros i j _ _ ?. lia.
  - intros i dp0 Hi Hdp0. apply fill_row_ok; [done|lia|done].
  - exists dp. split; [done|].
    eapply table_ok_weaken; [|exact Hdp]. intros i j Hi _ _.
    right; right. lia.
Qed.

Lemma is_unchanged_type (op : @DiffOp T) :
  is_unchanged op = match type op with unchanged => true | _ => false end.
Proof. unfold is_unchanged. by destruct (type op). Qed.

Lemma count_unchanged_cons (op : @DiffOp T) ops :
  count_unchanged (op :: ops)
  = ((if is_unchanged op then 1 else 0) + count_unchanged ops)%nat.
Proof. unfold count_unchanged. cbn [List.filter]. by destruct (is_unchanged op). Qed.

(** An iteration on a correct table: the LCS length of what is left goes
    down by one exactly when the op is [unchanged]. *)
Lemma backtrack_step_count dp i j result :
  table_ok key oldItems newItems dp (λ _ _, True) ->
  (i <= n)%nat -> (j <= m)%nat -> (0 < i + j)%nat ->
  exists i' j' op,
    backtrack_step key oldItems newItems dp (i, j, result)
      = Some (i', j', op :: result)
    /\ (i' <= n)%nat /\ (j' <= m)%nat /\ (i' + j' < i + j)%nat
    /\ L i j = (L i' j' + if is_unchanged op then 1 else 0)%nat.
Proof.
  intros (_ & _ & Hcells) Hi Hj Hpos. unfold backtrack_step.
  destruct (Nat.ltb_spec 0 i) as [Hi0|Hi0], (Nat.ltb_spec 0 j) as [Hj0|Hj0];
    cbn [andb orb]; try lia.
  - destruct (lookup_pred oldItems i) as [a Ha]; [lia|].
    destruct (lookup_pred newItems j) as [b Hb]; [lia|].
    rewrite (same_diff_in_range _ _ _ _ _ _ _ Ha Hb). cbn [mbind option_bind].
    pose proof (L_step i j a b Hi0 Hj0 Ha Hb) as Hstep.
    rewrite (Hcells i (j - 1)%nat), (Hcells (i - 1)%nat j) by (auto; lia).
    destruct (bool_decide (key a = key b)).
    + eexists _, _, _. split; [reflexivity|].
      rewrite is_unchanged_type. cbn. repeat split; lia.
    + destruct (Nat.eqb_spec i 0) as [|_]; [lia|]. cbn [orb].
      destruct (Z.geb_spec (Z.of_nat (L i (j - 1))) (Z.of_nat (L (i - 1) j)));
        cbn [andb]; eexists _, _, _; (split; [reflexivity|]);
        rewrite is_unchanged_type; cbn; repeat split; lia.
  - eexists _, _, _. split; [reflexivity|]. rewrite is_unchanged_type. cbn.
    assert (j = 0)%nat as -> by lia. rewrite !L_zero_r. repeat split; lia.
  - assert (i = 0)%nat as -> by lia. cbn [Nat.eqb orb andb].
    eexists _, _, _. split; [reflexivity|]. rewrite is_unchanged_type. cbn.
    rewrite !L_zero_l. repeat split; lia.
Qed.

Lemma backtrack_count dp fuel : forall i j result ops,
  table_ok key oldItems newItems dp (λ _ _, True) ->
  (i <= n)%nat -> (j <= m)%nat ->
  backtrack key fuel oldItems newItems dp (i, j, result) = Some ops ->
  count_unchanged ops = (L i j + count_unchanged result)%nat.
Proof.
  induction fuel as [|fuel IH]; intros i j result ops Hdp Hi Hj Hrun;
    cbn [backtrack] in Hrun;
    destruct (Nat.ltb_spec 0 i) as [Hi0|Hi0], (Nat.ltb_spec 0 j) as [Hj0|Hj0];
    cbn [orb] in Hrun; try done;
    try (injection Hrun as <-;
         assert (i = 0 /\ j = 0)%nat as [-> ->] by lia; by rewrite L_zero_l).
  all: destruct (backtrack_step_count dp i j result Hdp Hi Hj)
         as (i' & j' & op & Hstep & Hi' & Hj' & _ & HL); [lia|];
       rewrite Hstep in Hrun; cbn [mbind option_bind] in Hrun;
       apply IH in Hrun; [|done..];
       rewrite Hrun, count_unchanged_cons, HL; lia.
Qed.

Lemma unchanged_keys_cons (op : @DiffOp T) ops :
  unchanged_keys key (op :: ops)
  = (match type op with
     | unchanged => key <$> option_list (oldItem op)
     | _ => []
     end) ++ unchanged_keys key ops.
Proof.
  unfold unchanged_keys. cbn [List.filter]. rewrite is_unchanged_type.
  destruct op as [[] o nw]; cbn [type oldItem]; [done..|].
  rewrite old_side_cons, fmap_app. unfold old_side at 1. cbn.
  by rewrite app_nil_r.
Qed.

(** The keys of the [unchanged] pairs are a subsequence of the keys of
    either side. *)
Lemma unchanged_keys_sublist ops :
  Forall (well_formed_op key) ops ->
  unchanged_keys key ops `sublist_of` key <$> old_side ops
  /\ unchanged_keys key ops `sublist_of` key <$> new_side ops
  /\ length (unchanged_keys key ops) = count_unchanged ops.
Proof.
  induction 1 as [|op ops Hop _ (IHo & IHn & IHc)]; [done|].
  rewrite unchanged_keys_cons, count_unchanged_cons, is_unchanged_type.
  rewrite (old_side_cons op), (new_side_cons op), !fmap_app, length_app, IHc.
  unfold well_formed_op in Hop. unfold old_side at 1, new_side at 1.
  destruct op as [[] o nw]; cbn in Hop |- *.
  - destruct Hop as [-> (b & ->)]. cbn.
    split; [done|]. split; [by apply sublist_cons|done].
  - destruct Hop as [(a & ->) ->]. cbn.
    split; [by apply sublist_cons|done].
  - destruct Hop as (a & b & -> & -> & Hkey). cbn.
    split; [by apply sublist_skip|].
    split; [rewrite Hkey; by apply sublist_skip|done].
Qed.

(** X7.  The script of [computeDiff] is built on a longest common subsequence:
    for sequences of fewer than 2^31 items (the cells of the table are
    32-bit), the keys of the items its [unchanged] ops pair are a common
    subsequence of the keys of the two sequences, and no common
    subsequence is longer. *)
Theorem computeDiff_optimal :
  Z.of_nat n < 2 ^ 31 ->
  exists ops,
    computeDiff key oldItems newItems = Some ops
    /\ unchanged_keys key ops `sublist_of` key <$> oldItems
    /\ unchanged_keys key ops `sublist_of` key <$> newItems
    /\ forall c,
         c `sublist_of` key <$> oldItems -> c `sublist_of` key <$> newItems ->
         (length c <= length (unchanged_keys key ops))%nat.
Proof.
  intros Hn.
  destruct (computeDiff_returns key oldItems newItems) as [ops Hops].
  exists ops. split; [done|].
  pose proof (computeDiff_shape key _ _ _ Hops) as Hwf.
  destruct (computeDiff_sides key _ _ _ Hops) as [Hold Hnew].
  destruct (unchanged_keys_sublist ops Hwf) as (Ho & Hnw & Hlen).
  rewrite Hold, Hnew in *. split; [done|]. split; [done|].
  intros c Hco Hcn. rewrite Hlen.
  unfold computeDiff in Hops.
  destruct (fill_table_ok Hn) as (dp & Hfill & Hdp).
  rewrite Hfill in Hops. cbn [mbind option_bind] in Hops.
  apply (backtrack_count dp _ _ _ _ _ Hdp) in Hops; [|done..].
  rewrite Hops. change (count_unchanged []) with 0%nat.
  rewrite Nat.add_0_r. unfold lcs_cell.
  rewrite <- (length_reverse c).
  apply lcs_length_bound; apply sublist_reverse_2.
  - rewrite take_ge by (rewrite length_fmap; lia). done.
  - rewrite take_ge by (rewrite length_fmap; lia). done.
Qed.
End Optimal.

Lemma computeDiff_equal_keys_witness :
  computeDiff (λ x : Z * Z, [fst x]) [(97, 1); (98, 2)] [(97, 3); (98, 4)]
  = Some [ mkOp unchanged (Some (97, 1)) (Some (97, 3));
           mkOp unchanged (Some (98, 2)) (Some (98, 4)) ].
Proof.
  apply (computeDiff_equal_keys (λ x : Z * Z, [fst x])
           [(97, 1); (98, 2)] [(97, 3); (98, 4)]).
  reflexivity.
Defined.

Lemma computeDiff_optimal_witness :
  exists ops,
    computeDiff id [[97]; [98]; [99]; [98]] [[98]; [97]; [98]] = Some ops
    /\ unchanged_keys id ops `sublist_of` [[97]; [98]; [99]; [98]]
    /\ unchanged_keys id ops `sublist_of` [[98]; [97]; [98]]
    /\ forall c,
         c `sublist_of` [[97]; [98]; [99]; [98]] ->
         c `sublist_of` [[98]; [97]; [98]] ->
         (length c <= length (unchanged_keys id ops))%nat.
Proof.
  apply (computeDiff_optimal id [[97]; [98]; [99]; [98]] [[98]; [97]; [98]]).
  reflexivity.
Defined.


(** ** The diff of two texts *)
Section Orchestrator.
Context {U : Unicode} (settings : Settings).
Implicit Types (ops : list (@DiffOp Token)) (out : list ProcessedDiff).

Lemma take_run_app {T} t (ops : list (@DiffOp T)) :
  fst (take_run t ops) ++ snd (take_run t ops) = ops.
Proof.
  induction ops as [|op ops IH]; [done|]. cbn [take_run].
  destruct (bool_decide (type op = t)); [|done].
  destruct (take_run t ops). simpl in *. by rewrite IH.
Qed.

Lemma take_run_types {T} t (ops : list (@DiffOp T)) :
  Forall (λ op, type op = t) (fst (take_run t ops)).
Proof.
  induction ops as [|op ops IH]; [constructor|]. cbn [take_run].
  destruct (bool_decide_reflect (type op = t)); [|constructor].
  destruct (take_run t ops). simpl in *. by constructor.
Qed.

(** A run taken at an op of its type is not empty. *)
Lemma take_run_head {T} t (op : @DiffOp T) (l : list (@DiffOp T)) :
  type op = t -> exists run, fst (take_run t (op :: l)) = op :: run.
Proof.
  intros Ht. cbn [take_run]. rewrite bool_decide_eq_true_2 by done.
  destruct (take_run t l). by eexists.
Qed.

Lemma lines_but_app t out1 out2 :
  lines_but t (out1 ++ out2) = lines_but t out1 ++ lines_but t out2.
Proof. unfold lines_but. by rewrite filter_app, fmap_app. Qed.

Lemma old_spans_spec ops :
  Forall (well_formed_op diff) ops ->
  exists spans,
    old_spans ops = Some spans
    /\ part_value <$> spans = render <$> old_side ops
    /\ Forall (λ part, part_type part ≠ added) spans.
Proof.
  unfold old_spans.
  induction 1 as [|op ops Hop _ (spans & Hspans & Hvalues & Htypes)].
  { by exists []. }
  rewrite old_side_cons, fmap_app, filter_cons.
  unfold well_formed_op in Hop. unfold old_side at 1.
  destruct op as [[] o nw]; cbn in Hop |- *.
  - rewrite decide_False by (intros ?; done). by exists spans.
  - destruct Hop as [(a & ->) ->]. rewrite decide_True by done.
    cbn. rewrite Hspans. cbn. eexists. split; [done|]. cbn.
    split; [by rewrite Hvalues|]. by constructor.
  - destruct Hop as (a & b & -> & -> & _). rewrite decide_True by done.
    cbn. rewrite Hspans. cbn. eexists. split; [done|]. cbn.
    split; [by rewrite Hvalues|]. by constructor.
Qed.

Lemma new_spans_spec ops :
  Forall (well_formed_op diff) ops ->
  exists spans,
    new_spans ops = Some spans
    /\ part_value <$> spans = render <$> new_side ops
    /\ Forall (λ part, part_type part ≠ removed) spans.
Proof.
  unfold new_spans.
  induction 1 as [|op ops Hop _ (spans & Hspans & Hvalues & Htypes)].
  { by exists []. }
  rewrite new_side_cons, fmap_app, filter_cons.
  unfold well_formed_op in Hop. unfold new_side at 1.
  destruct op as [[] o nw]; cbn in Hop |- *.
  - destruct Hop as [-> (b & ->)]. rewrite decide_True by done.
    cbn. rewrite Hspans. cbn. eexists. split; [done|]. cbn.
    split; [by rewrite Hvalues|]. by constructor.
  - rewrite decide_False by (intros ?; done). by exists spans.
  - destruct Hop as (a & b & -> & -> & _). rewrite decide_True by done.
    cbn. rewrite Hspans. cbn. eexists. split; [done|]. cbn.
    split; [by rewrite Hvalues|]. by constructor.
Qed.

(** With neither filter active the tokens of a line spell the line. *)
Lemma tokenize_exact text :
  ignorePunctuation settings = false -> ignoreWhitespace settings = false ->
  mjoin (render <$> tokenize settings text) = text.
Proof.
  intros Hp Hw. unfold tokenize. destruct text as [|c text]; [done|].
  rewrite filter_all by (intros t; by apply keep_token_exact).
  rewrite render_tokens. by apply match_all_spec.
Qed.

(** What the lines of a result are asked for, one by one. *)
Local Abbreviation exact :=
  (ignorePunctuation settings = false /\ ignoreWhitespace settings = false).

Local Abbreviation fine out :=
  (Forall spans_fit out /\ (exact -> Forall spans_cover out)).

Lemma pair_lines_spec rem add :
  exists lines,
    pair_lines settings rem add = Some lines
    /\ lines_but removed lines = render <$> option_list add
    /\ lines_but added lines = render <$> option_list rem
    /\ fine lines.
Proof.
  destruct rem as [rem|], add as [add|]; cbn [pair_lines].
  - destruct (computeDiff_returns diff (tokenize settings (render rem))
                (tokenize settings (render add))) as [ops Hops].
    pose proof (computeDiff_shape diff _ _ _ Hops) as Hwf.
    destruct (computeDiff_sides diff _ _ _ Hops) as [Hold Hnew].
    destruct (old_spans_spec ops Hwf) as (olds & Holds & Hov & Hot).
    destruct (new_spans_spec ops Hwf) as (news & Hnews & Hnv & Hnt).
    rewrite Hops. cbn. rewrite Holds, Hnews. cbn.
    eexists. split; [done|]. split; [done|]. split; [done|].
    split; [by repeat constructor|].
    intros [Hp Hw]. repeat constructor; unfold spans_cover; cbn.
    + rewrite Hov, Hold. by apply tokenize_exact.
    + rewrite Hnv, Hnew. by apply tokenize_exact.
  - eexists. split; [done|]. repeat split; repeat constructor.
  - eexists. split; [done|]. repeat split; repeat constructor.
  - eexists. split; [done|]. repeat split; repeat constructor.
Qed.

Lemma omap_drop {A} (l : list (option A)) p :
  omap id (drop p l)
  = option_list (default None (l !! p)) ++ omap id (drop (S p) l).
Proof.
  destruct (l !! p) as [x|] eqn:Hp.
  - rewrite (drop_S _ _ _ Hp). by destruct x.
  - apply lookup_ge_None in Hp. by rewrite !drop_ge by lia.
Qed.

Lemma fine_app out1 out2 : fine out1 -> fine out2 -> fine (out1 ++ out2).
Proof.
  intros [Hf1 Hc1] [Hf2 Hc2]. split; [by apply Forall_app|].
  intros Hexact. apply Forall_app. auto.
Qed.

(** The pairing loop from index [p] on. *)
Lemma pair_loop_spec removals additions k : forall p,
  (length removals <= p + k)%nat -> (length additions <= p + k)%nat ->
  exists pushed,
    mapM (λ p, pair_lines settings (default None (removals !! p))
                 (default None (additions !! p))) (seq p k) = Some pushed
    /\ lines_but removed (concat pushed) = render <$> omap id (drop p additions)
    /\ lines_but added (concat pushed) = render <$> omap id (drop p removals)
    /\ fine (concat pushed).
Proof.
  induction k as [|k IH]; intros p Hr Ha.
  - exists []. rewrite !drop_ge by lia. repeat split; constructor.
  - destruct (pair_lines_spec (default None (removals !! p))
                (default None (additions !! p)))
      as (lines & Hlines & Hnew & Hold & Hfine).
    destruct (IH (S p)) as (pushed & Hpushed & Hnew' & Hold' & Hfine'); [lia..|].
    exists (lines :: pushed). cbn [seq mapM]. rewrite Hlines. cbn.
    rewrite Hpushed. cbn. split; [done|].
    fold (lines_but removed (lines ++ concat pushed)).
    fold (lines_but added (lines ++ concat pushed)).
    rewrite !lines_but_app, Hnew, Hold, Hnew', Hold'.
    rewrite (omap_drop additions p), (omap_drop removals p), !fmap_app.
    split; [done|]. split; [done|]. by apply fine_app.
Qed.

Lemma process_block_spec removals additions :
  exists block,
    process_block settings removals additions = Some block
    /\ lines_but removed block = render <$> omap id additions
    /\ lines_but added block = render <$> omap id removals
    /\ fine block.
Proof.
  unfold process_block.
  destruct (pair_loop_spec removals additions
              (Nat.max (length removals) (length additions)) 0)
    as (pushed & -> & Hspec); [lia..|].
  cbn. by eexists.
Qed.

Lemma sides_of_removed (run : list (@DiffOp Token)) :
  Forall (λ op, type op = removed) run ->
  new_side run = [] /\ old_side run = omap id (oldItem <$> run).
Proof.
  induction 1 as [|op run Hop _ [IHn IHo]]; [done|].
  rewrite old_side_cons, new_side_cons, IHn, IHo.
  unfold old_side, new_side. destruct op as [t o nw]. cbn in *. subst t.
  cbn. rewrite app_nil_r. by destruct o.
Qed.

Lemma sides_of_added (run : list (@DiffOp Token)) :
  Forall (λ op, type op = added) run ->
  old_side run = [] /\ new_side run = omap id (newItem <$> run).
Proof.
  induction 1 as [|op run Hop _ [IHo IHn]]; [done|].
  rewrite old_side_cons, new_side_cons, IHn, IHo.
  unfold old_side, new_side. destruct op as [t o nw]. cbn in *. subst t.
  cbn. rewrite app_nil_r. by destruct nw.
Qed.

(** A token whose key is the key of its text, as the tokens of lines are. *)
Local Abbreviation keyed :=
  (λ x : Token, diff x = getDiffKey settings (render x)).

Lemma keyed_keys (items : list Token) :
  Forall keyed items ->
  getDiffKey settings <$> (render <$> items) = diff <$> items.
Proof.
  induction 1 as [|x items Hx _ IH]; [done|]. cbn. by rewrite IH, Hx.
Qed.

(** The loop over the line script: the lines it pushes that are not
    [removed] are the new items, and those that are not [added] have the
    keys of the old items. *)
Lemma process_spec fuel : forall ops,
  Forall (well_formed_op diff) ops ->
  Forall keyed (old_side ops) -> Forall keyed (new_side ops) ->
  (length ops <= fuel)%nat ->
  exists out,
    process settings fuel ops = Some out
    /\ lines_but removed out = render <$> new_side ops
    /\ getDiffKey settings <$> lines_but added out = diff <$> old_side ops
    /\ fine out.
Proof.
  induction fuel as [|fuel IH]; intros ops Hwf Hko Hkn Hfuel.
  { destruct ops; [|simpl in Hfuel; lia]. exists []. repeat split; constructor. }
  destruct ops as [|current rest].
  { exists []. repeat split; constructor. }
  cbn [process].
  destruct (bool_decide_reflect (type current = unchanged)) as [Hun|Hchanged].
  - (* an unchanged line *)
    apply Forall_cons in Hwf as [Hcur Hwf].
    rewrite old_side_cons in Hko. rewrite new_side_cons in Hkn.
    apply Forall_app in Hko as [Hko1 Hko], Hkn as [Hkn1 Hkn].
    destruct (IH rest Hwf Hko Hkn) as (out & Hout & Hnew & Hold & Hfine);
      [simpl in Hfuel; lia|].
    unfold well_formed_op in Hcur. rewrite Hun in Hcur.
    destruct Hcur as (a & b & Ha & Hb & Hkey).
    assert (old_side [current] = [a]) as Hoa.
    { unfold old_side. cbn. by rewrite Hun, Ha. }
    assert (new_side [current] = [b]) as Hnb.
    { unfold new_side. cbn. by rewrite Hun, Hb. }
    rewrite Hnb in Hkn1. apply Forall_cons in Hkn1 as [Hkb _].
    rewrite Hb, Hout. cbn [mbind option_bind].
    eexists. split; [done|].
    rewrite old_side_cons, new_side_cons, !fmap_app, Hoa, Hnb.
    change (?x :: out) with ([x] ++ out).
    rewrite !lines_but_app, !fmap_app, Hnew, Hold. cbn.
    rewrite !decide_True by done. cbn.
    rewrite <- Hkb, Hkey.
    split; [done|]. split; [done|]. destruct Hfine as [Hf Hc].
    split; [by constructor|]. intros He. constructor; [done|by apply Hc].
  - (* a block of removed lines, then added lines *)
    pose proof (take_run_app removed (current :: rest)) as Hsplit1.
    pose proof (take_run_types removed (current :: rest)) as Htypes1.
    destruct (take_run removed (current :: rest)) as [removed_run after] eqn:Hrun1.
    pose proof (take_run_app added after) as Hsplit2.
    pose proof (take_run_types added after) as Htypes2.
    destruct (take_run added after) as [added_run after'] eqn:Hrun2.
    cbn [fst snd] in *.
    assert (length after' < length (current :: rest))%nat as Hshorter.
    { rewrite <- Hsplit1, <- Hsplit2, !length_app.
      destruct (decide (type current = removed)) as [Hrem|Hnot].
      - destruct (take_run_head removed current rest Hrem) as [run Hhead].
        rewrite Hrun1 in Hhead. cbn in Hhead. subst removed_run. simpl. lia.
      - assert (type current = added) as Hadd by (by destruct (type current)).
        cbn [take_run] in Hrun1. rewrite bool_decide_eq_false_2 in Hrun1 by done.
        injection Hrun1 as <- <-.
        destruct (take_run_head added current rest Hadd) as [run Hhead].
        rewrite Hrun2 in Hhead. cbn in Hhead. subst added_run. simpl. lia. }
    rewrite <- Hsplit1, <- Hsplit2 in Hwf, Hko, Hkn |- *.
    rewrite !old_side_app in Hko |- *. rewrite !new_side_app in Hkn |- *.
    apply Forall_app in Hwf as [_ Hwf]. apply Forall_app in Hwf as [_ Hwf].
    apply Forall_app in Hko as [Hko1 Hko]. apply Forall_app in Hko as [_ Hko].
    apply Forall_app in Hkn as [_ Hkn]. apply Forall_app in Hkn as [_ Hkn].
    destruct (sides_of_removed removed_run Htypes1) as [Hn1 Ho1].
    destruct (sides_of_added added_run Htypes2) as [Ho2 Hn2].
    destruct (process_block_spec (oldItem <$> removed_run) (newItem <$> added_run))
      as (block & Hblock & Hbnew & Hbold & Hbfine).
    destruct (IH after' Hwf Hko Hkn) as (out & Hout & Hnew & Hold & Hfine);
      [simpl in *; lia|].
    rewrite Hblock, Hout. cbn [mbind option_bind].
    eexists. split; [done|].
    rewrite !lines_but_app, !fmap_app, Hbnew, Hbold, Hnew, Hold.
    rewrite Hn1, Ho2, <- Hn2, <- Ho1. cbn [app].
    rewrite (keyed_keys _ Hko1).
    split; [done|]. split; [done|]. by apply fine_app.
Qed.

Lemma line_tokens_keyed (lines : list jsstring) :
  Forall keyed (line_token settings <$> lines).
Proof. apply Forall_fmap, Forall_true. done. Qed.

Lemma line_tokens_render (lines : list jsstring) :
  render <$> (line_token settings <$> lines) = lines.
Proof. rewrite <- list_fmap_compose. induction lines; by f_equal/=. Qed.

Lemma line_tokens_diff (lines : list jsstring) :
  diff <$> (line_token settings <$> lines) = getDiffKey settings <$> lines.
Proof. by rewrite <- list_fmap_compose. Qed.

(** [diffResult] on two texts that are not both empty. *)
Lemma diffResult_spec oldText newText :
  oldText <> [] \/ newText <> [] ->
  exists out,
    diffResult settings oldText newText = Some out
    /\ lines_but removed out = split_lines newText
    /\ getDiffKey settings <$> lines_but added out
       = getDiffKey settings <$> split_lines oldText
    /\ fine out.
Proof.
  intros Hne.
  assert (diffResult settings oldText newText
          = (computeDiff diff (line_token settings <$> split_lines oldText)
               (line_token settings <$> split_lines newText)
             ≫= λ lineDiffs, process settings (length lineDiffs) lineDiffs))
    as ->.
  { destruct oldText, newText; try done. by destruct Hne. }
  destruct (computeDiff_returns diff (line_token settings <$> split_lines oldText)
              (line_token settings <$> split_lines newText)) as [ops Hops].
  pose proof (computeDiff_shape diff _ _ _ Hops) as Hwf.
  destruct (computeDiff_sides diff _ _ _ Hops) as [Hold Hnew].
  rewrite Hops. cbn [mbind option_bind].
  destruct (process_spec (length ops) ops Hwf) as (out & Hout & Hn & Ho & Hfine);
    [rewrite Hold|rewrite Hnew|done|]; [apply line_tokens_keyed..|].
  exists out. split; [done|].
  by rewrite Hn, Ho, Hold, Hnew, line_tokens_render, line_tokens_diff.
Qed.

(** X8.  The new text can be read off the result: its lines that are not
    [removed] are, in order, exactly the lines of the new text.  The old
    text only up to comparison: the lines that are not [added] have, in
    order, the keys of the lines of the old text (an [unchanged] line shows
    the new text's version of the line). *)
Theorem diffResult_lines oldText newText :
  oldText <> [] \/ newText <> [] ->
  exists out,
    diffResult settings oldText newText = Some out
    /\ lines_but removed out = split_lines newText
    /\ getDiffKey settings <$> lines_but added out
       = getDiffKey settings <$> split_lines oldText.
Proof.
  intros Hne. destruct (diffResult_spec oldText newText Hne)
    as (out & Hout & Hn & Ho & _).
  by exists out.
Qed.

(** X9.  Word-level spans are attached to paired lines only, a removed line has
    no [added] span and an added line no [removed] span; and with
    ignore-punctuation and ignore-whitespace both off, the spans of a line
    spell the line. *)
Theorem diffResult_spans oldText newText :
  exists out,
    diffResult settings oldText newText = Some out
    /\ Forall spans_fit out
    /\ (ignorePunctuation settings = false ->
        ignoreWhitespace settings = false -> Forall spans_cover out).
Proof.
  destruct (decide (oldText = [] /\ newText = [])) as [[-> ->]|Hne].
  { exists []. repeat split; constructor. }
  destruct (diffResult_spec oldText newText) as (out & Hout & _ & _ & Hf & Hc).
  { destruct oldText, newText; [by destruct Hne|by right|by left|by left]. }
  exists out. auto.
Qed.
Lemma process_paired fuel : forall olds news : list Token,
  length olds = length news -> (length olds <= fuel)%nat ->
  process settings fuel (paired olds news)
  = Some (unchanged_line <$> (render <$> news)).
Proof.
  induction fuel as [|fuel IH]; intros olds news Hlen Hfuel.
  - destruct olds, news; try done. simpl in Hfuel. lia.
  - destruct olds as [|a olds], news as [|b news]; try done.
    cbn [paired zip_with process type newItem]. fold (paired olds news).
    rewrite bool_decide_eq_true_2 by done. cbn [mbind option_bind].
    rewrite IH by (simpl in *; lia). done.
Qed.

(** X10.  Two texts whose lines have the same keys, line by line (a text and
    itself; or, with ignore-case on, texts that differ in case only): every
    line of the result is [unchanged], without spans, and shows the line of
    the new text.  Two empty texts are the exception: their result is
    empty, not one empty line. *)
Theorem diffResult_equal_keys oldText newText :
  oldText <> [] \/ newText <> [] ->
  getDiffKey settings <$> split_lines oldText
  = getDiffKey settings <$> split_lines newText ->
  diffResult settings oldText newText
  = Some (unchanged_line <$> split_lines newText).
Proof.
  intros Hne Hkeys.
  assert (diffResult settings oldText newText
          = (computeDiff diff (line_token settings <$> split_lines oldText)
               (line_token settings <$> split_lines newText)
             ≫= λ lineDiffs, process settings (length lineDiffs) lineDiffs))
    as ->.
  { destruct oldText, newText; try done. by destruct Hne. }
  assert (length (split_lines oldText) = length (split_lines newText)) as Hlen.
  { by rewrite <- (length_fmap (getDiffKey settings)), Hkeys, length_fmap. }
  rewrite computeDiff_paired by (by rewrite !line_tokens_diff).
  cbn [mbind option_bind].
  rewrite process_paired, line_tokens_render; [done|by rewrite !length_fmap|].
  unfold paired. rewrite length_zip_with, !length_fmap. lia.
Qed.
End Orchestrator.

Lemma diffResult_lines_witness :
  exists out,
    diffResult (U := basic_latin) exact_settings
      [97; 10; 98; 10; 99] [97; 13; 10; 66; 10; 99; 10; 100] = Some out
    /\ lines_but removed out = [[97]; [66]; [99]; [100]]
    /\ getDiffKey (U := basic_latin) exact_settings <$> lines_but added out
       = [[97]; [98]; [99]].
Proof.
  apply (diffResult_lines (U := basic_latin) exact_settings
           [97; 10; 98; 10; 99] [97; 13; 10; 66; 10; 99; 10; 100]).
  left. discriminate.
Defined.

Lemma diffResult_equal_keys_witness :
  diffResult (U := basic_latin) (mkSettings true false false)
    [72; 105; 10; 97] [104; 73; 32; 13; 10; 65]
  = Some [unchanged_line [104; 73; 32]; unchanged_line [65]].
Proof.
  apply (diffResult_equal_keys (U := basic_latin) (mkSettings true false false)
           [72; 105; 10; 97] [104; 73; 32; 13; 10; 65]).
  - left. discriminate.
  - reflexivity.
Defined.



End TextDiffTheory.

(** * Properties of the password generator *)
Module PasswordGeneratorTheory.
Import PasswordGenerator.
Local Open Scope string_scope.
Local Open Scope Z_scope.

Lemma draw_below_range limit tape value tape' :
  draw_below limit tape = Some (value, tape') -> 0 <= value < limit.
Proof.
  induction tape as [|raw tape IH]; [done|]. simpl.
  destruct (Z.geb_spec (raw mod 2 ^ 32) limit) as [Hge|Hlt]; [done|].
  intros [= <- <-]. pose proof (Z.mod_pos_bound raw (2 ^ 32)). lia.
Qed.

Lemma getSecureRandomInt_range max tape k tape' :
  0 < max -> getSecureRandomInt max tape = Some (k, tape') -> 0 <= k < max.
Proof.
  intros Hmax. unfold getSecureRandomInt.
  destruct (Z.eqb_spec max 0) as [|_]; [lia|].
  unfold mbind, rand_bind.
  destruct (draw_below _ tape) as [[value tape1]|]; [|done].
  intros [= <- <-]. by apply Z.mod_pos_bound.
Qed.

Lemma limit_bound max :
  0 < max <= 2 ^ 31 -> 2 ^ 31 <= 0xffffffff / max * max.
Proof.
  intros Hmax. pose proof (Z.div_mod 0xffffffff max ltac:(lia)) as Hdiv.
  pose proof (Z.mod_pos_bound 0xffffffff max ltac:(lia)) as Hmod.
  change (2 ^ 31) with 2147483648 in *. lia.
Qed.

Lemma supply_cons raw tape :
  supply (raw :: tape) = (if accepted raw then 1 else 0) + supply tape.
Proof.
  unfold supply. simpl. destruct (accepted raw); [|lia].
  simpl. lia.
Qed.

Lemma supply_nonneg tape : 0 <= supply tape.
Proof. unfold supply. lia. Qed.

Lemma draw_below_supply limit tape :
  2 ^ 31 <= limit -> 1 <= supply tape ->
  exists value tape',
    draw_below limit tape = Some (value, tape')
    /\ supply tape - 1 <= supply tape'.
Proof.
  intros Hlimit. induction tape as [|raw tape IH]; [unfold supply; simpl; lia|].
  rewrite supply_cons. intros Hsupply. simpl.
  destruct (Z.geb_spec (raw mod 2 ^ 32) limit) as [Hge|Hlt].
  - assert (accepted raw = false) as Hrej by (unfold accepted; lia).
    rewrite Hrej in *. destruct IH as (value & tape' & -> & ?); [lia|].
    exists value, tape'. split; [done|lia].
  - exists (raw mod 2 ^ 32), tape. split; [done|]. destruct (accepted raw); lia.
Qed.

Lemma getSecureRandomInt_supply max tape :
  0 < max <= 2 ^ 31 -> 1 <= supply tape ->
  exists k tape',
    getSecureRandomInt max tape = Some (k, tape')
    /\ supply tape - 1 <= supply tape'.
Proof.
  intros Hmax Hsupply. unfold getSecureRandomInt.
  destruct (Z.eqb_spec max 0) as [|_]; [lia|].
  destruct (draw_below_supply (0xffffffff / max * max) tape)
    as (value & tape' & Hdraw & ?); [by apply limit_bound|done|].
  exists (value mod max), tape'. split; [|done].
  unfold mbind, rand_bind. by rewrite Hdraw.
Qed.

Lemma get_chars n pool c :
  String.get n pool = Some c -> c ∈ chars pool.
Proof.
  revert n. induction pool as [|x pool IH]; intros n; [done|].
  destruct n as [|n]; simpl.
  - intros [= ->]. left.
  - intros H. right. by apply (IH n).
Qed.

Lemma get_in_range n pool :
  (n < String.length pool)%nat -> is_Some (String.get n pool).
Proof.
  revert n. induction pool as [|x pool IH]; intros n; simpl; [lia|].
  destruct n as [|n]; [eauto|]. intros H. apply IH. lia.
Qed.

(** Inside the pool [charAt] gives one character of the pool. *)
Lemma charAt_in_range pool k :
  0 <= k < strlen pool ->
  exists c, single c (charAt pool k) /\ c ∈ chars pool.
Proof.
  intros Hk. unfold charAt, strlen in *.
  destruct (Z.ltb_spec k 0) as [|_]; [lia|].
  destruct (get_in_range (Z.to_nat k) pool) as [c Hc]; [lia|].
  rewrite Hc. exists c. split; [done|]. by eapply get_chars.
Qed.

(** No pool is empty: the ambiguous characters are a few of each set. *)
Lemma pools_nonempty options pool :
  pool ∈ pools_of options -> 0 < strlen pool <= 2 ^ 31.
Proof.
  destruct options as [[] [] [] [] []]; unfold pools_of; simpl;
    rewrite ?elem_of_cons, ?elem_of_nil; intros H;
    repeat (destruct H as [->|H]; [by vm_compute|]); done.
Qed.

Lemma pools_count options : (List.length (pools_of options) <= 4)%nat.
Proof. destruct options as [[] [] [] [] []]; vm_compute; lia. Qed.

Lemma fullCharset_nonempty options :
  isValid options = true ->
  0 < strlen (join (pools_of options)) <= 2 ^ 31.
Proof. destruct options as [[] [] [] [] []]; try done; by vm_compute. Qed.

Lemma bind_Some {A B} (m : Rand A) (k : A -> Rand B) tape b tape' :
  (m ≫= k) tape = Some (b, tape') ->
  exists a tape1, m tape = Some (a, tape1) /\ k a tape1 = Some (b, tape').
Proof.
  unfold mbind, rand_bind. destruct (m tape) as [[a tape1]|]; [|done]. eauto.
Qed.

(** One pick per pool, each a character of its pool. *)
Lemma pick_each_spec pools : forall tape picked tape',
  (forall pool, pool ∈ pools -> 0 < strlen pool <= 2 ^ 31) ->
  pick_each pools tape = Some (picked, tape') ->
  Forall2 (λ pool part, exists c, single c part /\ c ∈ chars pool) pools picked.
Proof.
  induction pools as [|pool pools IH]; intros tape picked tape' Hpools.
  - intros [= <- <-]. constructor.
  - cbn [pick_each]. intros H.
    apply bind_Some in H as (k & tape1 & Hk & H).
    apply bind_Some in H as (rest & tape2 & Hrest & H).
    injection H as <- <-.
    apply getSecureRandomInt_range in Hk; [|apply Hpools; left].
    constructor.
    + by apply charAt_in_range.
    + eapply IH; [|done]. intros p Hp. apply Hpools. by right.
Qed.

Lemma pick_each_supply pools : forall tape,
  (forall pool, pool ∈ pools -> 0 < strlen pool <= 2 ^ 31) ->
  Z.of_nat (List.length pools) <= supply tape ->
  exists picked tape',
    pick_each pools tape = Some (picked, tape')
    /\ supply tape - Z.of_nat (List.length pools) <= supply tape'.
Proof.
  induction pools as [|pool pools IH]; intros tape Hpools Hsupply.
  - exists [], tape. split; [done|simpl; lia].
  - cbn [List.length] in *.
    destruct (getSecureRandomInt_supply (strlen pool) tape)
      as (k & tape1 & Hk & Hs1); [apply Hpools; left|lia|].
    destruct (IH tape1) as (rest & tape2 & Hrest & Hs2);
      [intros p Hp; apply Hpools; by right|lia|].
    exists (charAt pool k :: rest), tape2. split; [|lia].
    cbn [pick_each]. unfold mbind, rand_bind. by rewrite Hk, Hrest.
Qed.

(** The filler appends [count] single characters. *)
Lemma fill_remaining_spec fullCharset count :
  forall passwordChars tape filled tape',
  0 < strlen fullCharset ->
  fill_remaining count fullCharset passwordChars tape = Some (filled, tape') ->
  exists extra,
    filled = (passwordChars ++ extra)%list
    /\ List.length extra = count /\ Forall is_single extra.
Proof.
  induction count as [|count IH]; intros passwordChars tape filled tape' Hfull.
  - intros [= <- <-]. exists []. by rewrite app_nil_r.
  - cbn [fill_remaining]. intros H.
    apply bind_Some in H as (k & tape1 & Hk & H).
    apply getSecureRandomInt_range in Hk; [|done].
    destruct (IH _ _ _ _ Hfull H) as (extra & -> & Hlen & Hall).
    exists (charAt fullCharset k :: extra). rewrite <- app_assoc.
    split; [done|]. split; [simpl; lia|].
    constructor; [|done].
    destruct (charAt_in_range fullCharset k Hk) as (c & Hc & _). by exists c.
Qed.

Lemma fill_remaining_supply fullCharset count : forall passwordChars tape,
  0 < strlen fullCharset <= 2 ^ 31 ->
  Z.of_nat count <= supply tape ->
  exists filled tape',
    fill_remaining count fullCharset passwordChars tape = Some (filled, tape')
    /\ supply tape - Z.of_nat count <= supply tape'.
Proof.
  induction count as [|count IH]; intros passwordChars tape Hfull Hsupply.
  - exists passwordChars, tape. split; [done|simpl; lia].
  - destruct (getSecureRandomInt_supply (strlen fullCharset) tape)
      as (k & tape1 & Hk & Hs1); [done|lia|].
    destruct (IH (passwordChars ++ [charAt fullCharset k])%list tape1)
      as (filled & tape2 & Hfill & Hs2); [done|lia|].
    exists filled, tape2. split; [|lia].
    cbn [fill_remaining]. unfold mbind, rand_bind. by rewrite Hk.
Qed.

(** A swap inside the array moves its elements and loses none. *)
Lemma swap_length a i j : List.length (swap a i j) = List.length a.
Proof. unfold swap. by rewrite !length_insert. Qed.

Lemma swap_elem a i j x :
  (i < List.length a)%nat -> (j < List.length a)%nat ->
  x ∈ a -> x ∈ swap a i j.
Proof.
  intros Hi Hj Hx. apply list_elem_of_lookup in Hx as [k Hk].
  destruct (lookup_lt_is_Some_2 a i Hi) as [ai Hai].
  destruct (lookup_lt_is_Some_2 a j Hj) as [aj Haj].
  unfold swap. rewrite Hai, Haj. simpl.
  apply list_elem_of_lookup.
  destruct (decide (k = i)) as [->|Hki].
  - exists j. rewrite list_lookup_insert_eq by (by rewrite length_insert).
    congruence.
  - destruct (decide (k = j)) as [->|Hkj].
    + exists i. rewrite list_lookup_insert_ne by done.
      rewrite list_lookup_insert_eq by done. congruence.
    + exists k. by rewrite !list_lookup_insert_ne.
Qed.

Lemma swap_single a i j :
  (i < List.length a)%nat -> (j < List.length a)%nat ->
  Forall is_single a -> Forall is_single (swap a i j).
Proof.
  intros Hi Hj Ha. unfold swap.
  destruct (lookup_lt_is_Some_2 a i Hi) as [ai Hai].
  destruct (lookup_lt_is_Some_2 a j Hj) as [aj Haj].
  rewrite Hai, Haj. simpl. rewrite Forall_forall in Ha.
  repeat apply Forall_insert; [by apply Forall_forall|..];
    apply Ha; by eapply list_elem_of_lookup_2.
Qed.

(** The shuffle keeps the length, the elements and their shape. *)
Lemma shuffle_spec indices : forall passwordChars tape shuffled tape',
  (forall i, i ∈ indices -> (i < List.length passwordChars)%nat) ->
  shuffle indices passwordChars tape = Some (shuffled, tape') ->
  List.length shuffled = List.length passwordChars
  /\ (forall x, x ∈ passwordChars -> x ∈ shuffled)
  /\ (Forall is_single passwordChars -> Forall is_single shuffled).
Proof.
  induction indices as [|i indices IH];
    intros passwordChars tape shuffled tape' Hin.
  - by intros [= <- <-].
  - cbn [shuffle]. intros H. apply bind_Some in H as (j & tape1 & Hj & H).
    apply getSecureRandomInt_range in Hj; [|lia].
    assert (i < List.length passwordChars)%nat as Hi by (apply Hin; left).
    assert (Z.to_nat j < List.length passwordChars)%nat as Hj' by lia.
    apply IH in H as (Hlen & Helem & Hsingle).
    + rewrite swap_length in Hlen. split; [done|]. split.
      * intros x Hx. by apply Helem, swap_elem.
      * intros Hall. by apply Hsingle, swap_single.
    + intros i' Hi'. rewrite swap_length. apply Hin. by right.
Qed.

Lemma shuffle_supply indices : forall passwordChars tape,
  (forall i, i ∈ indices -> Z.of_nat i + 1 <= 2 ^ 31) ->
  Z.of_nat (List.length indices) <= supply tape ->
  exists shuffled tape', shuffle indices passwordChars tape = Some (shuffled, tape').
Proof.
  induction indices as [|i indices IH]; intros passwordChars tape Hin Hsupply.
  - by exists passwordChars, tape.
  - cbn [List.length] in Hsupply.
    destruct (getSecureRandomInt_supply (Z.of_nat i + 1) tape)
      as (j & tape1 & Hj & Hs1); [split; [lia|apply Hin; left]|lia|].
    destruct (IH (swap passwordChars i (Z.to_nat j)) tape1)
      as (shuffled & tape2 & Hshuffle);
      [intros i' Hi'; apply Hin; by right|lia|].
    exists shuffled, tape2. cbn [shuffle]. unfold mbind, rand_bind. by rewrite Hj.
Qed.

Lemma join_cons part parts :
  join (part :: parts) = (part ++ join parts)%string.
Proof.
  unfold join. destruct parts as [|p parts]; simpl; [|done].
  induction part as [|c part IH]; [done|]. simpl. by rewrite <- IH.
Qed.

Lemma chars_append s1 s2 : chars (s1 ++ s2) = (chars s1 ++ chars s2)%list.
Proof. induction s1 as [|c s1 IH]; [done|]. unfold chars in *. simpl. by rewrite IH. Qed.

(** The password has one character per part, and every part's character. *)
Lemma join_singles parts :
  Forall is_single parts ->
  strlen (join parts) = Z.of_nat (List.length parts)
  /\ forall c, String c "" ∈ parts -> c ∈ chars (join parts).
Proof.
  induction 1 as [|part parts [c0 Hc0] _ [IHlen IHin]].
  - split; [done|]. intros c Hc. by apply elem_of_nil in Hc.
  - unfold single in Hc0. subst part. split.
    + rewrite join_cons. unfold strlen in *. simpl. lia.
    + intros c Hc. rewrite join_cons, chars_append. apply elem_of_app.
      apply elem_of_cons in Hc as [[= ->]|Hc]; [left; left|right; by apply IHin].
Qed.

Lemma elem_of_countdown i n : i ∈ rev (seq 1 n) -> (1 <= i <= n)%nat.
Proof.
  intros Hi. apply list_elem_of_In, in_rev, in_seq in Hi. lia.
Qed.

(** Whenever [generate] returns, the password has the length asked for, or
    one character per active pool if that is more, and covers every
    active pool. *)
Lemma generate_sound length options tape password tape' :
  isValid options = true ->
  generate length options tape = Some (password, tape') ->
  strlen password = Z.max length (active_pools options)
  /\ covers options password.
Proof.
  intros Hvalid. unfold generate. rewrite Hvalid. cbn [negb].
  pose proof (fullCharset_nonempty options Hvalid) as Hfull.
  destruct (Z.eqb_spec (strlen (join (pools_of options))) 0) as [|_]; [lia|].
  intros H. apply bind_Some in H as (picked & tape1 & Hpick & H).
  apply bind_Some in H as (filled & tape2 & Hfill & H).
  apply bind_Some in H as (shuffled & tape3 & Hshuffle & H).
  injection H as <- <-.
  apply pick_each_spec in Hpick; [|apply pools_nonempty].
  apply fill_remaining_spec in Hfill as (extra & -> & Hextra & Hsingles);
    [|lia].
  apply shuffle_spec in Hshuffle as (Hlen & Helem & Hshape).
  2:{ intros i Hi. apply elem_of_countdown in Hi. lia. }
  pose proof (Forall2_length _ _ _ Hpick) as Hcount.
  assert (Forall is_single picked) as Hpicked.
  { clear -Hpick. induction Hpick as [|pool part ? ? (c & ? & _)]; constructor;
      [by exists c|done]. }
  destruct (join_singles shuffled) as [Hstrlen Hchars].
  { apply Hshape, Forall_app. by split. }
  split.
  - rewrite Hstrlen, Hlen, length_app, Hextra. unfold active_pools.
    rewrite <- Hcount in *. lia.
  - intros pool Hpool. apply list_elem_of_lookup in Hpool as [i Hi].
    destruct (Forall2_lookup_l _ _ _ _ _ Hpick Hi) as (part & Hpart & c & Hc & Hin).
    exists c. split; [done|]. apply Hchars, Helem, elem_of_app. left.
    unfold single in Hc. subst part. by eapply list_elem_of_lookup_2.
Qed.

(** And it returns, once the source has supplied two acceptable values per
    character of the password. *)
Lemma generate_returns length options tape :
  isValid options = true ->
  length <= 2 ^ 31 ->
  2 * Z.max length (active_pools options) <= supply tape ->
  exists password tape', generate length options tape = Some (password, tape').
Proof.
  intros Hvalid Hlength Hsupply. unfold generate. rewrite Hvalid. cbn [negb].
  pose proof (fullCharset_nonempty options Hvalid) as Hfull.
  pose proof (pools_count options) as Hcount.
  destruct (Z.eqb_spec (strlen (join (pools_of options))) 0) as [|_]; [lia|].
  unfold active_pools in Hsupply.
  destruct (pick_each_supply (pools_of options) tape)
    as (picked & tape1 & Hpick & Hs1); [apply pools_nonempty|lia|].
  pose proof (pick_each_spec _ _ _ _ (pools_nonempty options) Hpick) as Hspec.
  apply Forall2_length in Hspec.
  set (count := Z.to_nat (Z.max length (Z.of_nat (List.length picked))
                          - Z.of_nat (List.length picked))).
  destruct (fill_remaining_supply (join (pools_of options)) count picked tape1)
    as (filled & tape2 & Hfill & Hs2); [done|lia|].
  destruct (fill_remaining_spec _ _ _ _ _ _ (proj1 Hfull) Hfill)
    as (extra & Hfilled & Hextra & _).
  assert (List.length filled = (List.length picked + count)%nat) as Hlen
    by (by rewrite Hfilled, length_app, Hextra).
  destruct (shuffle_supply (rev (seq 1 (List.length filled - 1))) filled tape2)
    as (shuffled & tape3 & Hshuffle).
  { intros i Hi. apply elem_of_countdown in Hi. lia. }
  { rewrite length_rev, length_seq. lia. }
  exists (join shuffled), tape3.
  unfold mbind, rand_bind. rewrite Hpick. fold count. rewrite Hfill.
  by rewrite Hshuffle.
Qed.

(** C6.  With at least one class active: whenever the generator returns a
    password, its length is the length asked for, or the number of active
    pools if that is more, and it has a character of every active pool; and
    the generator does return once the random source has supplied two
    acceptable values per character. *)
Theorem generate_covers_pools length options tape :
  isValid options = true ->
  (forall password tape',
     generate length options tape = Some (password, tape') ->
     strlen password = Z.max length (active_pools options)
     /\ covers options password)
  /\ (length <= 2 ^ 31 ->
      2 * Z.max length (active_pools options) <= supply tape ->
      exists password tape',
        generate length options tape = Some (password, tape')).
Proof.
  intros Hvalid. split.
  - intros password tape'. by apply generate_sound.
  - by apply generate_returns.
Qed.

(** Four pools and a length of 2: a password of four characters. *)
Lemma generate_covers_pools_witness :
  isValid all_classes = true
  /\ exists password tape',
       generate 2 all_classes [7; 4294967295; 30; 5; 11; 3; 2; 1; 0] = Some (password, tape')
       /\ strlen password = 4
       /\ covers all_classes password.
Proof.
  split; [reflexivity|].
  destruct (generate_covers_pools 2 all_classes
              [7; 4294967295; 30; 5; 11; 3; 2; 1; 0] eq_refl)
    as [Hsound Hreturns].
  destruct Hreturns as (password & tape' & Hgen); [by vm_compute..|].
  exists password, tape'. split; [exact Hgen|]. exact (Hsound password tape' Hgen).
Defined.

(** The same run, evaluated: the second draw is at the limit and is
    rejected, one draw is left over. *)
Example generate_four_pools :
  generate 2 all_classes [7; 4294967295; 30; 5; 11; 3; 2; 1; 0]
  = Some ("Hf7+", [0]).
Proof. reflexivity. Qed.

(** *** The rejection loop is unbiased *)

(** The loop skips the values at or above the limit, all of them, and
    stops at the first value below it. *)
Lemma draw_below_iff limit tape v tape' :
  draw_below limit tape = Some (v, tape')
  <-> exists rejected value,
        tape = (rejected ++ value :: tape')%list
        /\ Forall (λ raw, limit <= raw mod 2 ^ 32) rejected
        /\ value mod 2 ^ 32 < limit /\ v = value mod 2 ^ 32.
Proof.
  split.
  - induction tape as [|raw tape IH]; [done|]. cbn [draw_below].
    destruct (Z.geb_spec (raw mod 2 ^ 32) limit) as [Hge|Hlt].
    + intros H. destruct (IH H) as (rejected & value & -> & Hrej & Hv & ->).
      exists (raw :: rejected), value. split; [done|].
      split; [by constructor|done].
    + intros [= <- <-]. exists [], raw. split; [done|]. split; [constructor|done].
  - intros (rejected & value & -> & Hrej & Hv & ->).
    induction Hrej as [|raw rejected Hraw _ IH]; cbn [app draw_below].
    + destruct (Z.geb_spec (value mod 2 ^ 32) limit) as [|_]; [lia|done].
    + destruct (Z.geb_spec (raw mod 2 ^ 32) limit) as [_|]; [exact IH|lia].
Qed.

(** X11.  [getSecureRandomInt(max)] is free of modulo bias.  It returns
    [r], leaving [tape'] of the source, exactly when the source supplied any
    number of values at or above the limit [floor(0xffffffff / max) * max]
    (each one is rejected and another drawn) and then a value
    [k * max + r] with [k] below [floor(0xffffffff / max)]: every draw is
    tested against the limit, and every result below [max] has the same
    number of values that produce it. *)
Theorem getSecureRandomInt_uniform max tape r tape' :
  0 < max ->
  getSecureRandomInt max tape = Some (r, tape')
  <-> exists rejected value k,
        tape = (rejected ++ value :: tape')%list
        /\ Forall (λ raw, 0xffffffff / max * max <= raw mod 2 ^ 32) rejected
        /\ 0 <= k < 0xffffffff / max /\ 0 <= r < max
        /\ value mod 2 ^ 32 = k * max + r.
Proof.
  intros Hmax. unfold getSecureRandomInt.
  destruct (Z.eqb_spec max 0) as [|_]; [lia|].
  set (q := 0xffffffff / max).
  assert (forall v, 0 <= v ->
            (v < q * max /\ v mod max = r)
            <-> exists k, 0 <= k < q /\ 0 <= r < max /\ v = k * max + r)
    as Hresidue.
  { intros v Hv.
    pose proof (Z.div_mod v max ltac:(lia)) as Hdiv.
    pose proof (Z.mod_pos_bound v max Hmax) as Hmod. split.
    - intros [Hlt <-]. exists (v / max). split; [|split; [done|lia]].
      split; [apply Z.div_pos; lia|]. apply Z.div_lt_upper_bound; lia.
    - intros (k & Hk & Hr & ->). split; [nia|].
      rewrite Z.add_comm, Z.mod_add by lia. by apply Z.mod_small. }
  unfold mbind, rand_bind, mret, rand_ret. split.
  - destruct (draw_below (q * max) tape) as [[v tape1]|] eqn:Hdraw; [|done].
    intros [= <- <-].
    apply draw_below_iff in Hdraw as (rejected & value & -> & Hrej & Hv & ->).
    pose proof (Z.mod_pos_bound value (2 ^ 32) ltac:(lia)) as Hrange.
    destruct (proj1 (Hresidue (value mod 2 ^ 32) (proj1 Hrange)))
      as (k & Hk & Hr & Heq); [done|].
    by exists rejected, value, k.
  - intros (rejected & value & k & -> & Hrej & Hk & Hr & Heq).
    pose proof (Z.mod_pos_bound value (2 ^ 32) ltac:(lia)) as Hrange.
    destruct (proj2 (Hresidue (value mod 2 ^ 32) (proj1 Hrange)))
      as [Hlt Hmod]; [by exists k|].
    rewrite (proj2 (draw_below_iff (q * max)
                      (rejected ++ value :: tape') (value mod 2 ^ 32) tape'))
      by (by exists rejected, value).
    by rewrite Hmod.
Qed.

(** Two values at or above the limit 4294967274, then 31 = 1 * 26 + 5. *)
Lemma getSecureRandomInt_uniform_witness :
  getSecureRandomInt 26 [4294967295; 4294967274; 31; 7] = Some (5, [7])
  /\ exists rejected value k,
       [4294967295; 4294967274; 31; 7] = (rejected ++ value :: [7])%list
       /\ Forall (λ raw, 0xffffffff / 26 * 26 <= raw mod 2 ^ 32) rejected
       /\ 0 <= k < 0xffffffff / 26 /\ 0 <= 5 < 26
       /\ value mod 2 ^ 32 = k * 26 + 5.
Proof.
  pose proof (getSecureRandomInt_uniform 26
                [4294967295; 4294967274; 31; 7] 5 [7] eq_refl) as [Hto Hfrom].
  assert (getSecureRandomInt 26 [4294967295; 4294967274; 31; 7]
          = Some (5, [7])) as Hrun.
  { apply Hfrom. exists [4294967295; 4294967274], 31, 1.
    split; [reflexivity|]. split; [|by vm_compute].
    repeat constructor; by vm_compute. }
  split; [exact Hrun|exact (Hto Hrun)].
Defined.

(** *** The shuffle *)

Lemma swap_perm (a : list string) i j :
  (i < List.length a)%nat -> (j < List.length a)%nat -> swap a i j ≡ₚ a.
Proof.
  intros Hi Hj.
  destruct (lookup_lt_is_Some_2 a i Hi) as [ai Hai].
  destruct (lookup_lt_is_Some_2 a j Hj) as [aj Haj].
  unfold swap. rewrite Hai, Haj. simpl. by apply Permutation_insert_swap.
Qed.

Lemma shuffle_perm indices : forall passwordChars tape shuffled tape',
  (forall i, i ∈ indices -> (i < List.length passwordChars)%nat) ->
  shuffle indices passwordChars tape = Some (shuffled, tape') ->
  shuffled ≡ₚ passwordChars.
Proof.
  induction indices as [|i indices IH];
    intros passwordChars tape shuffled tape' Hin.
  - by intros [= <- <-].
  - cbn [shuffle]. intros H. apply bind_Some in H as (j & tape1 & Hj & H).
    apply getSecureRandomInt_range in Hj; [|lia].
    assert (i < List.length passwordChars)%nat as Hi by (apply Hin; left).
    apply IH in H.
    + rewrite H. apply swap_perm; lia.
    + intros i' Hi'. rewrite swap_length. apply Hin. by right.
Qed.

(** X12.  The Fisher-Yates loop of [generate] only rearranges the array:
    whatever it returns is a permutation of what it was given; and it does
    return, for an array of up to 2^31 elements, once the random source has
    supplied one acceptable value per position it shuffles. *)
Theorem shuffle_permutation passwordChars tape :
  (forall shuffled tape',
     shuffle (rev (seq 1 (List.length passwordChars - 1))) passwordChars tape
     = Some (shuffled, tape') ->
     shuffled ≡ₚ passwordChars)
  /\ (Z.of_nat (List.length passwordChars) <= 2 ^ 31 ->
      Z.of_nat (List.length passwordChars - 1) <= supply tape ->
      exists shuffled tape',
        shuffle (rev (seq 1 (List.length passwordChars - 1))) passwordChars
          tape = Some (shuffled, tape')
        /\ shuffled ≡ₚ passwordChars).
Proof.
  assert (forall i, i ∈ rev (seq 1 (List.length passwordChars - 1)) ->
            (i < List.length passwordChars)%nat) as Hin.
  { intros i Hi. apply elem_of_countdown in Hi. lia. }
  split.
  - intros shuffled tape'. by apply shuffle_perm.
  - intros Hlength Hsupply.
    destruct (shuffle_supply (rev (seq 1 (List.length passwordChars - 1)))
                passwordChars tape) as (shuffled & tape' & Hshuffle).
    + intros i Hi. specialize (Hin i Hi). lia.
    + by rewrite length_rev, length_seq.
    + exists shuffled, tape'. split; [done|]. by eapply shuffle_perm.
Qed.

(** Three characters, a rejected value and two accepted ones. *)
Lemma shuffle_permutation_witness :
  exists shuffled tape',
    shuffle (rev (seq 1 (List.length ["a"; "b"; "c"] - 1))) ["a"; "b"; "c"]
      [4294967295; 1; 0] = Some (shuffled, tape')
    /\ shuffled ≡ₚ ["a"; "b"; "c"].
Proof.
  apply (proj2 (shuffle_permutation ["a"; "b"; "c"] [4294967295; 1; 0]));
    by vm_compute.
Defined.

(** *** The alphabet of a password *)

Lemma remove_char_chars char set :
  chars (remove_char char set)
  = List.filter (λ c, negb (Ascii.eqb c char)) (chars set).
Proof.
  induction set as [|c set IH]; [done|]. simpl.
  destruct (Ascii.eqb c char); simpl; by rewrite IH.
Qed.

Lemma remove_chars_chars ambiguous : forall set,
  chars (fold_left (λ result char, remove_char char result) ambiguous set)
  = List.filter (λ c, negb (existsb (Ascii.eqb c) ambiguous)) (chars set).
Proof.
  induction ambiguous as [|a ambiguous IH]; intros set; simpl.
  - induction (chars set) as [|c l IHl]; [done|]. simpl. by f_equal.
  - rewrite IH, remove_char_chars. clear IH.
    induction (chars set) as [|c l IHl]; [done|]. simpl.
    destruct (Ascii.eqb c a); simpl; [done|].
    destruct (existsb (Ascii.eqb c) ambiguous); simpl; by rewrite IHl.
Qed.

(** What [sanitize] keeps of a set. *)
Lemma sanitize_chars options set :
  chars (sanitize options set)
  = if excludeAmbiguous options
    then List.filter (λ c, negb (includes CHARSETS_ambiguous c)) (chars set)
    else chars set.
Proof.
  unfold sanitize. destruct (excludeAmbiguous options); [|done].
  apply remove_chars_chars.
Qed.

Lemma includes_elem set c : includes set c = true <-> c ∈ chars set.
Proof.
  unfold includes, chars. rewrite existsb_exists, list_elem_of_In. split.
  - intros (x & Hx & Heq). apply Ascii.eqb_eq in Heq. by subst.
  - intros Hc. exists c. split; [done|apply Ascii.eqb_refl].
Qed.

Lemma chars_join_elem pools pool c :
  pool ∈ pools -> c ∈ chars pool -> c ∈ chars (join pools).
Proof.
  induction 1 as [pool pools|pool other pools _ IH]; intros Hc;
    rewrite join_cons, chars_append, elem_of_app; auto.
Qed.

Lemma chars_join_inv pools c :
  c ∈ chars (join pools) -> exists pool, pool ∈ pools /\ c ∈ chars pool.
Proof.
  induction pools as [|pool pools IH]; [by intros ?%elem_of_nil|].
  rewrite join_cons, chars_append, elem_of_app. intros [Hc|Hc].
  - exists pool. split; [left|done].
  - destruct (IH Hc) as (p & Hp & Hcp). exists p. split; [by right|done].
Qed.

Lemma pools_of_sanitized options pool :
  pool ∈ pools_of options ->
  exists set, pool = sanitize options set.
Proof.
  unfold pools_of. intros H.
  repeat (apply elem_of_app in H as [H|H]);
    repeat match goal with
           | H : _ ∈ (if ?b then _ else _) |- _ => destruct b
           end;
    try (by apply elem_of_nil in H);
    apply list_elem_of_singleton in H; eauto.
Qed.

Lemma fill_remaining_from fullCharset count :
  forall passwordChars tape filled tape',
  0 < strlen fullCharset ->
  fill_remaining count fullCharset passwordChars tape = Some (filled, tape') ->
  exists extra,
    filled = (passwordChars ++ extra)%list
    /\ Forall (drawn_from fullCharset) extra.
Proof.
  induction count as [|count IH]; intros passwordChars tape filled tape' Hfull.
  - intros [= <- <-]. exists []. by rewrite app_nil_r.
  - cbn [fill_remaining]. intros H.
    apply bind_Some in H as (k & tape1 & Hk & H).
    apply getSecureRandomInt_range in Hk; [|done].
    destruct (IH _ _ _ _ Hfull H) as (extra & -> & Hall).
    exists (charAt fullCharset k :: extra). rewrite <- app_assoc.
    split; [done|]. constructor; [|done]. by apply charAt_in_range.
Qed.

Lemma join_drawn fullCharset parts :
  Forall (drawn_from fullCharset) parts ->
  Forall (λ c, c ∈ chars fullCharset) (chars (join parts)).
Proof.
  induction 1 as [|part parts (c & Hc & Hin) _ IH]; [constructor|].
  unfold single in Hc. subst part. rewrite join_cons, chars_append.
  apply Forall_app. split; [|done]. by constructor.
Qed.

(** X13.  The characters of a password are characters of the classes that are
    switched on, and with exclude-ambiguous on none of them is one of
    [Il1O0]: the filler draws from the sanitized pools, as the picks do. *)
Theorem generate_alphabet length options tape password tape' :
  generate length options tape = Some (password, tape') ->
  Forall (λ c, c ∈ chars (join (pools_of options))) (chars password)
  /\ (excludeAmbiguous options = true ->
      Forall (λ c, c ∉ chars CHARSETS_ambiguous) (chars password)).
Proof.
  intros Hgen.
  assert (Forall (λ c, c ∈ chars (join (pools_of options))) (chars password))
    as Hall.
  { unfold generate in Hgen.
    destruct (isValid options) eqn:Hvalid; cbn [negb] in Hgen;
      [|injection Hgen as <- <-; constructor].
    pose proof (fullCharset_nonempty options Hvalid) as Hfull.
    destruct (Z.eqb_spec (strlen (join (pools_of options))) 0) as [|_]; [lia|].
    apply bind_Some in Hgen as (picked & tape1 & Hpick & H).
    apply bind_Some in H as (filled & tape2 & Hfill & H).
    apply bind_Some in H as (shuffled & tape3 & Hshuffle & H).
    injection H as <- <-.
    apply pick_each_spec in Hpick; [|apply pools_nonempty].
    apply fill_remaining_from in Hfill as (extra & -> & Hextra); [|lia].
    apply shuffle_perm in Hshuffle.
    2:{ intros i Hi. apply elem_of_countdown in Hi. lia. }
    apply join_drawn. rewrite Hshuffle. apply Forall_app. split; [|done].
    apply Forall_forall. intros part Hpart.
    apply list_elem_of_lookup in Hpart as [i Hi].
    destruct (Forall2_lookup_r _ _ _ _ _ Hpick Hi)
      as (pool & Hpool & c & Hc & Hin).
    exists c. split; [done|].
    eapply chars_join_elem; [by eapply list_elem_of_lookup_2|done]. }
  split; [done|]. intros Hexclude.
  eapply Forall_impl; [exact Hall|]. intros c Hc Hamb. cbn beta in *.
  apply chars_join_inv in Hc as (pool & Hpool & Hcp).
  apply pools_of_sanitized in Hpool as [set ->].
  rewrite sanitize_chars, Hexclude in Hcp.
  apply list_elem_of_In, filter_In in Hcp as [_ Hkeep].
  apply includes_elem in Hamb. by rewrite Hamb in Hkeep.
Qed.

Lemma generate_alphabet_witness :
  Forall (λ c, c ∈ chars (join (pools_of (mkOptions true false true false true))))
    (chars "L3ND9A")
  /\ (excludeAmbiguous (mkOptions true false true false true) = true ->
      Forall (λ c, c ∉ chars CHARSETS_ambiguous) (chars "L3ND9A")).
Proof.
  apply (generate_alphabet 6 (mkOptions true false true false true)
           [34; 4294967295; 9; 3; 12; 31; 0; 5; 4; 2; 2; 1; 0] "L3ND9A" [0]).
  reflexivity.
Defined.

(** *** The entropy shown *)

Lemma strlen_chars set : strlen set = Z.of_nat (List.length (chars set)).
Proof.
  unfold strlen. f_equal. induction set as [|c set IH]; [done|].
  simpl. by rewrite IH.
Qed.

Lemma sanitizeSize_strlen options set :
  sanitizeSize options set = strlen (sanitize options set).
Proof.
  rewrite (strlen_chars (sanitize options set)), sanitize_chars.
  unfold sanitizeSize.
  destruct (excludeAmbiguous options); cbn [negb]; [|apply strlen_chars].
  fold (chars set).
  assert (forall l count,
            fold_left (λ count char,
                         if negb (includes CHARSETS_ambiguous char)
                         then count + 1 else count) l count
            = count + Z.of_nat (List.length
                (List.filter (λ c, negb (includes CHARSETS_ambiguous c)) l)))
    as Hcount.
  { induction l as [|c l IH]; intros count; simpl; [lia|].
    rewrite IH. destruct (negb (includes CHARSETS_ambiguous c)); simpl; lia. }
  by rewrite Hcount.
Qed.

Lemma strlen_append s1 s2 : strlen (s1 ++ s2) = strlen s1 + strlen s2.
Proof. rewrite !strlen_chars, chars_append, length_app. lia. Qed.

Lemma charsetSize_fullCharset options :
  charsetSize options = strlen (join (pools_of options)).
Proof.
  unfold charsetSize, pools_of.
  destruct (uppercase options), (lowercase options), (numbers options),
    (symbols options); cbn [app];
    rewrite ?join_cons, ?strlen_append, ?sanitizeSize_strlen;
    change (strlen (join [])) with 0; lia.
Qed.

(** X14.  The entropy shown beside a password is computed over the size of the
    very alphabet [generate] fills from (the sanitized pools, joined), which
    is never empty when a class is switched on; with no class on it is 0. *)
Theorem entropy_alphabet bits length options :
  entropy bits length options
  = if isValid options
    then bits length (strlen (join (pools_of options)))
    else 0.
Proof.
  unfold entropy. destruct (isValid options) eqn:Hvalid; [|done].
  cbn [negb]. rewrite charsetSize_fullCharset.
  pose proof (fullCharset_nonempty options Hvalid) as Hfull.
  destruct (Z.eqb_spec (strlen (join (pools_of options))) 0) as [|_]; [lia|done].
Qed.

End PasswordGeneratorTheory.

(** * Properties of the crypto codec *)
Module ClipboardTheory.
Import Clipboard.
Local Open Scope string_scope.

(** A call that is not in an explicit record of calls. *)
Ltac not_called :=
  let H := fresh in
  cbn [calls calls_to_mac app]; intros H;
  repeat (apply elem_of_cons in H as [H|H]; [discriminate H|]);
  by apply elem_of_nil in H.

Section Codec.
Context {P : Platform}.

Lemma bind_returns {A B} (m : Run A) (k : A -> Run B) a :
  outcome m = inl a ->
  m ≫= k = mkRun (calls m ++ calls (k a)) (outcome (k a)).
Proof. intros H. unfold mbind, run_bind. by rewrite H. Qed.

Lemma bind_throws {A B} (m : Run A) (k : A -> Run B) e :
  outcome m = inr e -> m ≫= k = mkRun (calls m) (inr e).
Proof. intros H. unfold mbind, run_bind. by rewrite H. Qed.

(** A payload that fails the first [try]: unparseable, or parsed to a
    value on which a checked field is falsy. *)
Lemma parse_payload_rejects packed :
  (JSON_parse packed = None
   \/ exists payload k,
        JSON_parse packed = Some payload
        /\ k ∈ checked_fields /\ truthy (prop payload k) = false) ->
  parse_payload packed = mkRun [JSON_parse_call] (inr (CryptoError INVALID_PAYLOAD)).
Proof.
  unfold parse_payload. intros [Hparse|(payload & k & Hparse & Hk & Hfalsy)];
    rewrite Hparse; [done|].
  unfold try_catch, mbind, run_bind, lib. cbn [outcome calls].
  destruct (readable payload); [|done]. cbn [negb].
  unfold checked_fields in Hk.
  rewrite !elem_of_cons, elem_of_nil in Hk.
  destruct Hk as [->|[->|[->|[->|[->|[]]]]]]; rewrite Hfalsy; cbn [negb orb];
    rewrite ?orb_true_r; done.
Qed.

Lemma parse_payload_accepts packed payload :
  JSON_parse packed = Some payload ->
  readable payload = true ->
  Forall (λ k, truthy (prop payload k) = true) checked_fields ->
  parse_payload packed = mkRun [JSON_parse_call] (inl payload).
Proof.
  intros Hparse Hreadable Hfields. unfold parse_payload. rewrite Hparse.
  unfold try_catch, mbind, run_bind, lib. cbn [outcome calls].
  rewrite Hreadable. cbn [negb].
  unfold checked_fields in Hfields.
  repeat (apply Forall_cons in Hfields as [-> Hfields]). done.
Qed.

(** C9, as the code has it.  An input that is not parseable JSON, or
    whose [v], [ct], [s], [iv] or [mac] is absent, is refused with
    [INVALID_PAYLOAD], after the one call to [JSON.parse]. *)
Theorem decryptText_invalid_payload packed passphrase :
  (JSON_parse packed = None
   \/ exists payload k,
        JSON_parse packed = Some payload
        /\ k ∈ checked_fields /\ prop payload k = JUndefined) ->
  decryptText packed passphrase
    = mkRun [JSON_parse_call] (inr (CryptoError INVALID_PAYLOAD)).
Proof.
  intros H. unfold decryptText.
  assert (parse_payload packed
          = mkRun [JSON_parse_call] (inr (CryptoError INVALID_PAYLOAD)))
    as Hrejected.
  { apply parse_payload_rejects.
    destruct H as [?|(payload & k & ? & ? & Hk)]; [by left|right].
    exists payload, k. by rewrite Hk. }
  by rewrite (bind_throws _ _ (CryptoError INVALID_PAYLOAD)), Hrejected
    by by rewrite Hrejected.
Qed.
(** [decryptText] on a payload that passes the first [try] and the
    version check, the library returning normally up to the MAC: what is
    left is the comparison of the MACs and, behind it, the decryption. *)
Lemma decryptText_to_mac packed passphrase payload x salt iv derived
    dataToAuth expectedMac :
  JSON_parse packed = Some payload ->
  readable payload = true ->
  Forall (λ k, truthy (prop payload k) = true) checked_fields ->
  prop payload "v" = JNum x -> SFeqb x VERSION = true ->
  Hex_parse (prop payload "s") = Some salt ->
  Hex_parse (prop payload "iv") = Some iv ->
  PBKDF2 passphrase salt = Some derived ->
  join "|" [ JStr (Number_toString x); prop payload "a"; prop payload "s";
             prop payload "iv"; prop payload "ct" ] = mret dataToAuth ->
  HmacSHA256 dataToAuth (macKey_of derived) = Some expectedMac ->
  let rest :=
    if differs expectedMac (prop payload "mac")
    then throw (CryptoError INTEGRITY_FAILED)
    else k ← ToString (prop payload "a");
         decrypt_payload (select_cipher k) (prop payload "ct")
           (encKey_of derived) iv in
  decryptText packed passphrase
    = mkRun (calls_to_mac ++ calls rest) (outcome rest).
Proof.
  intros Hparse Hreadable Hfields Hv Hx Hs Hiv Hkdf Hjoin Hmac rest.
  unfold decryptText.
  rewrite (parse_payload_accepts _ _ Hparse Hreadable Hfields).
  unfold mbind, run_bind. cbn [outcome calls].
  unfold check_version. rewrite Hv, Hx. cbn [outcome calls mret run_ret].
  unfold lib. rewrite Hs. cbn [outcome calls]. rewrite Hiv. cbn [outcome calls].
  unfold deriveKeys, mbind, run_bind, lib. rewrite Hkdf.
  cbn [outcome calls mret run_ret].
  unfold calculateMAC. rewrite Hjoin.
  unfold mbind, run_bind, lib, mret, run_ret. cbn [outcome calls].
  fold (macKey_of derived). rewrite Hmac. cbn [outcome calls].
  reflexivity.
Qed.

Lemma truthy_text s : s <> "" -> truthy (JStr s) = true.
Proof.
  intros Hs. simpl. apply negb_true_iff, String.eqb_neq. done.
Qed.

Lemma differs_text expectedMac mac :
  differs expectedMac (JStr mac) = negb (String.eqb expectedMac mac).
Proof. done. Qed.

(** The join of the MAC'd fields of an envelope whose [a] is a string. *)
Lemma join_envelope x a s iv ct :
  join "|" [JStr x; JStr a; JStr s; JStr iv; JStr ct]
  = mret (x ++ "|" ++ a ++ "|" ++ s ++ "|" ++ iv ++ "|" ++ ct).
Proof. reflexivity. Qed.

(** With an absent [a] the join has the empty string in its place. *)
Lemma join_envelope_absent x s iv ct :
  join "|" [JStr x; JUndefined; JStr s; JStr iv; JStr ct]
  = mret (x ++ "|" ++ "" ++ "|" ++ s ++ "|" ++ iv ++ "|" ++ ct).
Proof. reflexivity. Qed.

(** [decryptText] on an envelope with non-empty fields, up to the MAC. *)
Lemma decryptText_envelope packed passphrase a a_text s iv ct mac salt ivw
    derived expectedMac :
  JSON_parse packed = Some (envelope a s iv ct mac) ->
  s <> "" -> iv <> "" -> ct <> "" -> mac <> "" ->
  Hex_parse (JStr s) = Some salt -> Hex_parse (JStr iv) = Some ivw ->
  PBKDF2 passphrase salt = Some derived ->
  (a = JStr a_text \/ a = JUndefined /\ a_text = "") ->
  HmacSHA256 (data_to_auth a_text s iv ct) (macKey_of derived)
    = Some expectedMac ->
  let rest :=
    if negb (String.eqb expectedMac mac)
    then throw (CryptoError INTEGRITY_FAILED)
    else k ← ToString a;
         decrypt_payload (select_cipher k) (JStr ct) (encKey_of derived) ivw in
  decryptText packed passphrase
    = mkRun (calls_to_mac ++ calls rest) (outcome rest).
Proof.
  intros Hparse Hs Hiv Hct Hmac Hsalt Hivw Hkdf Ha Hhmac.
  assert (Forall (λ k, truthy (prop (envelope a s iv ct mac) k) = true)
            checked_fields) as Hfields.
  { unfold checked_fields.
    repeat constructor; first [done | by apply truthy_text]. }
  assert (join "|" [ JStr (Number_toString VERSION); a; JStr s; JStr iv;
                     JStr ct ] = mret (data_to_auth a_text s iv ct))
    as Hjoin by (destruct Ha as [->|[-> ->]]; reflexivity).
  exact (decryptText_to_mac packed passphrase (envelope a s iv ct mac)
           VERSION salt ivw derived (data_to_auth a_text s iv ct)
           expectedMac Hparse eq_refl Hfields eq_refl eq_refl Hsalt Hivw
           Hkdf Hjoin Hhmac).
Qed.

(** C2.  A version-1 envelope whose stored MAC is not the HMAC computed
    over its fields with the key derived from the passphrase is refused
    with [INTEGRITY_FAILED]; up to there the codec has parsed, derived the
    keys and computed the MAC, and has not touched the ciphertext: no
    Base64 decoding, no decryption. *)
Theorem decryptText_integrity_failed packed passphrase algo s iv ct mac
    salt ivw derived expectedMac :
  JSON_parse packed = Some (payload_object algo s iv ct mac) ->
  s <> "" -> iv <> "" -> ct <> "" -> mac <> "" ->
  Hex_parse (JStr s) = Some salt -> Hex_parse (JStr iv) = Some ivw ->
  PBKDF2 passphrase salt = Some derived ->
  HmacSHA256 (data_to_auth (algo_name algo) s iv ct) (macKey_of derived)
    = Some expectedMac ->
  expectedMac <> mac ->
  decryptText packed passphrase
    = mkRun calls_to_mac (inr (CryptoError INTEGRITY_FAILED))
  /\ (Base64_parse_call ∉ calls (decryptText packed passphrase))
  /\ (forall cipher,
        decrypt_call cipher ∉ calls (decryptText packed passphrase)).
Proof.
  intros Hparse Hs Hiv Hct Hmac Hsalt Hivw Hkdf Hhmac Hne.
  assert (decryptText packed passphrase
          = mkRun calls_to_mac (inr (CryptoError INTEGRITY_FAILED))) as ->.
  { rewrite (decryptText_envelope packed passphrase
               (JStr (algo_name algo)) (algo_name algo)
               s iv ct mac salt ivw derived expectedMac); try done; [|by left].
    apply String.eqb_neq in Hne. rewrite Hne. reflexivity. }
  split; [done|]. split; [|intros cipher]; not_called.
Qed.
(** The last [try] with a cipher, the library returning normally. *)
Lemma decrypt_payload_cipher algo ct encKey iv ciphertext decrypted plainText :
  Base64_parse ct = Some ciphertext ->
  cipher_decrypt algo ciphertext encKey iv = Some decrypted ->
  Utf8_stringify decrypted = Some plainText ->
  decrypt_payload (Cipher algo) ct encKey iv
    = mkRun [Base64_parse_call; decrypt_call algo; Utf8_stringify_call]
        (if String.eqb plainText "" then inr (CryptoError DECRYPTION_FAILED)
         else inl plainText).
Proof.
  intros Hct Hdec Hutf. unfold decrypt_payload, try_catch, mbind, run_bind, lib.
  rewrite Hct. cbn [outcome calls]. rewrite Hdec. cbn [outcome calls].
  rewrite Hutf. cbn [outcome calls]. by destruct (String.eqb plainText "").
Qed.

(** The last [try] with a member of [Object.prototype] for a cipher: the
    ciphertext is decoded, nothing is decrypted. *)
Lemma decrypt_payload_inherited ct encKey iv :
  decrypt_payload Inherited ct encKey iv
    = mkRun [Base64_parse_call] (inr (CryptoError DECRYPTION_FAILED)).
Proof.
  unfold decrypt_payload, try_catch, mbind, run_bind, lib.
  by destruct (Base64_parse ct).
Qed.

(** The last [try] ends in a non-empty text or in [DECRYPTION_FAILED]. *)
Lemma decrypt_payload_outcome cipher ct encKey iv :
  (exists plainText,
     outcome (decrypt_payload cipher ct encKey iv) = inl plainText
     /\ plainText <> "")
  \/ outcome (decrypt_payload cipher ct encKey iv)
     = inr (CryptoError DECRYPTION_FAILED).
Proof.
  unfold decrypt_payload, try_catch, mbind, run_bind, lib.
  destruct (Base64_parse ct) as [ciphertext|]; cbn [outcome calls]; [|by right].
  destruct cipher as [algo| |]; cbn [outcome calls]; [|by right..].
  destruct (cipher_decrypt algo ciphertext encKey iv) as [decrypted|];
    cbn [outcome calls]; [|by right].
  destruct (Utf8_stringify decrypted) as [plainText|];
    cbn [outcome calls]; [|by right].
  destruct (String.eqb_spec plainText ""); cbn [outcome calls]; [by right|].
  left. by exists plainText.
Qed.

Lemma ALGO_MAP_inherited k : k ∈ Object_prototype -> ALGO_MAP k = Inherited.
Proof.
  unfold Object_prototype. rewrite !elem_of_cons, elem_of_nil.
  intros H. repeat (destruct H as [->|H]; [reflexivity|]). done.
Qed.

(** An algorithm field that names nothing in [ALGO_MAP], own or
    inherited: AES is used. *)
Lemma decryptText_falls_back_to_AES packed passphrase a a_text k s iv ct mac
    salt ivw derived :
  JSON_parse packed = Some (envelope a s iv ct mac) ->
  s <> "" -> iv <> "" -> ct <> "" -> mac <> "" ->
  Hex_parse (JStr s) = Some salt -> Hex_parse (JStr iv) = Some ivw ->
  PBKDF2 passphrase salt = Some derived ->
  (a = JStr a_text \/ a = JUndefined /\ a_text = "") ->
  HmacSHA256 (data_to_auth a_text s iv ct) (macKey_of derived) = Some mac ->
  ToString a = mret k -> ALGO_MAP k = Missing ->
  let attempt := decrypt_payload (Cipher AES) (JStr ct) (encKey_of derived) ivw in
  decryptText packed passphrase
    = mkRun (calls_to_mac ++ calls attempt) (outcome attempt).
Proof.
  intros Hparse Hs Hiv Hct Hmac Hsalt Hivw Hkdf Ha Hhmac Hk Hmissing.
  rewrite (decryptText_envelope packed passphrase a a_text s iv ct mac salt
             ivw derived mac); try done.
  rewrite String.eqb_refl, Hk. cbn [negb].
  unfold mbind, run_bind, mret, run_ret. cbn [outcome calls app].
  unfold select_cipher. rewrite Hmissing. reflexivity.
Qed.

(** C10 at the payloads on which the code departs from it.  An algorithm
    field that names a member of [Object.prototype] is none of [AES],
    [DES], [TripleDES]; with the MAC matching, [ALGO_MAP[payload.a]] is
    then that member, which is truthy, so AES is not substituted for it:
    the ciphertext is decoded, the call of its missing [decrypt] raises,
    and the outcome is [DECRYPTION_FAILED] without any decryption,
    whatever AES would have made of the ciphertext. *)
Theorem decryptText_inherited_algorithm packed passphrase a s iv ct mac
    salt ivw derived :
  a ∈ Object_prototype ->
  JSON_parse packed = Some (envelope (JStr a) s iv ct mac) ->
  s <> "" -> iv <> "" -> ct <> "" -> mac <> "" ->
  Hex_parse (JStr s) = Some salt -> Hex_parse (JStr iv) = Some ivw ->
  PBKDF2 passphrase salt = Some derived ->
  HmacSHA256 (data_to_auth a s iv ct) (macKey_of derived) = Some mac ->
  (forall algo, a <> algo_name algo)
  /\ decryptText packed passphrase
     = mkRun (calls_to_mac ++ [Base64_parse_call])
         (inr (CryptoError DECRYPTION_FAILED))
  /\ (forall cipher,
        decrypt_call cipher ∉ calls (decryptText packed passphrase)).
Proof.
  intros Ha Hparse Hs Hiv Hct Hmac Hsalt Hivw Hkdf Hhmac.
  pose proof (ALGO_MAP_inherited a Ha) as Hslot.
  split; [intros [] ->; discriminate Hslot|].
  assert (decryptText packed passphrase
          = mkRun (calls_to_mac ++ [Base64_parse_call])
              (inr (CryptoError DECRYPTION_FAILED))) as ->.
  { rewrite (decryptText_envelope packed passphrase (JStr a) a s iv ct mac
               salt ivw derived mac); try done; [|by left].
    rewrite String.eqb_refl. cbn [negb ToString].
    unfold mbind, run_bind, mret, run_ret. cbn [outcome calls app].
    unfold select_cipher. rewrite Hslot, decrypt_payload_inherited.
    reflexivity. }
  split; [done|]. intros cipher. not_called.
Qed.

(** Encryption, then decryption of its result with the same passphrase,
    on a platform that does its part: the text comes back when it is not
    empty, and [DECRYPTION_FAILED] when it is. *)
Lemma encrypt_then_decrypt text passphrase salt iv derived encrypted mac :
  sound_run text passphrase salt iv derived encrypted mac ->
  let packed :=
    JSON_stringify
      (payload_object AES (Hex_stringify salt) (Hex_stringify iv)
         (Base64_stringify encrypted) mac) in
  encryptText text passphrase AES salt iv
    = mkRun [PBKDF2_call; encrypt_call AES; HmacSHA256_call] (inl packed)
  /\ decryptText packed passphrase
     = mkRun (calls_to_end AES)
         (if String.eqb text "" then inr (CryptoError DECRYPTION_FAILED)
          else inl text).
Proof.
  intros [Hkdf Henc Hsign Hsalt Hiv Hct Hmac Hjson Hsalt' Hiv' Hct'
            (decrypted & Hdec & Hutf)] packed.
  split.
  - unfold encryptText, deriveKeys. unfold mbind, run_bind, lib.
    rewrite Hkdf. cbn [outcome calls mret run_ret].
    fold (encKey_of derived). rewrite Henc. cbn [outcome calls].
    unfold calculateMAC. rewrite join_envelope.
    unfold mbind, run_bind, lib, mret, run_ret. cbn [outcome calls].
    unfold data_to_auth, macKey_of in Hsign. cbn [algo_name].
    rewrite Hsign. reflexivity.
  - unfold payload_object in *.
    rewrite (decryptText_envelope packed passphrase (JStr "AES") "AES"
               _ _ _ mac salt iv derived mac Hjson); try done; [|by left].
    rewrite String.eqb_refl. cbn [negb ToString].
    unfold mbind, run_bind, mret, run_ret. cbn [outcome calls app].
    change (select_cipher "AES") with (Cipher AES).
    rewrite (decrypt_payload_cipher AES _ _ _ _ _ _ Hct' Hdec Hutf).
    reflexivity.
Qed.

(** C1, as the code has it.  On a platform that does its part, a
    non-empty text encrypted under a passphrase with AES decrypts, under
    the same passphrase, to itself. *)
Theorem encrypt_decrypt_roundtrip text passphrase salt iv derived encrypted
    mac :
  text <> "" ->
  sound_run text passphrase salt iv derived encrypted mac ->
  exists packed,
    outcome (encryptText text passphrase AES salt iv) = inl packed
    /\ outcome (decryptText packed passphrase) = inl text.
Proof.
  intros Htext Hrun.
  destruct (encrypt_then_decrypt _ _ _ _ _ _ _ Hrun) as [Henc Hdec].
  eexists. rewrite Henc, Hdec. split; [reflexivity|]. cbn [outcome].
  apply String.eqb_neq in Htext. by rewrite Htext.
Qed.

(** The empty text does not come back: its encryption is a payload like
    any other, and its decryption is refused. *)
Lemma encrypt_decrypt_empty passphrase salt iv derived encrypted mac :
  sound_run "" passphrase salt iv derived encrypted mac ->
  exists packed,
    outcome (encryptText "" passphrase AES salt iv) = inl packed
    /\ outcome (decryptText packed passphrase)
       = inr (CryptoError DECRYPTION_FAILED).
Proof.
  intros Hrun.
  destruct (encrypt_then_decrypt _ _ _ _ _ _ _ Hrun) as [Henc Hdec].
  eexists. rewrite Henc, Hdec. split; reflexivity.
Qed.
(** Past the first [try], [INVALID_PAYLOAD] is no longer a possible
    outcome, whatever the platform does. *)
Local Abbreviation never_invalid m :=
  (outcome m <> inr (CryptoError INVALID_PAYLOAD)).

Lemma never_invalid_bind {A B} (m : Run A) (k : A -> Run B) :
  never_invalid m -> (forall a, never_invalid (k a)) -> never_invalid (m ≫= k).
Proof.
  intros Hm Hk. unfold mbind, run_bind.
  destruct (outcome m) as [a|e] eqn:Hout; cbn [outcome]; [apply Hk|].
  intros [= ->]. by apply Hm.
Qed.

Lemma never_invalid_lib {A} c (r : option A) : never_invalid (lib c r).
Proof. by destruct r. Qed.

Lemma never_invalid_ToString v : never_invalid (ToString v).
Proof. destruct v as [| |[]| | | |]; try done; simpl; by destruct (Object_toString _). Qed.

Lemma never_invalid_join sep parts : never_invalid (join sep parts).
Proof.
  induction parts as [|part parts IH]; [done|]. cbn [join].
  apply never_invalid_bind.
  - destruct part; first [done | apply never_invalid_ToString].
  - intros head. destruct parts; [done|].
    apply never_invalid_bind; [exact IH|done].
Qed.

Lemma decryptText_past_first_try packed passphrase payload :
  JSON_parse packed = Some payload ->
  readable payload = true ->
  Forall (λ k, truthy (prop payload k) = true) checked_fields ->
  never_invalid (decryptText packed passphrase).
Proof.
  intros Hparse Hreadable Hfields. unfold decryptText.
  rewrite (parse_payload_accepts _ _ Hparse Hreadable Hfields).
  apply never_invalid_bind; [done|]. intros payload'.
  apply never_invalid_bind.
  { unfold check_version. destruct (prop payload' "v"); try done.
    by destruct (SFeqb _ _). }
  intros v. apply never_invalid_bind; [apply never_invalid_lib|]. intros salt.
  apply never_invalid_bind; [apply never_invalid_lib|]. intros iv.
  apply never_invalid_bind.
  { unfold deriveKeys. apply never_invalid_bind; [apply never_invalid_lib|done]. }
  intros [encKey macKey]. apply never_invalid_bind.
  { unfold calculateMAC. apply never_invalid_bind;
      [apply never_invalid_join|intros; apply never_invalid_lib]. }
  intros expectedMac. destruct (differs _ _); [done|].
  apply never_invalid_bind; [apply never_invalid_ToString|]. intros k.
  destruct (decrypt_payload_outcome (select_cipher k) (prop payload' "ct") encKey iv)
    as [(text & -> & _)| ->]; done.
Qed.
End Codec.

(** *** The codec on the example platform *)
Section Examples.
Import Example.
Local Abbreviation X := example_platform.

(** The text [attack at dawn]. *)
Lemma encrypt_decrypt_roundtrip_witness :
  exists packed,
    outcome (encryptText (P := X) "attack at dawn" passphrase AES salt iv) = inl packed
    /\ outcome (decryptText (P := X) packed passphrase) = inl "attack at dawn".
Proof.
  eapply (encrypt_decrypt_roundtrip (P := X) "attack at dawn" passphrase salt iv);
    [discriminate|].
  econstructor;
    first [reflexivity | discriminate | (eexists; split; reflexivity)].
Defined.

(** C1 as stated fails at the empty text: it encrypts to a payload, and
    the payload decrypts, under the same passphrase, to
    [DECRYPTION_FAILED]. *)
Lemma roundtrip_empty_text_counterexample :
  exists packed,
    outcome (encryptText (P := X) "" passphrase AES salt iv) = inl packed
    /\ outcome (decryptText (P := X) packed passphrase)
       = inr (CryptoError DECRYPTION_FAILED).
Proof.
  eapply (encrypt_decrypt_empty (P := X) passphrase salt iv).
  econstructor;
    first [reflexivity | discriminate | (eexists; split; reflexivity)].
Qed.

(** A payload sealed under one passphrase, opened with another. *)
Lemma decryptText_integrity_failed_witness :
  decryptText (P := X) (stringify (sealed (JStr "AES") "attack at dawn"))
    other_passphrase
  = mkRun calls_to_mac (inr (CryptoError INTEGRITY_FAILED)).
Proof.
  eapply (decryptText_integrity_failed (P := X)
            (stringify (sealed (JStr "AES") "attack at dawn"))
            other_passphrase AES);
    first [reflexivity | discriminate].
Defined.

(** A payload with no [mac]. *)
Lemma decryptText_invalid_payload_witness :
  decryptText (P := X) (stringify (without "mac" (sealed (JStr "AES") "attack at dawn")))
    passphrase
  = mkRun [JSON_parse_call] (inr (CryptoError INVALID_PAYLOAD)).
Proof.
  apply (decryptText_invalid_payload (P := X)). right.
  exists (without "mac" (sealed (JStr "AES") "attack at dawn")), "mac".
  split; [reflexivity|]. split; [|reflexivity].
  unfold checked_fields. do 4 apply list_elem_of_further. apply list_elem_of_here.
Defined.

(** C9 as stated fails at a payload with no [a]: sealed without it, it
    decrypts; and a sealed payload from which [a] is deleted is refused
    for its MAC, not as an invalid payload. *)
Lemma missing_algorithm_counterexample :
  let forged := sealed JUndefined "attack at dawn" in
  let stripped := without "a" (sealed (JStr "AES") "attack at dawn") in
  (JSON_parse (Platform := X) (stringify forged) = Some forged
   /\ assoc "a" (match forged with JObj props => props | _ => [] end) = JUndefined
   /\ outcome (decryptText (P := X) (stringify forged) passphrase)
      = inl "attack at dawn")
  /\ (JSON_parse (Platform := X) (stringify stripped) = Some stripped
      /\ prop stripped "a" = JUndefined
      /\ outcome (decryptText (P := X) (stringify stripped) passphrase)
         = inr (CryptoError INTEGRITY_FAILED)).
Proof. repeat split; reflexivity. Qed.

(** The algorithm [constructor], on a payload AES would decrypt. *)
Lemma decryptText_inherited_algorithm_witness :
  let payload := sealed (JStr "constructor") "attack at dawn" in
  (exists encKey,
     cipher_decrypt (Platform := X) AES
       (match prop payload "ct" with JStr ct => ct | _ => "" end) encKey iv
     = Some "attack at dawn")
  /\ decryptText (P := X) (stringify payload) passphrase
     = mkRun (calls_to_mac ++ [Base64_parse_call])
         (inr (CryptoError DECRYPTION_FAILED)).
Proof.
  intros payload.
  split; [by exists (text_of (take 8 (derive passphrase salt)))|].
  eapply (decryptText_inherited_algorithm (P := X) (stringify payload) passphrase
            "constructor");
    first [apply list_elem_of_here | reflexivity | discriminate].
Defined.

(** An unknown algorithm that no prototype knows either: AES. *)
Example decryptText_unknown_algorithm :
  decryptText (P := X) (stringify (sealed (JStr "Blowfish") "attack at dawn")) passphrase
  = mkRun (calls_to_end AES) (inl "attack at dawn").
Proof. reflexivity. Qed.
End Examples.

(** ** Every run of [decryptText] *)
Section Stages.
Context {P : Platform}.

Lemma parse_payload_cases packed :
  parse_payload packed
    = mkRun [JSON_parse_call] (inr (CryptoError INVALID_PAYLOAD))
  \/ exists payload,
       JSON_parse packed = Some payload
       /\ readable payload = true
       /\ Forall (λ k, truthy (prop payload k) = true) checked_fields
       /\ parse_payload packed = mkRun [JSON_parse_call] (inl payload).
Proof.
  destruct (JSON_parse packed) as [payload|] eqn:Hparse;
    [|left; apply parse_payload_rejects; by left].
  destruct (decide (Forall (λ k, truthy (prop payload k) = true)
                      checked_fields)) as [Hall|Hnot].
  - right. exists payload.
    assert (readable payload = true) as Hread.
    { apply Forall_cons in Hall as [Hv _]. by destruct payload. }
    eauto using parse_payload_accepts.
  - left. apply parse_payload_rejects. right.
    apply not_Forall_Exists in Hnot; [|solve_decision].
    apply Exists_exists in Hnot as (k & Hk & Hf).
    exists payload, k. split; [done|]. split; [done|].
    unfold compose in Hf. by destruct (truthy (prop payload k)).
Qed.

(** A conversion makes no library call and raises no error of the codec. *)
Lemma ToString_cases v :
  (exists text, ToString v = mret text) \/ ToString v = throw NativeError.
Proof.
  destruct v as [| |[]| | | |]; simpl; eauto;
    destruct (Object_toString _); simpl; eauto.
Qed.

Lemma join_cases sep parts :
  (exists text, join sep parts = mret text) \/ join sep parts = throw NativeError.
Proof.
  induction parts as [|part parts IH]; [left; by eexists|]. cbn [join].
  assert ((exists text,
             match part with
             | JUndefined | JNull => mret ""
             | _ => ToString part
             end = mret text)
          \/ match part with
             | JUndefined | JNull => mret ""
             | _ => ToString part
             end = throw NativeError) as [[head ->]| ->].
  { destruct part; eauto using ToString_cases. }
  - destruct parts as [|next parts]; [left; by eexists|].
    destruct IH as [[tail ->]| ->]; [left|right]; by eauto.
  - by right.
Qed.
(** The ways a run of [decryptText] can go. *)
Lemma decryptText_cases packed passphrase :
  decryptText packed passphrase
    = mkRun [JSON_parse_call] (inr (CryptoError INVALID_PAYLOAD))
  \/ decryptText packed passphrase
     = mkRun [JSON_parse_call] (inr (CryptoError UNSUPPORTED_VERSION))
  \/ outcome (decryptText packed passphrase) = inr NativeError
  \/ exists payload x salt ivw derived dataToAuth expectedMac,
       JSON_parse packed = Some payload
       /\ prop payload "v" = JNum x /\ SFeqb x VERSION = true
       /\ Hex_parse (prop payload "s") = Some salt
       /\ Hex_parse (prop payload "iv") = Some ivw
       /\ PBKDF2 passphrase salt = Some derived
       /\ join "|" [ JStr (Number_toString x); prop payload "a";
                     prop payload "s"; prop payload "iv"; prop payload "ct" ]
          = mret dataToAuth
       /\ HmacSHA256 dataToAuth (macKey_of derived) = Some expectedMac
       /\ (prop payload "mac" <> JStr expectedMac
           /\ decryptText packed passphrase
              = mkRun calls_to_mac (inr (CryptoError INTEGRITY_FAILED))
           \/ prop payload "mac" = JStr expectedMac
              /\ exists k,
                   ToString (prop payload "a") = mret k
                   /\ let attempt :=
                        decrypt_payload (select_cipher k) (prop payload "ct")
                          (encKey_of derived) ivw in
                      decryptText packed passphrase
                      = mkRun (calls_to_mac ++ calls attempt)
                          (outcome attempt)).
Proof.
  destruct (parse_payload_cases packed)
    as [Hbad|(payload & Hparse & Hread & Hfields & Hgood)].
  { left. unfold decryptText. by rewrite Hbad. }
  right.
  assert ((exists x, prop payload "v" = JNum x /\ SFeqb x VERSION = true)
          \/ check_version payload = throw (CryptoError UNSUPPORTED_VERSION))
    as [(x & Hv & Hx)|Hversion].
  { unfold check_version. destruct (prop payload "v"); eauto.
    destruct (SFeqb x VERSION) eqn:Hx; eauto. }
  2:{ left. unfold decryptText. rewrite Hgood.
      unfold mbind, run_bind. cbn [outcome calls]. by rewrite Hversion. }
  right.
  destruct (Hex_parse (prop payload "s")) as [salt|] eqn:Hs.
  2:{ left. unfold decryptText. rewrite Hgood.
      unfold mbind, run_bind. cbn [outcome calls].
      unfold check_version. rewrite Hv, Hx. cbn [outcome calls mret run_ret].
      unfold lib. by rewrite Hs. }
  destruct (Hex_parse (prop payload "iv")) as [ivw|] eqn:Hiv.
  2:{ left. unfold decryptText. rewrite Hgood.
      unfold mbind, run_bind. cbn [outcome calls].
      unfold check_version. rewrite Hv, Hx. cbn [outcome calls mret run_ret].
      unfold lib. rewrite Hs. cbn [outcome calls]. by rewrite Hiv. }
  destruct (PBKDF2 passphrase salt) as [derived|] eqn:Hkdf.
  2:{ left. unfold decryptText. rewrite Hgood.
      unfold mbind, run_bind. cbn [outcome calls].
      unfold check_version. rewrite Hv, Hx. cbn [outcome calls mret run_ret].
      unfold lib. rewrite Hs. cbn [outcome calls]. rewrite Hiv. cbn [outcome calls].
      unfold deriveKeys, mbind, run_bind, lib. rewrite Hkdf. reflexivity. }
  destruct (join_cases "|" [ JStr (Number_toString x); prop payload "a";
                             prop payload "s"; prop payload "iv";
                             prop payload "ct" ]) as [[dataToAuth Hjoin]|Hjoin].
  2:{ left. unfold decryptText. rewrite Hgood.
      unfold mbind, run_bind. cbn [outcome calls].
      unfold check_version. rewrite Hv, Hx. cbn [outcome calls mret run_ret].
      unfold lib. rewrite Hs. cbn [outcome calls]. rewrite Hiv. cbn [outcome calls].
      unfold deriveKeys, mbind, run_bind, lib. rewrite Hkdf.
      cbn [outcome calls mret run_ret]. unfold calculateMAC. rewrite Hjoin. reflexivity. }
  destruct (HmacSHA256 dataToAuth (macKey_of derived)) as [expectedMac|]
    eqn:Hmac.
  2:{ left. unfold decryptText. rewrite Hgood.
      unfold mbind, run_bind. cbn [outcome calls].
      unfold check_version. rewrite Hv, Hx. cbn [outcome calls mret run_ret].
      unfold lib. rewrite Hs. cbn [outcome calls]. rewrite Hiv. cbn [outcome calls].
      unfold deriveKeys, mbind, run_bind, lib. rewrite Hkdf.
      cbn [outcome calls mret run_ret]. unfold calculateMAC. rewrite Hjoin.
      unfold mbind, run_bind, lib, mret, run_ret. cbn [outcome calls].
      fold (macKey_of derived). by rewrite Hmac. }
  pose proof (decryptText_to_mac packed passphrase payload x salt ivw derived
                dataToAuth expectedMac Hparse Hread Hfields Hv Hx Hs Hiv Hkdf
                Hjoin Hmac) as Hrun.
  cbv zeta in Hrun.
  destruct (differs expectedMac (prop payload "mac")) eqn:Hdiffers.
  - right. exists payload, x, salt, ivw, derived, dataToAuth, expectedMac.
    do 8 (split; [done|]). left. split.
    + intros Heq. rewrite Heq in Hdiffers. simpl in Hdiffers.
      by rewrite String.eqb_refl in Hdiffers.
    + by rewrite Hrun.
  - assert (prop payload "mac" = JStr expectedMac) as Hsame.
    { unfold differs in Hdiffers. destruct (prop payload "mac"); try done.
      apply negb_false_iff, String.eqb_eq in Hdiffers. by subst. }
    destruct (ToString_cases (prop payload "a")) as [[k Hk]|Hk].
    + right. exists payload, x, salt, ivw, derived, dataToAuth, expectedMac.
      do 8 (split; [done|]). right. split; [done|]. exists k.
      split; [done|]. cbv zeta. rewrite Hrun, Hk. reflexivity.
    + left. rewrite Hrun, Hk. reflexivity.
Qed.
Lemma decrypt_payload_run cipher ct encKey iv :
  (exists algo plainText,
     cipher = Cipher algo /\ plainText <> ""
     /\ decrypt_payload cipher ct encKey iv
        = mkRun [Base64_parse_call; decrypt_call algo; Utf8_stringify_call]
            (inl plainText))
  \/ exists more,
       decrypt_payload cipher ct encKey iv
       = mkRun (Base64_parse_call :: more) (inr (CryptoError DECRYPTION_FAILED)).
Proof.
  unfold decrypt_payload, try_catch, mbind, run_bind, lib.
  destruct (Base64_parse ct) as [ciphertext|]; cbn [outcome calls];
    [|right; by eexists].
  destruct cipher as [algo| |]; cbn [outcome calls]; [|right; by eexists..].
  destruct (cipher_decrypt algo ciphertext encKey iv) as [decrypted|];
    cbn [outcome calls]; [|right; by eexists].
  destruct (Utf8_stringify decrypted) as [plainText|];
    cbn [outcome calls]; [|right; by eexists].
  destruct (String.eqb_spec plainText ""); cbn [outcome calls];
    [right; by eexists|].
  left. by exists algo, plainText.
Qed.

(** X15.  The code of the error tells how far the codec went, for every input
    and on every platform.  [INVALID_PAYLOAD] and [UNSUPPORTED_VERSION]:
    nothing but [JSON.parse] was called, no key was derived.
    [INTEGRITY_FAILED]: the calls up to the MAC and none after, the
    ciphertext was not touched.  [DECRYPTION_FAILED]: the MAC had matched
    and the last [try] was entered.  [MALFORMED_INPUT] is never raised. *)
Theorem decryptText_error_stage packed passphrase code :
  outcome (decryptText packed passphrase) = inr (CryptoError code) ->
  stage_of code (calls (decryptText packed passphrase)).
Proof.
  destruct (decryptText_cases packed passphrase)
    as [Hrun|[Hrun|[Hrun|(payload & x & salt & ivw & derived & dataToAuth
                          & expectedMac & _ & _ & _ & _ & _ & _ & _ & _
                          & [[_ Hrun]|(_ & k & _ & Hrun)])]]];
    rewrite Hrun; cbn [outcome calls]; try (by intros [= <-]); try done.
  cbv zeta in *.
  destruct (decrypt_payload_run (select_cipher k) (prop payload "ct")
              (encKey_of derived) ivw)
    as [(algo & plainText & _ & _ & ->)|[more ->]]; cbn [outcome calls];
    intros [= <-]. by exists more.
Qed.

(** X16.  A text is returned only for a payload that was authenticated: the
    payload has version 1 and its [mac] is the HMAC, under the MAC key
    derived from the passphrase and the payload's salt, of the payload's
    [v|a|s|iv|ct]; the run went through the MAC, one Base64 decoding and
    one decryption; and the text is not empty. *)
Theorem decryptText_authentic packed passphrase plainText :
  outcome (decryptText packed passphrase) = inl plainText ->
  plainText <> ""
  /\ exists payload x salt derived dataToAuth mac algo,
       JSON_parse packed = Some payload
       /\ prop payload "v" = JNum x /\ SFeqb x VERSION = true
       /\ Hex_parse (prop payload "s") = Some salt
       /\ PBKDF2 passphrase salt = Some derived
       /\ join "|" [ JStr (Number_toString x); prop payload "a";
                     prop payload "s"; prop payload "iv"; prop payload "ct" ]
          = mret dataToAuth
       /\ HmacSHA256 dataToAuth (macKey_of derived) = Some mac
       /\ prop payload "mac" = JStr mac
       /\ calls (decryptText packed passphrase) = calls_to_end algo.
Proof.
  destruct (decryptText_cases packed passphrase)
    as [Hrun|[Hrun|[Hrun|(payload & x & salt & ivw & derived & dataToAuth
                          & expectedMac & Hparse & Hv & Hx & Hs & Hiv & Hkdf
                          & Hjoin & Hmac
                          & [[_ Hrun]|(Hsame & k & _ & Hrun)])]]];
    rewrite Hrun; cbn [outcome calls]; try done.
  cbv zeta in *.
  destruct (decrypt_payload_run (select_cipher k) (prop payload "ct")
              (encKey_of derived) ivw)
    as [(algo & text & _ & Htext & ->)|[more ->]]; cbn [outcome calls];
    intros [= <-]. split; [done|].
  by exists payload, x, salt, derived, dataToAuth, expectedMac, algo.
Qed.


Lemma select_cipher_name algo : select_cipher (algo_name algo) = Cipher algo.
Proof. by destruct algo. Qed.

(** X18.  With each of the three ciphers: on a platform that does its part, a
    non-empty text encrypted under a passphrase decrypts, under the same
    passphrase, to itself, and [decryptText] decrypts with the cipher
    [encryptText] encrypted with. *)
Theorem encrypt_decrypt_any_algo algo text passphrase salt iv derived
    encrypted mac :
  text <> "" ->
  sound_run_with algo text passphrase salt iv derived encrypted mac ->
  exists packed,
    encryptText text passphrase algo salt iv
      = mkRun [PBKDF2_call; encrypt_call algo; HmacSHA256_call] (inl packed)
    /\ decryptText packed passphrase = mkRun (calls_to_end algo) (inl text).
Proof.
  intros Htext (Hkdf & Henc & Hsign & Hsalt & Hiv & Hct & Hmac & Hjson
                & Hsalt' & Hiv' & Hct' & decrypted & Hdec & Hutf).
  eexists. split.
  - unfold encryptText, deriveKeys. unfold mbind, run_bind, lib.
    rewrite Hkdf. cbn [outcome calls mret run_ret].
    fold (encKey_of derived). rewrite Henc. cbn [outcome calls].
    unfold calculateMAC. rewrite join_envelope.
    unfold mbind, run_bind, lib, mret, run_ret. cbn [outcome calls].
    unfold data_to_auth, macKey_of in Hsign.
    rewrite Hsign. reflexivity.
  - unfold payload_object in *.
    rewrite (decryptText_envelope _ passphrase (JStr (algo_name algo))
               (algo_name algo) _ _ _ mac salt iv derived mac Hjson);
      try done; [|by left].
    rewrite String.eqb_refl. cbn [negb ToString].
    unfold mbind, run_bind, mret, run_ret. cbn [outcome calls app].
    rewrite select_cipher_name.
    rewrite (decrypt_payload_cipher algo _ _ _ _ _ _ Hct' Hdec Hutf).
    destruct (String.eqb_spec text ""); [done|]. reflexivity.
Qed.
End Stages.

Section MoreExamples.
Import Example Variants.
Local Abbreviation X := example_platform.
Local Abbreviation V := variant_platform.

(** A wrong passphrase: the error is [INTEGRITY_FAILED], the calls are
    those up to the MAC. *)
Lemma decryptText_error_stage_witness :
  stage_of INTEGRITY_FAILED
    (calls (decryptText (P := X)
              (stringify (sealed (JStr "AES") "attack at dawn"))
              other_passphrase)).
Proof.
  apply (decryptText_error_stage (P := X)
           (stringify (sealed (JStr "AES") "attack at dawn"))
           other_passphrase INTEGRITY_FAILED).
  reflexivity.
Defined.

Lemma decryptText_authentic_witness :
  "attack at dawn" <> ""
  /\ exists payload x salt derived dataToAuth mac algo,
       JSON_parse (Platform := V)
         (stringify (sealed_with TripleDES "attack at dawn")) = Some payload
       /\ prop payload "v" = JNum x /\ SFeqb x VERSION = true
       /\ Hex_parse (Platform := V) (prop payload "s") = Some salt
       /\ PBKDF2 (Platform := V) passphrase salt = Some derived
       /\ join (P := V) "|"
            [ JStr (Number_toString (Platform := V) x); prop payload "a";
              prop payload "s"; prop payload "iv"; prop payload "ct" ]
          = mret dataToAuth
       /\ HmacSHA256 (Platform := V) dataToAuth (macKey_of (P := V) derived)
          = Some mac
       /\ prop payload "mac" = JStr mac
       /\ calls (decryptText (P := V)
                   (stringify (sealed_with TripleDES "attack at dawn"))
                   passphrase)
          = calls_to_end algo.
Proof.
  apply (decryptText_authentic (P := V)
           (stringify (sealed_with TripleDES "attack at dawn")) passphrase
           "attack at dawn").
  reflexivity.
Defined.


(** [attack at dawn] under DES. *)
Lemma encrypt_decrypt_any_algo_witness :
  exists packed,
    encryptText (P := V) "attack at dawn" passphrase DES salt iv
      = mkRun [PBKDF2_call; encrypt_call DES; HmacSHA256_call] (inl packed)
    /\ decryptText (P := V) packed passphrase
       = mkRun (calls_to_end DES) (inl "attack at dawn").
Proof.
  apply (encrypt_decrypt_any_algo (P := V) DES "attack at dawn" passphrase
           salt iv (derive passphrase salt)
           ("DES:" ++ text_of (take 8 (derive passphrase salt))
            ++ "attack at dawn")
           (text_of (take 8 (drop 8 (derive passphrase salt)))
            ++ "1|DES|" ++ salt ++ "|" ++ iv ++ "|"
            ++ "DES:" ++ text_of (take 8 (derive passphrase salt))
            ++ "attack at dawn")).
  - discriminate.
  - unfold sound_run_with. cbv zeta.
    repeat split; try reflexivity; try discriminate.
    eexists. split; reflexivity.
Defined.
End MoreExamples.


End ClipboardTheory.

(** * The key helpers *)
Module KeyStrengthTheory.
Import KeyStrength.
Local Open Scope Z_scope.

Lemma test_sublist class (key longer : jsstring) :
  key `sublist_of` longer -> test class key = true -> test class longer = true.
Proof.
  unfold test. intros Hsub. rewrite !existsb_exists.
  intros (c & Hc & Hclass). exists c. split; [|done].
  apply list_elem_of_In. eapply elem_of_sublist; [|done].
  by apply list_elem_of_In.
Qed.

(** X19.  Adding characters to a key, anywhere in it, never lowers its rating. *)
Theorem checkKeyStrength_monotone (key longer : jsstring) :
  key `sublist_of` longer ->
  (rank (checkKeyStrength key) <= rank (checkKeyStrength longer))%nat.
Proof.
  intros Hsub. pose proof (sublist_length _ _ Hsub) as Hlen.
  pose proof (test_sublist is_lower _ _ Hsub) as Hlower.
  pose proof (test_sublist is_upper _ _ Hsub) as Hupper.
  pose proof (test_sublist is_digit _ _ Hsub) as Hdigit.
  pose proof (test_sublist is_special _ _ Hsub) as Hspecial.
  unfold checkKeyStrength.
  destruct (Z.ltb_spec (Z.of_nat (length key)) 8) as [|Hkey];
    [simpl; lia|].
  destruct (Z.ltb_spec (Z.of_nat (length longer)) 8) as [|_]; [lia|].
  assert ((12 <=? Z.of_nat (length key)) = true
          -> (12 <=? Z.of_nat (length longer)) = true) as Htwelve
    by (rewrite !Z.leb_le; lia).
  destruct (test is_lower key); [rewrite Hlower by done|];
    (destruct (test is_upper key); [rewrite Hupper by done|]);
    (destruct (test is_digit key); [rewrite Hdigit by done|]);
    (destruct (test is_special key); [rewrite Hspecial by done|]);
    (destruct (12 <=? Z.of_nat (length key)); [rewrite Htwelve by done|]);
    repeat match goal with
           | |- context [test ?class longer] => destruct (test class longer)
           | |- context [12 <=? ?n] => destruct (12 <=? n)
           end;
    vm_compute; lia.
Qed.

Lemma checkKeyStrength_monotone_witness :
  (rank (checkKeyStrength (units "hunter42"))
   <= rank (checkKeyStrength (units "hunter-42-Hunter")))%nat.
Proof.
  apply (checkKeyStrength_monotone (units "hunter42")
           (units "hunter-42-Hunter")).
  vm_compute.
  repeat first [apply sublist_nil_l | apply sublist_skip | apply sublist_cons].
Defined.

Lemma key_chars_length : length key_chars = 76%nat.
Proof. reflexivity. Qed.

Lemma key_chars_pick x :
  exists c,
    key_chars !! Z.to_nat ((x mod 2 ^ 32) mod Z.of_nat (length key_chars))
    = Some c.
Proof.
  apply lookup_lt_is_Some. rewrite key_chars_length.
  pose proof (Z.mod_pos_bound (x mod 2 ^ 32) 76 ltac:(lia)). lia.
Qed.

Lemma generateRandomKey_chars (array : list Z) :
  let key := mjoin ((λ x, option_list
                            (key_chars !! Z.to_nat ((x mod 2 ^ 32)
                                            mod Z.of_nat (length key_chars))))
                    <$> array) in
  length key = length array /\ Forall (λ c, c ∈ key_chars) key.
Proof.
  induction array as [|x array [IHlen IHall]]; [by split|].
  cbn [fmap list_fmap mjoin list_join].
  destruct (key_chars_pick x) as [c Hc]. rewrite Hc. cbn. split.
  - f_equal. exact IHlen.
  - constructor; [by eapply list_elem_of_lookup_2|exact IHall].
Qed.

(** X20.  A generated key has one character of the alphabet per value of the
    array; and a key of 12 characters or more (the default is 24), whatever
    was drawn, is never rated weak by [checkKeyStrength]. *)
Theorem generateRandomKey_strength (array : list Z) :
  12 <= Z.of_nat (length array) <= 16384 ->
  exists key,
    generateRandomKey array = Some key
    /\ length key = length array
    /\ Forall (λ c, c ∈ key_chars) key
    /\ checkKeyStrength key <> weak.
Proof.
  intros Hlength. unfold generateRandomKey.
  destruct (Z.ltb_spec 65536 (4 * Z.of_nat (length array))) as [|_]; [lia|].
  destruct (generateRandomKey_chars array) as [Hlen Hall]. cbv zeta in *.
  eexists. split; [done|]. split; [done|]. split; [done|].
  unfold checkKeyStrength. rewrite Hlen.
  destruct (Z.ltb_spec (Z.of_nat (length array)) 8) as [|_]; [lia|].
  destruct (Z.leb_spec 12 (Z.of_nat (length array))) as [_|]; [|lia].
  by repeat match goal with
            | |- context [test ?class ?key] => destruct (test class key)
            end.
Qed.

Lemma generateRandomKey_strength_witness :
  exists key,
    generateRandomKey (replicate 24 0) = Some key
    /\ length key = length (replicate 24 0)
    /\ Forall (λ c, c ∈ key_chars) key
    /\ checkKeyStrength key <> weak.
Proof.
  apply (generateRandomKey_strength (replicate 24 0)). by vm_compute.
Defined.

Lemma key_chars_NoDup : NoDup key_chars.
Proof. apply (bool_decide_unpack (NoDup key_chars)). by vm_compute. Qed.

Lemma generateRandomKey_lookup (array : list Z) : forall i x,
  array !! i = Some x ->
  mjoin ((λ x, option_list
                 (key_chars !! Z.to_nat ((x mod 2 ^ 32)
                                 mod Z.of_nat (length key_chars))))
         <$> array) !! i
  = key_chars !! Z.to_nat ((x mod 2 ^ 32) mod Z.of_nat (length key_chars)).
Proof.
  induction array as [|y array IH]; intros i x Hi; [done|].
  cbn [fmap list_fmap mjoin list_join].
  destruct (key_chars_pick y) as [c Hc].
  destruct i as [|i].
  - injection Hi as ->. by rewrite Hc.
  - rewrite Hc. cbn. by apply IH.
Qed.

(** Which values give which character. *)
Lemma key_chars_residue x (r : nat) c :
  key_chars !! r = Some c ->
  key_chars !! Z.to_nat ((x mod 2 ^ 32) mod Z.of_nat (length key_chars))
  = Some c
  <-> exists k,
        0 <= k < (if (r <? 44)%nat then 56512728 else 56512727)
        /\ x mod 2 ^ 32 = 76 * k + Z.of_nat r.
Proof.
  intros Hr. pose proof (lookup_lt_Some _ _ _ Hr) as Hlt.
  rewrite key_chars_length in Hlt. rewrite key_chars_length.
  change (Z.of_nat 76) with 76.
  pose proof (Z.mod_pos_bound x (2 ^ 32) ltac:(lia)) as Hx.
  set (v := x mod 2 ^ 32) in *.
  pose proof (Z.div_mod v 76 ltac:(lia)) as Hdiv.
  pose proof (Z.mod_pos_bound v 76 ltac:(lia)) as Hmod.
  change (2 ^ 32) with 4294967296 in *.
  split.
  - intros Hc.
    pose proof (NoDup_lookup _ _ _ _ key_chars_NoDup Hc Hr) as Hidx.
    exists (v / 76). split; [|lia].
    destruct (Nat.ltb_spec r 44); lia.
  - intros (k & Hk & Heq).
    assert (v mod 76 = Z.of_nat r) as ->.
    { rewrite Heq, Z.add_comm, Z.mul_comm, Z.mod_add by lia.
      apply Z.mod_small. lia. }
    by rewrite Nat2Z.id.
Qed.

(** X21.  The key generator takes each value of the array modulo 76
    without a rejection loop, so it is slightly biased.  For an array of up
    to 16384 values a key is returned, of the array's length, and at every
    position the key has the character at index [r] of the alphabet exactly
    when the value at that position is, modulo 2^32, [76 * k + r]: there
    are 56512728 such values for each of the first 44 characters but
    56512727 for each of the other 32. *)
Theorem generateRandomKey_bias (array : list Z) :
  Z.of_nat (length array) <= 16384 ->
  exists key,
    generateRandomKey array = Some key
    /\ length key = length array
    /\ forall (i r : nat) x c,
         array !! i = Some x -> key_chars !! r = Some c ->
         key !! i = Some c
         <-> exists k,
               0 <= k < (if (r <? 44)%nat then 56512728 else 56512727)
               /\ x mod 2 ^ 32 = 76 * k + Z.of_nat r.
Proof.
  intros Hlength. unfold generateRandomKey.
  destruct (Z.ltb_spec 65536 (4 * Z.of_nat (length array))) as [|_]; [lia|].
  destruct (generateRandomKey_chars array) as [Hlen _]. cbv zeta in Hlen.
  eexists. split; [done|]. split; [exact Hlen|].
  intros i r x c Hi Hr.
  rewrite (generateRandomKey_lookup array i x Hi).
  by apply key_chars_residue.
Qed.

(** The largest value that gives [A] (index 0), the largest that gives [+]
    (index 75), and the largest of all, which gives [r] (index 43). *)
Lemma generateRandomKey_bias_witness :
  exists key,
    generateRandomKey [4294967252; 4294967251; 4294967295] = Some key
    /\ key !! 0%nat = Some 65 /\ key !! 1%nat = Some 43
    /\ key !! 2%nat = Some 114.
Proof.
  destruct (generateRandomKey_bias [4294967252; 4294967251; 4294967295])
    as (key & Hkey & _ & Hbias); [by vm_compute|].
  exists key. split; [exact Hkey|]. split; [|split].
  - apply (proj2 (Hbias 0%nat 0%nat 4294967252 65 eq_refl eq_refl)).
    exists 56512727. by vm_compute.
  - apply (proj2 (Hbias 1%nat 75%nat 4294967251 43 eq_refl eq_refl)).
    exists 56512726. by vm_compute.
  - apply (proj2 (Hbias 2%nat 43%nat 4294967295 114 eq_refl eq_refl)).
    exists 56512727. by vm_compute.
Defined.

End KeyStrengthTheory.


